(** * transubtil-server: share links, remote storage clients, catalogue store

    A shallow embedding of the server's share-link service
    ([file-sharing.ts]), of its remote storage clients ([ftp.ts], [sftp.js],
    [admin-storage.ts]), of the catalogue text store
    ([catalogue-routes.js]) and of the routes in front of them, with the
    properties the specification states about them and further properties
    of the code. *)

From Stdlib Require Import ZArith NArith List String Ascii Bool Lia.
From Stdlib Require Import DecimalString DecimalN.
From Stdlib Require DecimalFacts DecimalPos.
From Stdlib Require Import Permutation Sorted.
From Stdlib.Strings Require Import Byte.
Import ListNotations.

Local Open Scope string_scope.
Local Open Scope Z_scope.

(** ** JavaScript preliminaries *)

Module Js.

(** Truthiness of the values the code tests with [if (x)], [!x] and [x || y]. *)
Definition truthy_number (o : option Z) : bool :=
  match o with
  | Some n => negb (n =? 0)
  | None => false
  end.

Definition truthy_string (o : option string) : bool :=
  match o with
  | Some s => negb (s =? "")%string
  | None => false
  end.

(** [x || null] on an optional number. *)
Definition or_null (o : option Z) : option Z :=
  if truthy_number o then o else None.

(** [x || 0] on a number. *)
Definition or_zero (n : Z) : Z := if n =? 0 then 0 else n.

(** [Buffer.toString('hex')]: two lower-case hexadecimal digits per byte. *)
Definition hex_digit (n : N) : ascii :=
  match String.get (N.to_nat n) "0123456789abcdef" with
  | Some c => c
  | None => "0"%char
  end.

Definition hex_of_byte (b : byte) : string :=
  let n := Byte.to_N b in
  String (hex_digit (n / 16)) (String (hex_digit (n mod 16)) "").

Fixpoint toString_hex (bs : list byte) : string :=
  match bs with
  | [] => ""
  | b :: rest => hex_of_byte b ++ toString_hex rest
  end.

Definition is_hex_char (c : ascii) : bool :=
  existsb (Ascii.eqb c) (list_ascii_of_string "0123456789abcdef").

Fixpoint all_chars (p : ascii -> bool) (s : string) : bool :=
  match s with
  | EmptyString => true
  | String c rest => p c && all_chars p rest
  end.

(** Strings: [startsWith], [includes], [replace] with a string pattern
    (the first occurrence only), [toLowerCase] on ASCII letters, [slice(n)]
    and [Array.join]. *)
Definition startsWith (s pat : string) : bool := String.prefix pat s.

Fixpoint slice_from (n : nat) (s : string) : string :=
  match n, s with
  | O, _ => s
  | S n', String _ rest => slice_from n' rest
  | S _, EmptyString => EmptyString
  end.

Fixpoint includes (s pat : string) : bool :=
  String.prefix pat s ||
  match s with
  | EmptyString => false
  | String _ rest => includes rest pat
  end.

Fixpoint replace_first (s pat rep : string) : string :=
  if String.prefix pat s then rep ++ slice_from (String.length pat) s
  else match s with
       | EmptyString => EmptyString
       | String c rest => String c (replace_first rest pat rep)
       end.

Definition lower_char (c : ascii) : ascii :=
  let n := nat_of_ascii c in
  if ((65 <=? n) && (n <=? 90))%nat then ascii_of_nat (n + 32) else c.

Fixpoint toLowerCase (s : string) : string :=
  match s with
  | EmptyString => EmptyString
  | String c rest => String (lower_char c) (toLowerCase rest)
  end.

Fixpoint join (sep : string) (parts : list string) : string :=
  match parts with
  | [] => ""
  | [x] => x
  | x :: rest => x ++ sep ++ join sep rest
  end.

(** The time values of a [Date], in milliseconds: [new Date(t)] is an
    invalid date for any other [t], and [toISOString] throws a RangeError
    on it. *)
Definition valid_time (t : Z) : bool :=
  (-8640000000000000 <=? t) && (t <=? 8640000000000000).

(** A text is written here as the bytes of its UTF-8 encoding.
    [ascii_text]: every byte is an ASCII character, on which
    [toLowerCase] above is the one of JavaScript.  [well_formed_text]: the
    bytes are the encoding of a string without a lone surrogate, the
    strings that [fs.writeFileSync(.., 'utf-8')] writes and
    [fs.readFileSync(.., 'utf-8')] reads as they are. *)
Definition is_ascii (c : ascii) : bool := (nat_of_ascii c <? 128)%nat.

Definition ascii_text (s : string) : bool := all_chars is_ascii s.

Definition between (lo hi : nat) (c : ascii) : bool :=
  ((lo <=? nat_of_ascii c) && (nat_of_ascii c <=? hi))%nat.

Fixpoint well_formed_text (s : string) : bool :=
  match s with
  | EmptyString => true
  | String a r1 =>
      if is_ascii a then well_formed_text r1
      else
        match r1 with
        | EmptyString => false
        | String b r2 =>
            if between 194 223 a then between 128 191 b && well_formed_text r2
            else
              match r2 with
              | EmptyString => false
              | String c r3 =>
                  if between 224 239 a then
                    (if between 224 224 a then between 160 191 b
                     else if between 237 237 a then between 128 159 b
                     else between 128 191 b)
                    && between 128 191 c && well_formed_text r3
                  else
                    match r3 with
                    | EmptyString => false
                    | String d r4 =>
                        between 240 244 a
                        && (if between 240 240 a then between 144 191 b
                            else if between 244 244 a then between 128 143 b
                            else between 128 191 b)
                        && between 128 191 c && between 128 191 d
                        && well_formed_text r4
                    end
              end
        end
  end.

End Js.

(** ** Node's [path] module (POSIX flavour) *)

Module NodePath.

(** [path.split('/')]. *)
Fixpoint segments (path : string) : list string :=
  match path with
  | EmptyString => [""]
  | String c rest =>
      if Ascii.eqb c "/" then "" :: segments rest
      else match segments rest with
           | seg :: more => String c seg :: more
           | [] => [String c ""]
           end
  end.

(** [normalizeString]: empty and [.] segments are dropped; [..] removes the
    segment before it, or is kept when there is none to remove and the path
    may climb above its start.  [kept] is the result so far, last segment
    first. *)
Fixpoint normalizeSegments (allowAboveRoot : bool) (segs kept : list string)
  : list string :=
  match segs with
  | [] => rev kept
  | seg :: rest =>
      if (seg =? "")%string || (seg =? ".")%string then
        normalizeSegments allowAboveRoot rest kept
      else if (seg =? "..")%string then
        match kept with
        | last :: before =>
            if (last =? "..")%string then
              normalizeSegments allowAboveRoot rest
                (if allowAboveRoot then ".." :: kept else kept)
            else normalizeSegments allowAboveRoot rest before
        | [] =>
            normalizeSegments allowAboveRoot rest
              (if allowAboveRoot then [".."] else [])
        end
      else normalizeSegments allowAboveRoot rest (seg :: kept)
  end.

Definition normalizeString (path : string) (allowAboveRoot : bool) : string :=
  Js.join "/" (normalizeSegments allowAboveRoot (segments path) []).

Fixpoint endsWithSlash (path : string) : bool :=
  match path with
  | EmptyString => false
  | String c EmptyString => Ascii.eqb c "/"
  | String _ rest => endsWithSlash rest
  end.

Definition normalize (path : string) : string :=
  if (path =? "")%string then "."
  else
    let isAbsolute := Js.startsWith path "/" in
    let trailingSeparator := endsWithSlash path in
    let p := normalizeString path (negb isAbsolute) in
    if (p =? "")%string then
      if isAbsolute then "/" else if trailingSeparator then "./" else "."
    else
      let p := if trailingSeparator then p ++ "/" else p in
      if isAbsolute then "/" ++ p else p.

Definition join (args : list string) : string :=
  match filter (fun a => negb (a =? "")%string) args with
  | [] => "."
  | parts => normalize (Js.join "/" parts)
  end.

(** A segment with no separator in it, and a plain name: such a segment
    other than the empty one, [.] and [..]. *)
Fixpoint no_slash (s : string) : bool :=
  match s with
  | EmptyString => true
  | String c rest => negb (Ascii.eqb c "/") && no_slash rest
  end.

Definition plain (seg : string) : bool :=
  no_slash seg && negb (seg =? "")%string && negb (seg =? ".")%string
  && negb (seg =? "..")%string.

(** The absolute path made of the given names. *)
Definition absolute_of (segs : list string) : string := "/" ++ Js.join "/" segs.

(** A path none of whose segments is [..]. *)
Definition no_dotdot (path : string) : bool :=
  forallb (fun seg => negb (seg =? "..")%string) (segments path).

(** The segments [normalizeString] keeps of such a path. *)
Definition kept_segment (seg : string) : bool := negb ((seg =? "")%string || (seg =? ".")%string).

End NodePath.

(** ** The share-link service ([file-sharing.ts]) *)

Module ShareLinks.

(** A row of the [shared_links] table.  Timestamps are the milliseconds of
    the ISO strings the code stores; the identifier is opaque and assigned
    by the store. *)
Record ShareLink := {
  id : nat;
  file_path : string;
  file_name : string;
  file_size : Z;
  token : string;
  created_by : string;
  created_at : Z;
  expires_at : option Z;
  password_hash : option string;
  max_downloads : option Z;
  download_count : Z;
  is_active : bool;
  last_accessed_at : option Z
}.

Record ShareLinkOptions := {
  filePath : string;
  fileName : string;
  fileSize : Z;
  createdBy : string;
  expiresIn : option Z;
  password : option string;
  maxDownloads : option Z
}.

(** The two functions of the bcrypt library the service calls. *)
Class Bcrypt := {
  bcrypt_hash : string -> string;
  bcrypt_compare : string -> string -> bool
}.

(** What the service runs against: the table, the clock, the outcome of the
    queries still to come ([true]: the query fails; none left: it succeeds),
    the entropy source read by [crypto.randomBytes] with the number of bytes
    already drawn, and the store's identifier counter. *)
Record World := {
  rows : list ShareLink;
  clock : Z;
  faults : list bool;
  entropy : nat -> byte;
  drawn : nat;
  next_id : nat
}.

Definition with_rows (r : list ShareLink) (w : World) : World :=
  {| rows := r; clock := clock w; faults := faults w;
     entropy := entropy w; drawn := drawn w; next_id := next_id w |}.

Definition with_clock (t : Z) (w : World) : World :=
  {| rows := rows w; clock := t; faults := faults w;
     entropy := entropy w; drawn := drawn w; next_id := next_id w |}.

Definition with_faults (f : list bool) (w : World) : World :=
  {| rows := rows w; clock := clock w; faults := f;
     entropy := entropy w; drawn := drawn w; next_id := next_id w |}.

Definition with_drawn (n : nat) (w : World) : World :=
  {| rows := rows w; clock := clock w; faults := faults w;
     entropy := entropy w; drawn := n; next_id := next_id w |}.

Definition with_next_id (n : nat) (w : World) : World :=
  {| rows := rows w; clock := clock w; faults := faults w;
     entropy := entropy w; drawn := drawn w; next_id := n |}.

(** *** Asynchronous computations

    An [async] function either returns, throws, or (the token loop) runs
    for ever; [await] is the bind of the monad. *)
Inductive Outcome (A : Type) : Type :=
| Returns (a : A)
| Throws (msg : string)
| Diverges.

Arguments Returns {A} a.
Arguments Throws {A} msg.
Arguments Diverges {A}.

Definition Async (A : Type) : Type := World -> Outcome A * World.

Definition ret {A} (a : A) : Async A := fun w => (Returns a, w).

Definition throw {A} (msg : string) : Async A := fun w => (Throws msg, w).

Definition diverge {A} : Async A := fun w => (Diverges, w).

Definition bind {A B} (m : Async A) (k : A -> Async B) : Async B :=
  fun w =>
    match m w with
    | (Returns a, w') => k a w'
    | (Throws msg, w') => (Throws msg, w')
    | (Diverges, w') => (Diverges, w')
    end.

Declare Scope async_scope.
Delimit Scope async_scope with async.
Notation "x <- m ;; k" := (bind m (fun x => k))
  (at level 61, m at next level, right associativity) : async_scope.
Notation "m ;; k" := (bind m (fun _ => k))
  (at level 61, right associativity) : async_scope.
Local Open Scope async_scope.

(** [Date.now()] and [new Date()]. *)
Definition Date_now : Async Z := fun w => (Returns (clock w), w).

(** Time passing between two requests. *)
Definition elapse (dt : Z) : Async unit :=
  fun w => (Returns tt, with_clock (clock w + dt) w).

(** [crypto.randomBytes(n)]. *)
Definition randomBytes (n : nat) : Async (list byte) :=
  fun w => (Returns (map (entropy w) (seq (drawn w) n)),
            with_drawn (drawn w + n) w).

(** *** The store's queries

    Every query first learns whether it fails.  A failed query yields
    [data = null] with an error and leaves the table as it was. *)
Definition query_fails : Async bool :=
  fun w =>
    match faults w with
    | [] => (Returns false, w)
    | f :: fs => (Returns f, with_faults fs w)
    end.

(** [.single()]: the row when exactly one matches, an error otherwise. *)
Definition single {A} (l : list A) : option A :=
  match l with
  | [x] => Some x
  | _ => None
  end.

Definition has_token (t : string) (l : ShareLink) : bool := (token l =? t)%string.

Definition owned (linkId : nat) (userId : string) (l : ShareLink) : bool :=
  (id l =? linkId)%nat && (created_by l =? userId)%string.

(** [from('shared_links').select(..).eq('token', t).single()]; [None] is
    [data = null] together with an error. *)
Definition select_by_token_single (t : string) : Async (option ShareLink) :=
  failed <- query_fails ;;
  if failed then ret None
  else fun w => (Returns (single (filter (has_token t) (rows w))), w).

(** Modelled from the spec: the table's column defaults, which live in the
    database schema and not in the source.  A new row gets a store-assigned
    identifier, the creation timestamp, a download count of zero, the active
    flag set and no last-accessed timestamp.  [from('shared_links')
    .insert(..).select().single()]; [None] is an error. *)
Definition insert_select_single
    (path name : string) (size : Z) (tok creator : string)
    (expires : option Z) (hash : option string) (maxd : option Z)
  : Async (option ShareLink) :=
  failed <- query_fails ;;
  if failed then ret None
  else fun w =>
    let row := {| id := next_id w; file_path := path; file_name := name;
                  file_size := size; token := tok; created_by := creator;
                  created_at := clock w; expires_at := expires;
                  password_hash := hash; max_downloads := maxd;
                  download_count := 0; is_active := true;
                  last_accessed_at := None |} in
    (Returns (Some row),
     with_next_id (S (next_id w)) (with_rows (rows w ++ [row]) w)).

(** [update(f).eq(..)]: [true] is an error. *)
Definition update_where (p : ShareLink -> bool) (f : ShareLink -> ShareLink)
  : Async bool :=
  failed <- query_fails ;;
  if failed then ret true
  else fun w =>
    (Returns false,
     with_rows (map (fun l => if p l then f l else l) (rows w)) w).

(** [delete().eq(..)]: [true] is an error. *)
Definition delete_where (p : ShareLink -> bool) : Async bool :=
  failed <- query_fails ;;
  if failed then ret true
  else fun w =>
    (Returns false, with_rows (filter (fun l => negb (p l)) (rows w)) w).


(** *** The service *)

Definition generateShareToken : Async string :=
  bytes <- randomBytes 16 ;;
  ret (Js.toString_hex bytes).

Definition hashPassword `{Bcrypt} (password : string) : Async string :=
  ret (bcrypt_hash password).

Definition verifyPassword `{Bcrypt} (password hash : string) : Async bool :=
  ret (bcrypt_compare password hash).

(** The [while (!isUnique)] loop of [createShareLink]; [fuel] bounds the
    number of iterations, and running out of it is divergence. *)
Fixpoint unique_token (fuel : nat) (token : string) : Async string :=
  match fuel with
  | O => diverge
  | S fuel' =>
      existing <- select_by_token_single token ;;
      match existing with
      | None => ret token
      | Some _ =>
          token' <- generateShareToken ;;
          unique_token fuel' token'
      end
  end.

(** [new Date(Date.now() + options.expiresIn).toISOString()] is written
    here for the sums that are time values of a [Date] ([Js.valid_time],
    [expiry_in_range] below); for any other sum [toISOString] throws a
    RangeError before the insert. *)
Definition createShareLink `{Bcrypt} (fuel : nat) (options : ShareLinkOptions)
  : Async ShareLink :=
  token <- generateShareToken ;;
  token <- unique_token fuel token ;;
  expiresAt <-
    (if Js.truthy_number (expiresIn options) then
       now <- Date_now ;;
       ret (option_map (fun e => now + e) (expiresIn options))
     else ret None) ;;
  passwordHash <-
    (match password options with
     | Some p =>
         if Js.truthy_string (Some p) then
           h <- hashPassword p ;; ret (Some h)
         else ret None
     | None => ret None
     end) ;;
  data <- insert_select_single
            (filePath options) (fileName options) (fileSize options)
            token (createdBy options)
            expiresAt passwordHash (Js.or_null (maxDownloads options)) ;;
  match data with
  | None => throw "Failed to create share link"
  | Some link => ret link
  end.

Definition getShareLink (token : string) : Async (option ShareLink) :=
  select_by_token_single token.

Inductive Validation :=
| Invalid (reason : string)
| Valid (link : ShareLink).

Definition validateShareLink `{Bcrypt} (token : string) (password : option string)
  : Async Validation :=
  found <- getShareLink token ;;
  match found with
  | None => ret (Invalid "Link not found")
  | Some link =>
      if negb (is_active link) then ret (Invalid "Link has been deactivated")
      else
        now <- Date_now ;;
        if match expires_at link with
           | Some e => e <? now
           | None => false
           end
        then ret (Invalid "Link has expired")
        else if match max_downloads link with
                | Some m => m <=? download_count link
                | None => false
                end
        then ret (Invalid "Download limit reached")
        else if Js.truthy_string (password_hash link) then
          match password, password_hash link with
          | Some p, Some h =>
              if Js.truthy_string (Some p) then
                passwordValid <- verifyPassword p h ;;
                if passwordValid then ret (Valid link)
                else ret (Invalid "Invalid password")
              else ret (Invalid "Password required")
          | _, _ => ret (Invalid "Password required")
          end
        else ret (Valid link)
  end.

(** The object [incrementDownloadCount] passes to [update]:
    [{ download_count: count + 1, last_accessed_at: now }]. *)
Definition bumped (count now : Z) (l : ShareLink) : ShareLink :=
  {| id := id l; file_path := file_path l; file_name := file_name l;
     file_size := file_size l; token := token l; created_by := created_by l;
     created_at := created_at l; expires_at := expires_at l;
     password_hash := password_hash l; max_downloads := max_downloads l;
     download_count := count + 1; is_active := is_active l;
     last_accessed_at := Some now |}.

(** The object [deactivateShareLink] passes to [update]:
    [{ is_active: false }]. *)
Definition deactivated (l : ShareLink) : ShareLink :=
  {| id := id l; file_path := file_path l; file_name := file_name l;
     file_size := file_size l; token := token l; created_by := created_by l;
     created_at := created_at l; expires_at := expires_at l;
     password_hash := password_hash l; max_downloads := max_downloads l;
     download_count := download_count l; is_active := false;
     last_accessed_at := last_accessed_at l |}.

Definition incrementDownloadCount (token : string) : Async unit :=
  current <- select_by_token_single token ;;
  match current with
  | None => throw "Failed to fetch download count"
  | Some cur =>
      now <- Date_now ;;
      failed <- update_where (has_token token)
                  (bumped (Js.or_zero (download_count cur)) now) ;;
      if failed then throw "Failed to update download count" else ret tt
  end.

Definition deactivateShareLink (linkId : nat) (userId : string) : Async unit :=
  failed <- update_where (owned linkId userId) deactivated ;;
  if failed then throw "Failed to deactivate share link" else ret tt.

Definition deleteShareLink (linkId : nat) (userId : string) : Async unit :=
  failed <- delete_where (owned linkId userId) ;;
  if failed then throw "Failed to delete share link" else ret tt.

(** *** The other queries of the service *)

Definition created_by_user (userId : string) (l : ShareLink) : bool :=
  (created_by l =? userId)%string.

(** [.order('created_at', { ascending: false })]: the newest first.  Among
    links created at the same instant the store is free to choose; this one
    keeps them as they are stored. *)
Fixpoint insert_newest (l : ShareLink) (sorted : list ShareLink) : list ShareLink :=
  match sorted with
  | [] => [l]
  | x :: rest =>
      if created_at x <? created_at l then l :: sorted
      else x :: insert_newest l rest
  end.

Definition newest_first (ls : list ShareLink) : list ShareLink :=
  fold_right insert_newest [] ls.

(** [from('shared_links').select('*').eq('created_by', userId).order(..)];
    [None] is an error. *)
Definition select_by_creator (userId : string) : Async (option (list ShareLink)) :=
  failed <- query_fails ;;
  if failed then ret None
  else fun w =>
    (Returns (Some (newest_first (filter (created_by_user userId) (rows w)))), w).

Definition getUserShareLinks (userId : string) : Async (list ShareLink) :=
  data <- select_by_creator userId ;;
  match data with
  | None => throw "Failed to get share links"
  | Some links => ret links
  end.

(** [.lt('expires_at', now)]: a row without an expiry never matches. *)
Definition expires_before (now : Z) (l : ShareLink) : bool :=
  match expires_at l with
  | Some e => e <? now
  | None => false
  end.

(** [delete().lt(..).select()]: the rows deleted, or [None] for an error. *)
Definition delete_where_select (p : ShareLink -> bool)
  : Async (option (list ShareLink)) :=
  failed <- query_fails ;;
  if failed then ret None
  else fun w =>
    (Returns (Some (filter p (rows w))),
     with_rows (filter (fun l => negb (p l)) (rows w)) w).

Definition cleanupExpiredLinks : Async Z :=
  now <- Date_now ;;
  data <- delete_where_select (expires_before now) ;;
  match data with
  | None => ret 0
  | Some removed => ret (Js.or_zero (Z.of_nat (List.length removed)))
  end.

(** [a] was not created before [b]. *)
Definition not_older (a b : ShareLink) : Prop := created_at b <= created_at a.

(** *** Reading a run

    The token drawn by the [j]-th call of [generateShareToken] from [w], the
    tokens in use, and the first draw that is not in use. *)
Definition draw (w : World) (j : nat) : string :=
  Js.toString_hex (map (entropy w) (seq (drawn w + 16 * j) 16)).

Definition tokens (w : World) : list string := map token (rows w).

Definition first_fresh (w : World) (k : nat) : Prop :=
  (forall i, (i < k)%nat -> In (draw w i) (tokens w)) /\ ~ In (draw w k) (tokens w).

(** The row [createShareLink] inserts when its [k]-th draw is the token it
    keeps, and the world it leaves. *)
Definition new_link `{Bcrypt} (options : ShareLinkOptions) (w : World) (k : nat)
  : ShareLink :=
  {| id := next_id w;
     file_path := filePath options;
     file_name := fileName options;
     file_size := fileSize options;
     token := draw w k;
     created_by := createdBy options;
     created_at := clock w;
     expires_at :=
       match expiresIn options with
       | Some e => if e =? 0 then None else Some (clock w + e)
       | None => None
       end;
     password_hash :=
       match password options with
       | Some p => if (p =? "")%string then None else Some (bcrypt_hash p)
       | None => None
       end;
     max_downloads :=
       match maxDownloads options with
       | Some m => if m =? 0 then None else Some m
       | None => None
       end;
     download_count := 0;
     is_active := true;
     last_accessed_at := None |}.

Definition after_create `{Bcrypt} (options : ShareLinkOptions) (w : World) (k : nat)
  : World :=
  with_next_id (S (next_id w))
    (with_rows (rows w ++ [new_link options w k])
       (with_drawn (drawn w + 16 * S k) w)).

(** The conditions [validateShareLink] tests, as the specification words
    them. *)
Definition expired (link : ShareLink) (now : Z) : Prop :=
  exists e, expires_at link = Some e /\ e < now.

Definition limit_reached (link : ShareLink) : Prop :=
  exists m, max_downloads link = Some m /\ m <= download_count link.

Definition protected_by (link : ShareLink) (h : string) : Prop :=
  password_hash link = Some h /\ h <> "".

Definition supplied (password : option string) (p : string) : Prop :=
  password = Some p /\ p <> "".

(** The outcome of the [n]-th query still to come. *)
Definition upcoming (w : World) (n : nat) : bool := nth n (faults w) false.


(** The link created from [options] has not expired [dt] milliseconds after
    its creation. *)
Definition outlives (options : ShareLinkOptions) (dt : Z) : Prop :=
  match expiresIn options with
  | Some ttl => ttl = 0 \/ dt <= ttl
  | None => True
  end.


(** Modelled from the spec: one counted download, as the specification words
    it.  The count of the row is one more than it was, its last access is
    the time of the download, and nothing else of the row has changed. *)
Definition counted (now : Z) (before after : ShareLink) : Prop :=
  download_count after = download_count before + 1
  /\ last_accessed_at after = Some now
  /\ id after = id before
  /\ file_path after = file_path before
  /\ file_name after = file_name before
  /\ file_size after = file_size before
  /\ token after = token before
  /\ created_by after = created_by before
  /\ created_at after = created_at before
  /\ expires_at after = expires_at before
  /\ password_hash after = password_hash before
  /\ max_downloads after = max_downloads before
  /\ is_active after = is_active before.

(** Modelled from the spec: the table after one counted download of the
    token [t]: the rows with the token are counted, the others are as they
    were, and no row is added, removed or moved. *)
Definition counted_rows (t : string) (now : Z) (before after : list ShareLink)
  : Prop :=
  Forall2 (fun l l' => (token l = t -> counted now l l') /\ (token l <> t -> l' = l))
    before after.

(** Sample data: a store that already holds one link, whose token is the
    one the entropy source yields first, so that creation has to draw
    twice. *)
Definition sample_entropy (n : nat) : byte :=
  if (n <? 16)%nat then x00 else if (n <? 32)%nat then xa7 else xff.

Definition sample_row : ShareLink :=
  {| id := 0; file_path := "/mixes/live.wav"; file_name := "live.wav";
     file_size := 1000; token := "00000000000000000000000000000000";
     created_by := "alice"; created_at := 10; expires_at := None;
     password_hash := None; max_downloads := None; download_count := 0;
     is_active := true; last_accessed_at := None |}.

Definition sample_world : World :=
  {| rows := [sample_row]; clock := 5000; faults := [];
     entropy := sample_entropy; drawn := 0; next_id := 1 |}.

Definition sample_options (ttl : option Z) (pw : option string) (maxd : option Z)
  : ShareLinkOptions :=
  {| filePath := "/mixes/set.wav"; fileName := "set.wav"; fileSize := 2000;
     createdBy := "bob"; expiresIn := ttl; password := pw; maxDownloads := maxd |}.

(** A bcrypt stand-in for running the model on examples: the hash is the
    password itself. *)
Definition plain_bcrypt : Bcrypt :=
  {| bcrypt_hash := fun p => p; bcrypt_compare := String.eqb |}.

(** *** The admin client

    Every function of the service starts with [getSupabaseAdminClient()]
    ([validateShareLink] through [getShareLink]), which throws unless both
    [VITE_SUPABASE_URL] and [SUPABASE_SERVICE_KEY] are set.  The functions
    above are written from the point on where the client exists;
    [in_env env f] is the function [f] as it runs in the environment
    [env]. *)
Record Env := {
  VITE_SUPABASE_URL : option string;
  SUPABASE_SERVICE_KEY : option string
}.

Definition getSupabaseAdminClient (env : Env) : Async unit :=
  if negb (Js.truthy_string (VITE_SUPABASE_URL env))
     || negb (Js.truthy_string (SUPABASE_SERVICE_KEY env))
  then throw "Supabase admin credentials not configured"
  else ret tt.

Definition in_env {A} (env : Env) (f : Async A) : Async A :=
  getSupabaseAdminClient env ;; f.

(** Both variables are set. *)
Definition configured (env : Env) : Prop :=
  (exists url, VITE_SUPABASE_URL env = Some url /\ url <> "")
  /\ (exists key, SUPABASE_SERVICE_KEY env = Some key /\ key <> "").

(** The expiry [createShareLink] computes from [options] in [w] is a time
    value of a [Date]. *)
Definition expiry_in_range (options : ShareLinkOptions) (w : World) : Prop :=
  match expiresIn options with
  | Some ttl => Js.valid_time (clock w + ttl) = true
  | None => True
  end.

(** More sample data: an environment with both variables, one without the
    service key, and a store that holds a link whose expiry has passed. *)
Definition sample_env : Env :=
  {| VITE_SUPABASE_URL := Some "https://db.example.org";
     SUPABASE_SERVICE_KEY := Some "service-key" |}.

Definition unset_env : Env :=
  {| VITE_SUPABASE_URL := Some "https://db.example.org";
     SUPABASE_SERVICE_KEY := None |}.

Definition stale_row : ShareLink :=
  {| id := 1; file_path := "/mixes/old.wav"; file_name := "old.wav";
     file_size := 3000; token := "a7a7a7a7a7a7a7a7a7a7a7a7a7a7a7a7";
     created_by := "alice"; created_at := 20; expires_at := Some 4000;
     password_hash := None; max_downloads := None; download_count := 2;
     is_active := true; last_accessed_at := Some 3000 |}.

Definition stale_world : World :=
  {| rows := [stale_row; sample_row]; clock := 5000; faults := [];
     entropy := sample_entropy; drawn := 0; next_id := 2 |}.

End ShareLinks.

(** ** The remote storage clients ([ftp.ts], [sftp.js], [admin-storage.ts]) *)

Module Remote.

(** *** The remote file tree

    What the server on the other side of the connection holds, and what
    [client.list(path)] answers: the entries of the directory the path
    leads to, or an error when there is no such directory. *)
#[warnings="-register-all"]
Inductive Node :=
| File (size : Z)
| Dir (size : Z) (entries : list (string * Node)).

Record FileInfo := {
  name : string;
  size : Z;
  isDirectory : bool
}.

Definition info (entry : string * Node) : FileInfo :=
  match snd entry with
  | File sz => {| name := fst entry; size := sz; isDirectory := false |}
  | Dir sz _ => {| name := fst entry; size := sz; isDirectory := true |}
  end.

Fixpoint child (seg : string) (entries : list (string * Node)) : option Node :=
  match entries with
  | [] => None
  | (n, node) :: rest => if (n =? seg)%string then Some node else child seg rest
  end.

Fixpoint resolve (segs : list string) (node : Node) : option Node :=
  match segs with
  | [] => Some node
  | seg :: rest =>
      match node with
      | File _ => None
      | Dir _ entries =>
          match child seg entries with
          | Some next => resolve rest next
          | None => None
          end
      end
  end.

Definition list_dir (root : Node) (path : string) : option (list FileInfo) :=
  match resolve (filter (fun seg => negb (seg =? "")%string)
                   (NodePath.segments path)) root with
  | Some (Dir _ entries) => Some (map info entries)
  | _ => None
  end.

(** *** Connections

    A client lives in a single-threaded event loop.  [Call c] is caller [c]
    invoking [connect()], run up to its first suspension; [Settle a ok] is
    the handshake of attempt [a] finishing, with what runs after it.  A
    reply is a [connect()] promise settling for its caller. *)
Inductive Event :=
| Call (caller : nat)
| Settle (attempt : nat) (ok : bool).

Inductive Reply :=
| Resolved (caller : nat)
| Rejected (caller : nat).

Definition reply_to (ok : bool) (caller : nat) : Reply :=
  if ok then Resolved caller else Rejected caller.

Definition default_base : string := "/home/faji2535/admin-files".

(** A resolved path is the base root or lies below it. *)
Definition within (base p : string) : bool :=
  (p =? base)%string || Js.startsWith p (base ++ "/").

End Remote.

(** [O2SwitchStorage], in its FTPS and its SFTP version: they differ in the
    protocol calls only. *)
Module O2SwitchStorage.

Import Remote.

Record Client := {
  connected : bool;
  connecting : option nat;
  attempts : nat;
  awaiting : list (nat * nat);
  replies : list Reply
}.

Definition initial : Client :=
  {| connected := false; connecting := None; attempts := 0;
     awaiting := []; replies := [] |}.

(** [connect()] up to its first [await]. *)
Definition connect (caller : nat) (s : Client) : Client :=
  if connected s then
    {| connected := connected s; connecting := connecting s;
       attempts := attempts s; awaiting := awaiting s;
       replies := Resolved caller :: replies s |}
  else
    match connecting s with
    | Some a =>
        {| connected := connected s; connecting := connecting s;
           attempts := attempts s; awaiting := (caller, a) :: awaiting s;
           replies := replies s |}
    | None =>
        {| connected := connected s; connecting := Some (attempts s);
           attempts := S (attempts s);
           awaiting := (caller, attempts s) :: awaiting s;
           replies := replies s |}
    end.

(** The handshake of the in-flight attempt finishes: the [try] block sets
    [connected], [finally] clears [connecting], and every caller awaiting
    the promise resumes. *)
Definition settle (attempt : nat) (ok : bool) (s : Client) : Client :=
  match connecting s with
  | Some a =>
      if (a =? attempt)%nat then
        {| connected := ok; connecting := None; attempts := attempts s;
           awaiting := filter (fun ca => negb (snd ca =? attempt)%nat) (awaiting s);
           replies :=
             (map (fun ca => reply_to ok (fst ca))
                (filter (fun ca => (snd ca =? attempt)%nat) (awaiting s))
              ++ replies s)%list |}
      else s
  | None => s
  end.

Definition step (s : Client) (e : Event) : Client :=
  match e with
  | Call c => connect c s
  | Settle a ok => settle a ok s
  end.

Definition run (trace : list Event) (s : Client) : Client :=
  fold_left step trace s.

(** Handshakes started and not yet finished. *)
Definition in_flight (s : Client) : list nat :=
  nodup Nat.eq_dec (map snd (awaiting s)).

Record SearchResult := {
  name : string;
  size : Z;
  type : string;
  path : string
}.

Inductive Walk :=
| Found (results : list SearchResult)
| ListFailed (dirPath : string)
| Unfinished.

Definition strip_leading_slash (s : string) : string :=
  if Js.startsWith s "/" then Js.slice_from 1 s else s.

(** [for (const item of list) { ... }] with a body that may fail. *)
Fixpoint for_of (items : list FileInfo)
    (body : FileInfo -> list SearchResult -> Walk)
    (results : list SearchResult) : Walk :=
  match items with
  | [] => Found results
  | item :: rest =>
      match body item results with
      | Found results' => for_of rest body results'
      | failed => failed
      end
  end.

(** [searchDirectory], the closure of [searchAdminFiles]; [results] is the
    array it pushes to, and [fuel] bounds the depth of the recursion. *)
Fixpoint searchDirectory (fuel : nat) (root : Node)
    (adminBasePath lowerQuery dirPath : string) (results : list SearchResult)
  : Walk :=
  match fuel with
  | O => Unfinished
  | S fuel' =>
      match list_dir root dirPath with
      | None => ListFailed dirPath
      | Some items =>
          for_of items
            (fun item results =>
               if (Remote.name item =? ".")%string
                  || (Remote.name item =? "..")%string
               then Found results
               else
                 let itemPath := NodePath.join [dirPath; Remote.name item] in
                 let relPath :=
                   strip_leading_slash
                     (Js.replace_first itemPath adminBasePath "") in
                 let results :=
                   if Js.includes (Js.toLowerCase (Remote.name item)) lowerQuery
                   then (results
                         ++ [{| name := Remote.name item;
                                size := Remote.size item;
                                type := if isDirectory item then "d" else "-";
                                path := relPath |}])%list
                   else results in
                 if isDirectory item then
                   searchDirectory fuel' root adminBasePath lowerQuery
                     itemPath results
                 else Found results)
            results
      end
  end.

Definition searchAdminFiles (fuel : nat) (root : Node) (adminBasePath : string)
    (relativePath query : string) : Walk :=
  let fullPath := NodePath.join [adminBasePath; relativePath] in
  let lowerQuery := Js.toLowerCase query in
  searchDirectory fuel root adminBasePath lowerQuery fullPath [].

(** The path [downloadAdminFile] hands to the protocol client. *)
Definition downloadAdminFile_path (adminBasePath relativePath : string) : string :=
  NodePath.join [adminBasePath; relativePath].

(** In every state a trace leads to, the callers that wait all wait for the
    one attempt in flight, and nobody waits when none is. *)
Definition consistent (s : Client) : Prop :=
  match connecting s with
  | Some a =>
      connected s = false
      /\ attempts s = S a
      /\ awaiting s <> []
      /\ forall ca, In ca (awaiting s) -> snd ca = a
  | None => awaiting s = []
  end.

End O2SwitchStorage.

(** [listAdminFiles] of [O2SwitchStorage]. *)
Module O2SwitchListing.

Import Remote.
Local Open Scope string_scope.

(** An entry of [listAdminFiles]; [lastmod] is the listing's modification
    time carried along, and is left out. *)
Record ListedFile := {
  basename : string;
  filename : string;
  type : string;
  size : Z;
  mime : option string
}.

Definition listAdminFiles (root : Node) (adminBasePath relativePath : string)
  : option (list ListedFile) :=
  let fullPath := NodePath.join [adminBasePath; relativePath] in
  match list_dir root fullPath with
  | None => None
  | Some items =>
      Some (map (fun item =>
                   {| basename := Remote.name item;
                      filename := NodePath.join [relativePath; Remote.name item];
                      type := if isDirectory item then "directory" else "file";
                      size := Remote.size item;
                      mime := if isDirectory item then None
                              else Some "application/octet-stream" |})
              (filter (fun item =>
                         negb (Remote.name item =? ".")
                         && negb (Remote.name item =? "..")) items))
  end.

End O2SwitchListing.

(** ** The search, as specified *)

Module SearchSpec.

Import NodePath Remote.
Local Open Scope string_scope.

(** The search as the specification words it: every entry of the subtree,
    at any depth, whose name contains the query whatever the case, with its
    path below the directory the search starts from, in one flat list. *)
Fixpoint expected_node (lowerQuery : string) (prefix : list string)
    (name : string) (node : Node) : list O2SwitchStorage.SearchResult :=
  ((if Js.includes (Js.toLowerCase name) lowerQuery
    then [{| O2SwitchStorage.name := name;
             O2SwitchStorage.size := match node with File sz => sz | Dir sz _ => sz end;
             O2SwitchStorage.type := match node with File _ => "-" | Dir _ _ => "d" end;
             O2SwitchStorage.path := Js.join "/" (prefix ++ [name]) |}]
    else [])
   ++ match node with
      | File _ => []
      | Dir _ entries =>
          (fix below (entries : list (string * Node)) :=
             match entries with
             | [] => []
             | (n, nd) :: rest =>
                 expected_node lowerQuery (prefix ++ [name]) n nd ++ below rest
             end) entries
      end)%list.

Fixpoint expected (lowerQuery : string) (prefix : list string)
    (entries : list (string * Node)) : list O2SwitchStorage.SearchResult :=
  match entries with
  | [] => []
  | (n, nd) :: rest =>
      (expected_node lowerQuery prefix n nd ++ expected lowerQuery prefix rest)%list
  end.

(** The depth of a tree, and the trees whose names are plain and differ
    within each directory. *)
Fixpoint depth (node : Node) : nat :=
  match node with
  | File _ => 0%nat
  | Dir _ entries =>
      S ((fix deepest (entries : list (string * Node)) : nat :=
            match entries with
            | [] => 0%nat
            | (_, nd) :: rest => Nat.max (depth nd) (deepest rest)
            end) entries)
  end.

Fixpoint distinct (names : list string) : bool :=
  match names with
  | [] => true
  | n :: rest => negb (existsb (String.eqb n) rest) && distinct rest
  end.

Fixpoint well_formed (node : Node) : bool :=
  match node with
  | File _ => true
  | Dir _ entries =>
      forallb plain (map fst entries) && distinct (map fst entries)
      && (fix all (entries : list (string * Node)) :=
            match entries with
            | [] => true
            | (_, nd) :: rest => well_formed nd && all rest
            end) entries
  end.

(** The trees all of whose names are ASCII texts. *)
Fixpoint ascii_names (node : Node) : bool :=
  match node with
  | File _ => true
  | Dir _ entries =>
      (fix all (entries : list (string * Node)) :=
         match entries with
         | [] => true
         | (n, nd) :: rest => Js.ascii_text n && ascii_names nd && all rest
         end) entries
  end.

End SearchSpec.

(** [AdminStorageClient] ([admin-storage.ts]). *)
Module AdminStorageClient.

Import Remote.

Record Client := {
  connected : bool;
  attempts : nat;
  awaiting : list (nat * nat);
  replies : list Reply
}.

Definition initial : Client :=
  {| connected := false; attempts := 0; awaiting := []; replies := [] |}.

Definition connect (caller : nat) (s : Client) : Client :=
  if connected s then
    {| connected := connected s; attempts := attempts s;
       awaiting := awaiting s; replies := Resolved caller :: replies s |}
  else
    {| connected := connected s; attempts := S (attempts s);
       awaiting := (caller, attempts s) :: awaiting s; replies := replies s |}.

Definition settle (attempt : nat) (ok : bool) (s : Client) : Client :=
  match filter (fun ca => (snd ca =? attempt)%nat) (awaiting s) with
  | [] => s
  | callers =>
      {| connected := ok; attempts := attempts s;
         awaiting := filter (fun ca => negb (snd ca =? attempt)%nat) (awaiting s);
         replies := (map (fun ca => reply_to ok (fst ca)) callers ++ replies s)%list |}
  end.

Definition step (s : Client) (e : Event) : Client :=
  match e with
  | Call c => connect c s
  | Settle a ok => settle a ok s
  end.

Definition run (trace : list Event) (s : Client) : Client :=
  fold_left step trace s.

Definition in_flight (s : Client) : list nat :=
  nodup Nat.eq_dec (map snd (awaiting s)).

Definition getFullPath (basePath relativePath : string) : string :=
  let normalized := NodePath.normalize relativePath in
  if Js.startsWith normalized "/" then
    NodePath.join [basePath; Js.slice_from 1 normalized]
  else NodePath.join [basePath; normalized].

(** The fields of an [AdminFile] that come from the listing and that the
    search reads or returns; times, rights and owners are carried along
    unchanged and left out here. *)
Record AdminFile := {
  name : string;
  type : string;
  size : Z
}.

Definition listFiles (root : Node) (basePath relativePath : string)
  : option (list AdminFile) :=
  let fullPath := getFullPath basePath relativePath in
  match list_dir root fullPath with
  | None => None
  | Some items =>
      Some (map (fun item =>
                   {| name := Remote.name item;
                      type := if isDirectory item then "d" else "-";
                      size := Remote.size item |})
              (filter (fun item =>
                         negb (Remote.name item =? ".")%string
                         && negb (Remote.name item =? "..")%string) items))
  end.

Definition search (root : Node) (basePath relativePath query : string)
  : option (list AdminFile) :=
  match listFiles root basePath relativePath with
  | None => None
  | Some files =>
      let lowerQuery := Js.toLowerCase query in
      Some (filter (fun file => Js.includes (Js.toLowerCase (name file)) lowerQuery)
              files)
  end.

End AdminStorageClient.

(** A sample remote tree: a match for "demo" right under the admin root and
    another three directories down. *)
Module Sample.

Import Remote.

Definition admin_files : Node :=
  Dir 4096
    [("demo.wav", File 100);
     ("2024", Dir 4096
        [("masters", Dir 4096
            [("club", Dir 4096
                [("Demo-Final.wav", File 200);
                 ("notes.txt", File 3)])])]);
     ("press", Dir 4096 [("logo.png", File 50)])].

Definition root : Node :=
  Dir 4096
    [("etc", Dir 4096 [("passwd", File 1)]);
     ("home", Dir 4096
        [("etc", Dir 4096 [("passwd", File 2)]);
         ("faji2535", Dir 4096 [("admin-files", admin_files)])])].

End Sample.

(** ** The catalogue text store ([catalogue-routes.js]) *)

Module Catalogue.

Definition dq : string := String (ascii_of_nat 34) "".
Definition nl : string := String (ascii_of_nat 10) "".
Definition backslash : string := String (ascii_of_nat 92) "".

Definition is_dq (c : ascii) : bool := Ascii.eqb c (ascii_of_nat 34).
Definition is_lf (c : ascii) : bool := Ascii.eqb c (ascii_of_nat 10).
Definition is_cr (c : ascii) : bool := Ascii.eqb c (ascii_of_nat 13).
Definition is_backslash (c : ascii) : bool := Ascii.eqb c (ascii_of_nat 92).

(** [s.replace(/c/g, rep)] for a pattern of one character. *)
Fixpoint replace_all (p : ascii -> bool) (rep : string) (s : string) : string :=
  match s with
  | EmptyString => EmptyString
  | String c rest =>
      if p c then rep ++ replace_all p rep rest
      else String c (replace_all p rep rest)
  end.

(** A number in a template literal: the identifiers are natural numbers,
    written with their decimal digits.  This is what JavaScript writes for
    the integers below 2^53 ([CatalogueSpec.safe_id]); from 1e21 on it
    writes an exponent. *)
Definition number_to_string (n : N) : string :=
  NilEmpty.string_of_uint (N.to_uint n).

Definition quoted (s : string) : string := dq ++ s ++ dq.

Record Artist := {
  id : N;
  name : string;
  act : string;
  description : option string;
  style : list string;
  social : list (string * string);
  country : string;
  image_url : string;
  videos : option (list string)
}.

Record Release := {
  release_id : N;
  title : string;
  artist : string;
  type : string;
  releaseDate : string;
  catalogNumber : option string;
  coverUrl : string;
  bandcampUrl : string;
  bandcampId : string;
  release_description : option string;
  tracklist : option (list string)
}.

Definition or_empty (o : option string) : string :=
  match o with
  | Some s => s
  | None => ""
  end.

Definition artistToTS (a : Artist) : string :=
  let social_code :=
    Js.join ("," ++ nl)
      (map (fun kv => "      " ++ fst kv ++ ": " ++ quoted (snd kv))
         (filter (fun kv => negb (snd kv =? "")%string) (social a))) in
  let videos_code :=
    match videos a with
    | Some (v :: vs) =>
        nl ++ "    videos: [" ++ nl
        ++ Js.join ("," ++ nl) (map (fun v => "      " ++ quoted v) (v :: vs))
        ++ nl ++ "    ],"
    | _ => ""
    end in
  "  {" ++ nl
  ++ "    id: " ++ number_to_string (id a) ++ "," ++ nl
  ++ "    name: " ++ quoted (name a) ++ "," ++ nl
  ++ "    act: " ++ quoted (act a) ++ "," ++ nl
  ++ "    description: "
  ++ quoted (replace_all is_lf (backslash ++ "n")
               (replace_all is_dq (backslash ++ dq) (or_empty (description a))))
  ++ "," ++ nl
  ++ "    style: [" ++ Js.join ", " (map quoted (style a)) ++ "]," ++ nl
  ++ "    social: {" ++ nl
  ++ social_code ++ nl
  ++ "    }," ++ nl
  ++ "    country: " ++ quoted (country a) ++ "," ++ nl
  ++ "    image_url: " ++ quoted (image_url a) ++ "," ++ videos_code ++ nl
  ++ "  }".

Definition releaseToTS (r : Release) : string :=
  let code :=
    "  {" ++ nl
    ++ "    id: " ++ number_to_string (release_id r) ++ "," ++ nl
    ++ "    title: " ++ quoted (title r) ++ "," ++ nl
    ++ "    artist: " ++ quoted (artist r) ++ "," ++ nl
    ++ "    type: " ++ quoted (type r) ++ "," ++ nl
    ++ "    releaseDate: " ++ quoted (releaseDate r) ++ "," ++ nl
    ++ "    catalogNumber: " ++ quoted (or_empty (catalogNumber r)) ++ "," ++ nl
    ++ "    coverUrl: " ++ quoted (coverUrl r) ++ "," ++ nl
    ++ "    bandcampUrl: " ++ quoted (bandcampUrl r) ++ "," ++ nl
    ++ "    bandcampId: " ++ quoted (bandcampId r) ++ "," in
  let code :=
    match release_description r with
    | Some d =>
        if (d =? "")%string then code
        else code ++ nl ++ "    description: "
             ++ quoted (replace_all is_dq (backslash ++ dq) d) ++ ","
    | None => code
    end in
  let code :=
    match tracklist r with
    | Some (t :: ts) =>
        code ++ nl ++ "    tracklist: ["
        ++ Js.join ", " (map quoted (t :: ts)) ++ "],"
    | _ => code
    end in
  code ++ nl ++ "  }".

(** The text around the array in the two files. *)
Definition artists_header : string :=
  "import type { Artist } from " ++ quoted "../types/artist" ++ nl
  ++ "import { slugify } from " ++ quoted "../utils/slugify" ++ nl
  ++ nl
  ++ "const artistsData = [" ++ nl.

Definition artists_footer : string :=
  nl ++ "]

// Add slugs to all artists
export const artists: Artist[] = artistsData.map((artist) => ({
  ...artist,
  slug: slugify(artist.name),
  videos: artist.videos || [],
}))

// Helper functions
export function getArtistBySlug(slug: string): Artist | undefined {
  return artists.find((artist) => artist.slug === slug)
}

export function getArtistById(id: number): Artist | undefined {
  return artists.find((artist) => artist.id === id)
}

export function getAllStyles(): string[] {
  const styles = new Set<string>()
  artists.forEach((artist) => {
    artist.style.forEach((s) => styles.add(s))
  })
  return Array.from(styles).sort()
}

export function getAllCountries(): string[] {
  const countries = new Set<string>()
  artists.forEach((artist) => countries.add(artist.country))
  return Array.from(countries).sort()
}
".

Definition releases_header : string :=
  "import type { Release } from " ++ quoted "../types/release" ++ nl
  ++ nl
  ++ "export const releases: Release[] = [" ++ nl.

Definition releases_footer : string :=
  nl ++ "]

// Helper functions
export function getReleaseById(id: number): Release | undefined {
  return releases.find((release) => release.id === id)
}

export function getReleasesByArtist(artistName: string): Release[] {
  return releases.filter((release) => {
    const releaseLower = release.artist.toLowerCase()
    const titleLower = release.title.toLowerCase()
    const artistLower = artistName.toLowerCase()

    // Match if artist name is in the artist field or in the title
    return releaseLower.includes(artistLower) || titleLower.includes(artistLower)
  })
}

export function getReleasesByType(type: Release["
  ++ quoted "type" ++ "]): Release[] {
  return releases.filter((release) => release.type === type)
}

export function getReleasesByYear(year: string): Release[] {
  return releases.filter((release) => release.releaseDate.includes(year))
}
".

(** [writeArtistsFile] and [writeReleasesFile]: the content handed to
    [fs.writeFileSync], as the bytes of its UTF-8 encoding.  These are the
    bytes of the file when every text of the entities is well-formed
    ([Js.well_formed_text], [CatalogueSpec.unicode_artist],
    [CatalogueSpec.unicode_release]); a lone surrogate is written as
    U+FFFD. *)
Definition writeArtistsFile (artists : list Artist) : string :=
  artists_header ++ Js.join ("," ++ nl) (map artistToTS artists) ++ artists_footer.

Definition writeReleasesFile (releases : list Release) : string :=
  releases_header ++ Js.join ("," ++ nl) (map releaseToTS releases)
  ++ releases_footer.

(** *** Reading back

    [content.match(/prefix([\s\S]*?)\n\]/)]: the text between the first
    occurrence of the prefix and the first line break followed by a closing
    bracket after it. *)
Fixpoint after_first (pat s : string) : option string :=
  if String.prefix pat s then Some (Js.slice_from (String.length pat) s)
  else match s with
       | EmptyString => None
       | String _ rest => after_first pat rest
       end.

Fixpoint before_first (pat s : string) : option string :=
  if String.prefix pat s then Some EmptyString
  else match s with
       | EmptyString => None
       | String c rest =>
           match before_first pat rest with
           | Some b => Some (String c b)
           | None => None
           end
       end.

Definition match_group (prefix content : string) : option string :=
  match after_first prefix content with
  | Some rest => before_first (nl ++ "]") rest
  | None => None
  end.

(** The values an array literal of the two files evaluates to. *)
#[warnings="-register-all"]
Inductive Value :=
| VNumber (n : N)
| VString (s : string)
| VArray (items : list Value)
| VObject (props : list (string * Value)).

(** The result of [eval] on the fragment of JavaScript modelled here:
    arrays and objects of decimal numbers and double-quoted strings, with
    identifier keys and trailing commas.  [SyntaxError] is returned only
    where JavaScript raises one; text outside the fragment is
    [Unsupported]. *)
Inductive Eval (A : Type) : Type :=
| Evaluated (a : A)
| SyntaxError
| Unsupported.

Arguments Evaluated {A} a.
Arguments SyntaxError {A}.
Arguments Unsupported {A}.

Definition is_space (c : ascii) : bool :=
  Ascii.eqb c " " || Ascii.eqb c (ascii_of_nat 9) || is_lf c || is_cr c.

Definition is_digit (c : ascii) : bool :=
  let n := nat_of_ascii c in ((48 <=? n) && (n <=? 57))%nat.

Definition is_ident_start (c : ascii) : bool :=
  let n := nat_of_ascii c in
  (((65 <=? n) && (n <=? 90)) || ((97 <=? n) && (n <=? 122))
   || (n =? 95) || (n =? 36))%nat.

Definition is_ident_part (c : ascii) : bool := is_ident_start c || is_digit c.

Fixpoint skip_space (s : string) : string :=
  match s with
  | String c rest => if is_space c then skip_space rest else s
  | EmptyString => EmptyString
  end.

(** The longest prefix of characters satisfying [p], and the rest. *)
Fixpoint span (p : ascii -> bool) (s : string) : string * string :=
  match s with
  | String c rest =>
      if p c then let (taken, remain) := span p rest in (String c taken, remain)
      else (EmptyString, s)
  | EmptyString => (EmptyString, EmptyString)
  end.

(** The character a single-character escape stands for; [None] for the
    escapes remain out of the fragment (hexadecimal, Unicode and digits). *)
Definition unescape (c : ascii) : option string :=
  let n := nat_of_ascii c in
  if (n =? 110)%nat then Some nl
  else if (n =? 116)%nat then Some (String (ascii_of_nat 9) "")
  else if (n =? 114)%nat then Some (String (ascii_of_nat 13) "")
  else if (n =? 98)%nat then Some (String (ascii_of_nat 8) "")
  else if (n =? 102)%nat then Some (String (ascii_of_nat 12) "")
  else if (n =? 118)%nat then Some (String (ascii_of_nat 11) "")
  else if (n =? 10)%nat then Some ""
  else if ((n =? 120) || (n =? 117) || (n =? 13) || is_digit c)%nat then None
  else if (128 <=? n)%nat then None
  else Some (String c "").

(** A double-quoted string literal, read from just after its opening
    quote: its value and the text after its closing quote. *)
Fixpoint read_string (s : string) : Eval (string * string) :=
  match s with
  | EmptyString => SyntaxError
  | String c rest =>
      if is_dq c then Evaluated (EmptyString, rest)
      else if is_lf c || is_cr c then SyntaxError
      else if is_backslash c then
        match rest with
        | EmptyString => SyntaxError
        | String e rest' =>
            match unescape e with
            | None => Unsupported
            | Some chars =>
                match read_string rest' with
                | Evaluated (value, remain) => Evaluated (chars ++ value, remain)
                | failed => failed
                end
            end
        end
      else
        match read_string rest with
        | Evaluated (value, remain) => Evaluated (String c value, remain)
        | failed => failed
        end
  end.

(** A decimal literal.  A zero followed by more digits would be an octal
    literal, and a literal followed by a dot or a letter another kind of
    number: both are left out of the fragment. *)
Definition leading_zero (digits : string) : bool :=
  match digits with
  | String c (String _ _) => Ascii.eqb c "0"
  | _ => false
  end.

Definition read_number (s : string) : Eval (Value * string) :=
  let (digits, rest) := span is_digit s in
  if match rest with
     | String c _ => is_ident_part c || Ascii.eqb c "."
     | EmptyString => false
     end
  then Unsupported
  else if leading_zero digits then Unsupported
  else match NilEmpty.uint_of_string digits with
       | Some d => Evaluated (VNumber (N.of_uint d), rest)
       | None => Unsupported
       end.

(** [obj[key] = v] while an object literal is evaluated: a key already
    present keeps its place and takes the new value. *)
Fixpoint set_prop (key : string) (v : Value) (props : list (string * Value))
  : list (string * Value) :=
  match props with
  | [] => [(key, v)]
  | (k, old) :: rest =>
      if (k =? key)%string then (k, v) :: rest
      else (k, old) :: set_prop key v rest
  end.

(** What follows a complete element or property value. *)
Inductive Next :=
| Comma (rest : string)
| Close (rest : string)
| Broken
| Other.

Definition after_value (close : ascii) (s : string) : Next :=
  match skip_space s with
  | EmptyString => Broken
  | String c rest =>
      if Ascii.eqb c "," then Comma rest
      else if Ascii.eqb c close then Close rest
      else if is_dq c then Broken
      else Other
  end.

Fixpoint parse_value (fuel : nat) (s : string) : Eval (Value * string) :=
  match fuel with
  | O => Unsupported
  | S fuel' =>
      match skip_space s with
      | EmptyString => SyntaxError
      | String c rest =>
          if is_dq c then
            match read_string rest with
            | Evaluated (str, remain) => Evaluated (VString str, remain)
            | SyntaxError => SyntaxError
            | Unsupported => Unsupported
            end
          else if Ascii.eqb c "[" then parse_items fuel' rest []
          else if Ascii.eqb c "{" then parse_props fuel' rest []
          else if is_digit c then read_number (String c rest)
          else Unsupported
      end
  end

with parse_items (fuel : nat) (s : string) (seen : list Value)
  : Eval (Value * string) :=
  match fuel with
  | O => Unsupported
  | S fuel' =>
      match skip_space s with
      | EmptyString => SyntaxError
      | String c rest =>
          if Ascii.eqb c "]" then Evaluated (VArray (rev seen), rest)
          else
            match parse_value fuel' (String c rest) with
            | Evaluated (v, remain) =>
                match after_value "]" remain with
                | Comma tail1 => parse_items fuel' tail1 (v :: seen)
                | Close tail1 => Evaluated (VArray (rev (v :: seen)), tail1)
                | Broken => SyntaxError
                | Other => Unsupported
                end
            | failed => failed
            end
      end
  end

with parse_props (fuel : nat) (s : string) (seen : list (string * Value))
  : Eval (Value * string) :=
  match fuel with
  | O => Unsupported
  | S fuel' =>
      match skip_space s with
      | EmptyString => SyntaxError
      | String c rest =>
          if Ascii.eqb c "}" then Evaluated (VObject seen, rest)
          else if is_ident_start c then
            let (key, remain) := span is_ident_part (String c rest) in
            if (key =? "__proto__")%string then Unsupported
            else
              match skip_space remain with
              | String colon tail1 =>
                  if Ascii.eqb colon ":" then
                    match parse_value fuel' tail1 with
                    | Evaluated (v, tail2) =>
                        match after_value "}" tail2 with
                        | Comma more => parse_props fuel' more (set_prop key v seen)
                        | Close more => Evaluated (VObject (set_prop key v seen), more)
                        | Broken => SyntaxError
                        | Other => Unsupported
                        end
                    | failed => failed
                    end
                  else Unsupported
              | EmptyString => SyntaxError
              end
          else Unsupported
      end
  end.

(** [eval(text)] of an array literal. *)
Definition eval (text : string) : Eval Value :=
  match parse_value (2 * String.length text + 2) text with
  | Evaluated (v, rest) =>
      match skip_space rest with
      | EmptyString => Evaluated v
      | _ => Unsupported
      end
  | SyntaxError => SyntaxError
  | Unsupported => Unsupported
  end.

Inductive Parsed :=
| Entities (items : list Value)
| CouldNotParse
| EvalSyntaxError
| OutsideFragment.

Definition parseFile (prefix content : string) : Parsed :=
  match match_group prefix content with
  | None => CouldNotParse
  | Some group =>
      match eval ("[" ++ group ++ "]") with
      | Evaluated (VArray items) => Entities items
      | Evaluated _ => OutsideFragment
      | SyntaxError => EvalSyntaxError
      | Unsupported => OutsideFragment
      end
  end.

Definition parseArtistsFile (content : string) : Parsed :=
  parseFile "const artistsData = [" content.

Definition parseReleasesFile (content : string) : Parsed :=
  parseFile "export const releases: Release[] = [" content.

(** An entity in memory, as the value its literal should evaluate to: one
    property for each field that is present, in the order of the record. *)
Definition strings (l : list string) : Value := VArray (map VString l).

Definition artist_value (a : Artist) : Value :=
  VObject
    ([("id", VNumber (id a));
      ("name", VString (name a));
      ("act", VString (act a))]
     ++ match description a with
        | Some d => [("description", VString d)]
        | None => []
        end
     ++ [("style", strings (style a));
         ("social", VObject (map (fun kv => (fst kv, VString (snd kv))) (social a)));
         ("country", VString (country a));
         ("image_url", VString (image_url a))]
     ++ match videos a with
        | Some vs => [("videos", strings vs)]
        | None => []
        end)%list.

Definition release_value (r : Release) : Value :=
  VObject
    ([("id", VNumber (release_id r));
      ("title", VString (title r));
      ("artist", VString (artist r));
      ("type", VString (type r));
      ("releaseDate", VString (releaseDate r))]
     ++ match catalogNumber r with
        | Some c => [("catalogNumber", VString c)]
        | None => []
        end
     ++ [("coverUrl", VString (coverUrl r));
         ("bandcampUrl", VString (bandcampUrl r));
         ("bandcampId", VString (bandcampId r))]
     ++ match release_description r with
        | Some d => [("description", VString d)]
        | None => []
        end
     ++ match tracklist r with
        | Some ts => [("tracklist", strings ts)]
        | None => []
        end)%list.

(** Sample entities. *)
Definition sample_artist (desc : string) : Artist :=
  {| id := 7; name := "Kala"; act := "Live"; description := Some desc;
     style := ["psy"; "forest"]; social := [("instagram", "kala")];
     country := "FR"; image_url := "/img/kala.jpg"; videos := Some ["v1"; "v2"] |}.

Definition sample_release (name desc : string) : Release :=
  {| release_id := 3; title := name; artist := "Kala"; type := "EP";
     releaseDate := "2024-01-01"; catalogNumber := Some "TSR003";
     coverUrl := "/covers/3.jpg"; bandcampUrl := "https://example.org/3";
     bandcampId := "123"; release_description := Some desc;
     tracklist := Some ["One"; "Two"] |}.

(** Two lines of text, a text with a backslash followed by the letter n, and
    a title that ends in a double quote. *)
Definition two_lines : string := "first line" ++ nl ++ "second line".
Definition with_backslash : string := "C:" ++ backslash ++ "new".
Definition twelve_inch : string := "Remixes 12" ++ dq.
Definition quoted_word : string := "the " ++ dq ++ "forest" ++ dq ++ " set".

End Catalogue.

(** ** The catalogue round trip, as specified

    The entities that are read back as they were written, and the shape of
    the text the two write functions produce for them. *)

Module CatalogueSpec.

Import Catalogue.
Local Close Scope Z_scope.
Local Open Scope string_scope.

(** The characters a text may hold where the write functions escape nothing
    (every field but the description), where [artistToTS] escapes quotes and
    line breaks (its description), and where [releaseToTS] escapes quotes
    only (its description). *)
Definition text_char (c : ascii) : bool :=
  negb (is_dq c || is_backslash c || is_lf c || is_cr c).

Definition description_char (c : ascii) : bool :=
  negb (is_backslash c || is_cr c).

Definition line_char (c : ascii) : bool :=
  negb (is_backslash c || is_lf c || is_cr c).

Definition safe_text (s : string) : bool := Js.all_chars text_char s.

(** The keys of [social] are written bare: they have to be identifiers. *)
Definition identifier (s : string) : bool :=
  match s with
  | EmptyString => false
  | String c rest => is_ident_start c && Js.all_chars is_ident_part rest
  end.

Definition blank (s : string) : bool := Js.all_chars is_space s.

(** [.replace(/"/g, '\\"').replace(/\n/g, '\\n')] of [artistToTS]. *)
Definition escape (d : string) : string :=
  replace_all is_lf (backslash ++ "n") (replace_all is_dq (backslash ++ dq) d).

(** [text] is a literal of [v]: followed by any text, it is read as [v] and
    that text is what remains, with [need] steps of the reader or more. *)
Definition parses (need : nat) (text : string) (v : Value) : Prop :=
  forall f rest, need <= f -> parse_value f (text ++ rest) = Evaluated (v, rest).

(** *** The shape of the text of one entity *)

Definition entry_text (itemws : string) (kv : string * string) : string :=
  itemws ++ fst kv ++ ": " ++ quoted (snd kv).

Definition entry_value (kv : string * string) : string * Value :=
  (fst kv, VString (snd kv)).

(** One line [key: value,] of an entity, followed by [R]. *)
Definition prop (key vt R : string) : string :=
  (nl ++ "    ") ++ key ++ String ":" (vt ++ String "," R).

Definition style_text (l : list string) : string :=
  " [" ++ Js.join ", " (map quoted l) ++ "]".

Definition social_text (l : list (string * string)) : string :=
  " {" ++ nl ++ Js.join ("," ++ nl) (map (entry_text "      ") l) ++ nl ++ "    }".

Definition videos_text (l : list string) : string :=
  " [" ++ nl ++ Js.join ("," ++ nl) (map (fun v => "      " ++ quoted v) l)
  ++ nl ++ "    ]".

(** [.filter(([_, v]) => v)] of [artistToTS]. *)
Definition keep_social (l : list (string * string)) : list (string * string) :=
  filter (fun kv => negb (snd kv =? "")) l.

Definition entities_code {A} (text : A -> string) (l : list A) : string :=
  Js.join ("," ++ nl) (map text l).

(** *** The entities that are read back as written *)

Definition well_formed_handle (kv : string * string) : bool :=
  identifier (fst kv) && negb (fst kv =? "__proto__")
  && safe_text (snd kv) && negb (snd kv =? "").

(** An artist with a description, no empty handle, no key of [social] twice
    and, where it has videos, at least one. *)
Definition well_formed_artist (a : Artist) : bool :=
  safe_text (name a) && safe_text (act a)
  && match description a with
     | Some d => Js.all_chars description_char d
     | None => false
     end
  && forallb safe_text (style a)
  && forallb well_formed_handle (social a)
  && SearchSpec.distinct (map fst (social a))
  && safe_text (country a) && safe_text (image_url a)
  && match videos a with
     | Some [] => false
     | Some vs => forallb safe_text vs
     | None => true
     end.

(** A release with a catalogue number and, where it has them, a description
    that is not empty and at least one track. *)
Definition well_formed_release (r : Release) : bool :=
  safe_text (title r) && safe_text (artist r) && safe_text (type r)
  && safe_text (releaseDate r)
  && match catalogNumber r with
     | Some c => safe_text c
     | None => false
     end
  && safe_text (coverUrl r) && safe_text (bandcampUrl r)
  && safe_text (bandcampId r)
  && match release_description r with
     | Some d => negb (d =? "") && Js.all_chars line_char d
     | None => true
     end
  && match tracklist r with
     | Some [] => false
     | Some ts => forallb safe_text ts
     | None => true
     end.

(** Steps of the reader that are enough for the text of one entity. *)
Definition artist_need (a : Artist) : nat :=
  16 + List.length (style a) + List.length (social a)
  + match videos a with Some vs => List.length vs | None => 0 end.

Definition release_need (r : Release) : nat :=
  20 + match tracklist r with Some ts => List.length ts | None => 0 end.

(** *** Where the match of the regular expression ends *)

Definition not_bracket (c : ascii) : bool := negb (Ascii.eqb c "]").

Definition first_ok (s : string) (after : bool) : bool :=
  match s with
  | EmptyString => after
  | String d _ => not_bracket d
  end.

(** No line break of [s] is followed by a closing bracket; [after] tells
    whether the character that follows [s] is something else. *)
Fixpoint lf_ok (s : string) (after : bool) : bool :=
  match s with
  | EmptyString => true
  | String c rest => (if is_lf c then first_ok rest after else true) && lf_ok rest after
  end.

Definition no_lf (s : string) : bool := Js.all_chars (fun c => negb (is_lf c)) s.

(** *** Entities outside of them *)

Definition plain_artist : Artist := sample_artist "live act".

(** A name that ends in a double quote. *)
Definition quoted_name : Artist :=
  {| id := id plain_artist; name := "Kala 7" ++ dq;
     act := act plain_artist; description := description plain_artist;
     style := style plain_artist; social := social plain_artist;
     country := country plain_artist; image_url := image_url plain_artist;
     videos := videos plain_artist |}.

(** No description. *)
Definition undescribed : Artist :=
  {| id := id plain_artist; name := name plain_artist;
     act := act plain_artist; description := None;
     style := style plain_artist; social := social plain_artist;
     country := country plain_artist; image_url := image_url plain_artist;
     videos := videos plain_artist |}.

(** A handle left empty. *)
Definition empty_handle : Artist :=
  {| id := id plain_artist; name := name plain_artist;
     act := act plain_artist; description := description plain_artist;
     style := style plain_artist;
     social := [("instagram", "kala"); ("soundcloud", EmptyString)];
     country := country plain_artist; image_url := image_url plain_artist;
     videos := videos plain_artist |}.

(** An empty list of videos. *)
Definition no_videos : Artist :=
  {| id := id plain_artist; name := name plain_artist;
     act := act plain_artist; description := description plain_artist;
     style := style plain_artist; social := social plain_artist;
     country := country plain_artist; image_url := image_url plain_artist;
     videos := Some [] |}.

(** A release without a catalogue number. *)
Definition uncatalogued : Release :=
  {| release_id := 3; title := "Roots"; artist := "Kala"; type := "EP";
     releaseDate := "2024-01-01"; catalogNumber := None;
     coverUrl := "/covers/3.jpg"; bandcampUrl := "https://example.org/3";
     bandcampId := "123"; release_description := Some "first";
     tracklist := Some ["One"; "Two"] |}.

(** A release with an empty track list. *)
Definition no_tracks : Release :=
  {| release_id := 3; title := "Roots"; artist := "Kala"; type := "EP";
     releaseDate := "2024-01-01"; catalogNumber := Some "TSR003";
     coverUrl := "/covers/3.jpg"; bandcampUrl := "https://example.org/3";
     bandcampId := "123"; release_description := Some "first";
     tracklist := Some [] |}.

(** *** Texts and identifiers of JavaScript

    The entities all of whose texts are well-formed, and the identifiers
    that are written and read back as the integers they are: those below
    2^53. *)
Definition optional_text (o : option string) : bool :=
  match o with
  | Some s => Js.well_formed_text s
  | None => true
  end.

Definition optional_texts (o : option (list string)) : bool :=
  match o with
  | Some l => forallb Js.well_formed_text l
  | None => true
  end.

Definition unicode_artist (a : Artist) : bool :=
  Js.well_formed_text (name a) && Js.well_formed_text (act a)
  && optional_text (description a)
  && forallb Js.well_formed_text (style a)
  && forallb (fun kv => Js.well_formed_text (fst kv) && Js.well_formed_text (snd kv))
       (social a)
  && Js.well_formed_text (country a) && Js.well_formed_text (image_url a)
  && optional_texts (videos a).

Definition unicode_release (r : Release) : bool :=
  Js.well_formed_text (title r) && Js.well_formed_text (artist r)
  && Js.well_formed_text (type r) && Js.well_formed_text (releaseDate r)
  && optional_text (catalogNumber r)
  && Js.well_formed_text (coverUrl r) && Js.well_formed_text (bandcampUrl r)
  && Js.well_formed_text (bandcampId r)
  && optional_text (release_description r)
  && optional_texts (tracklist r).

Definition safe_id (n : N) : bool := (n <? 2 ^ 53)%N.

End CatalogueSpec.

(** ** The routes

    The handlers of [share-routes.ts], the content type of the stream route
    of [admin-storage.ts] and the handlers of [catalogue-routes.js], as
    functions from a request to the answer and to what they leave behind. *)

Module ShareRoutes.

Import ShareLinks.
Local Open Scope async_scope.

(** What [verifyAdminUser] learns from the auth provider and from the
    [profiles] table: the user an access token belongs to ([None]: an error
    or no user), and the roles of the profile rows with a user's id
    ([None]: no data). *)
Record Auth := {
  getUser : string -> option string;
  profiles : string -> option (list string)
}.

Definition verifyAdminUser (auth : Auth) (authHeader : option string)
  : option string :=
  match authHeader with
  | None => None
  | Some header =>
      if negb (Js.truthy_string (Some header))
         || negb (Js.startsWith header "Bearer ")
      then None
      else
        let token := Js.slice_from 7 header in
        match getUser auth token with
        | None => None
        | Some user =>
            match profiles auth user with
            | Some (role :: _) =>
                if negb (role =? "admin")%string then None else Some user
            | _ => None
            end
        end
  end.

(** [encodeURIComponent] on the bytes of a string: letters, digits and
    [- _ . ! ~ * ' ( )] stand for themselves, every other byte is written
    as a percent sign and two upper-case hexadecimal digits. *)
Definition unreserved (c : ascii) : bool :=
  let n := nat_of_ascii c in
  ((65 <=? n) && (n <=? 90) || (97 <=? n) && (n <=? 122)
   || (48 <=? n) && (n <=? 57)
   || existsb (Nat.eqb n) [45; 95; 46; 33; 126; 42; 39; 40; 41])%nat.

Definition upper_hex_digit (n : nat) : ascii :=
  match String.get n "0123456789ABCDEF" with
  | Some c => c
  | None => "0"%char
  end.

Definition percent_encoded (c : ascii) : string :=
  let n := nat_of_ascii c in
  String "%" (String (upper_hex_digit (n / 16))
                (String (upper_hex_digit (n mod 16)) ""))%nat.

Fixpoint encodeURIComponent (s : string) : string :=
  match s with
  | EmptyString => EmptyString
  | String c rest =>
      (if unreserved c then String c "" else percent_encoded c)
      ++ encodeURIComponent rest
  end.

Definition dq : string := String (ascii_of_nat 34) "".

(** The bodies the routes answer with, and the headers of a download. *)
Record FileInfo := {
  name : string;
  size : Z;
  requiresPassword : bool;
  expiresAt : option Z;
  maxDownloads : option Z;
  downloadCount : Z;
  isActive : bool
}.

Inductive Body :=
| Error (error : string)
| ShareLinkCreated (shareLink : ShareLink) (url : string)
| ShareLinks (shareLinks : list (ShareLink * string))
| Message (message : string)
| File (file : FileInfo)
| Download (contentDisposition : string) (contentLength : nat) (content : list byte).

Record Response := {
  status : nat;
  body : Body
}.

Definition json (b : Body) : Response := {| status := 200; body := b |}.
Definition status_json (code : nat) (b : Body) : Response :=
  {| status := code; body := b |}.

(** [try { .. } catch (error) { res.status(500).json({ error: msg }) }]. *)
Definition try_catch (handler : Async Response) (msg : string) : Async Response :=
  fun w =>
    match handler w with
    | (Throws _, w') => (Returns (status_json 500 (Error msg)), w')
    | answered => answered
    end.

(** [process.env.VITE_APP_URL || 'http://localhost:5173']. *)
Definition baseUrl (app_url : option string) : string :=
  match app_url with
  | Some u => if Js.truthy_string (Some u) then u else "http://localhost:5173"
  | None => "http://localhost:5173"
  end.

Definition shareUrl (app_url : option string) (link : ShareLink) : string :=
  baseUrl app_url ++ "/shared/" ++ token link.

Record CreateRequest := {
  req_filePath : option string;
  req_fileName : option string;
  req_fileSize : option Z;
  req_expiresIn : option Z;
  req_password : option string;
  req_maxDownloads : option Z
}.

Section Routes.

Context `{Bcrypt} (auth : Auth) (app_url : option string) (fuel : nat).

(** [POST /api/share/create]. *)
Definition post_create (authorization : option string) (req : CreateRequest)
  : Async Response :=
  try_catch
    (match verifyAdminUser auth authorization with
     | None => ret (status_json 401 (Error "Unauthorized"))
     | Some user =>
         match req_filePath req, req_fileName req, req_fileSize req with
         | Some filePath, Some fileName, Some fileSize =>
             if negb (Js.truthy_string (Some filePath))
                || negb (Js.truthy_string (Some fileName))
                || negb (Js.truthy_number (Some fileSize))
             then ret (status_json 400 (Error "Missing required fields"))
             else
               shareLink <- createShareLink fuel
                              {| filePath := filePath; fileName := fileName;
                                 fileSize := fileSize; createdBy := user;
                                 expiresIn := req_expiresIn req;
                                 password := req_password req;
                                 ShareLinks.maxDownloads := req_maxDownloads req |} ;;
               ret (json (ShareLinkCreated shareLink (shareUrl app_url shareLink)))
         | _, _, _ => ret (status_json 400 (Error "Missing required fields"))
         end
     end)
    "Failed to create share link".

(** [GET /api/share/list]. *)
Definition get_list (authorization : option string) : Async Response :=
  try_catch
    (match verifyAdminUser auth authorization with
     | None => ret (status_json 401 (Error "Unauthorized"))
     | Some user =>
         shareLinks <- getUserShareLinks user ;;
         ret (json (ShareLinks
                      (map (fun link => (link, shareUrl app_url link)) shareLinks)))
     end)
    "Failed to get share links".

(** [PATCH /api/share/:id/deactivate]. *)
Definition patch_deactivate (authorization : option string) (id : nat) : Async Response :=
  try_catch
    (match verifyAdminUser auth authorization with
     | None => ret (status_json 401 (Error "Unauthorized"))
     | Some user =>
         deactivateShareLink id user ;;
         ret (json (Message "Share link deactivated"))
     end)
    "Failed to deactivate share link".

(** [DELETE /api/share/:id]. *)
Definition delete_link (authorization : option string) (id : nat) : Async Response :=
  try_catch
    (match verifyAdminUser auth authorization with
     | None => ret (status_json 401 (Error "Unauthorized"))
     | Some user =>
         deleteShareLink id user ;;
         ret (json (Message "Share link deleted"))
     end)
    "Failed to delete share link".

(** [GET /api/shared/:token]. *)
Definition get_info (token : string) : Async Response :=
  try_catch
    (link <- getShareLink token ;;
     match link with
     | None => ret (status_json 404 (Error "Share link not found"))
     | Some link =>
         ret (json (File {| name := file_name link;
                            size := file_size link;
                            requiresPassword := Js.truthy_string (password_hash link);
                            expiresAt := expires_at link;
                            maxDownloads := max_downloads link;
                            downloadCount := download_count link;
                            isActive := is_active link |}))
     end)
    "Failed to get file information".

(** [POST /api/shared/:token/download].  [get] is what the storage client's
    [client.get(fullPath)] answers ([None]: it throws), [adminBasePath] the
    admin root of [downloadAdminFile]. *)
Definition post_download (adminBasePath : string) (get : string -> option (list byte))
    (token : string) (password : option string) : Async Response :=
  try_catch
    (validation <- validateShareLink token password ;;
     match validation with
     | Invalid reason =>
         ret (status_json 403
                (Error (if Js.truthy_string (Some reason) then reason
                        else "Access denied")))
     | Valid link =>
         match get (O2SwitchStorage.downloadAdminFile_path adminBasePath
                      (file_path link)) with
         | None => throw "download failed"
         | Some fileBuffer =>
             incrementDownloadCount token ;;
             ret (json (Download
                          ("attachment; filename=" ++ dq
                           ++ encodeURIComponent (file_name link) ++ dq)
                          (List.length fileBuffer) fileBuffer))
         end
     end)
    "Failed to download file".

End Routes.

(** An auth provider that knows two administrators. *)
Definition sample_auth : Auth :=
  {| getUser := fun token =>
       if (token =? "t0k3n-alice")%string then Some "alice"
       else if (token =? "t0k3n-mallory")%string then Some "mallory"
       else None;
     profiles := fun user => Some ["admin"] |}.

End ShareRoutes.

Module AdminStorageRoutes.

Local Close Scope Z_scope.
Local Open Scope string_scope.

(** [s.split(sep)] for a separator of one character, and [.pop()]. *)
Fixpoint split (sep : ascii) (s : string) : list string :=
  match s with
  | EmptyString => [""]
  | String c rest =>
      if Ascii.eqb c sep then "" :: split sep rest
      else match split sep rest with
           | seg :: more => String c seg :: more
           | [] => [String c ""]
           end
  end.

Definition pop (l : list string) : option string :=
  match rev l with
  | x :: _ => Some x
  | [] => None
  end.

(** [x || fallback] on the result of [pop]. *)
Definition or_else (o : option string) (fallback : string) : string :=
  match o with
  | Some s => if Js.truthy_string (Some s) then s else fallback
  | None => fallback
  end.

(** The [Content-Type] the stream route picks from the extension. *)
Definition mime_of_extension (ext : string) : string :=
  if existsb (String.eqb ext) ["mp3"; "m4a"; "aac"] then "audio/mpeg"
  else if existsb (String.eqb ext) ["wav"] then "audio/wav"
  else if existsb (String.eqb ext) ["ogg"] then "audio/ogg"
  else if existsb (String.eqb ext) ["mp4"] then "video/mp4"
  else if existsb (String.eqb ext) ["webm"] then "video/webm"
  else if existsb (String.eqb ext) ["png"] then "image/png"
  else if existsb (String.eqb ext) ["jpg"; "jpeg"] then "image/jpeg"
  else if existsb (String.eqb ext) ["gif"] then "image/gif"
  else if existsb (String.eqb ext) ["webp"] then "image/webp"
  else "application/octet-stream".

Definition stream_mime_type (path : string) : string :=
  let filename := or_else (pop (split "/" path)) "file" in
  let ext := or_else (pop (split "." (Js.toLowerCase filename))) "" in
  mime_of_extension ext.

(** A text without the given character. *)
Definition without (sep : ascii) (s : string) : bool :=
  Js.all_chars (fun c => negb (Ascii.eqb c sep)) s.

(** [s.replace(/\/+/g, '/')]: of the separators that follow one another,
    the last one is kept. *)
Fixpoint collapse_slashes (s : string) : string :=
  match s with
  | EmptyString => EmptyString
  | String c rest =>
      if Ascii.eqb c "/" && Js.startsWith rest "/" then collapse_slashes rest
      else String c (collapse_slashes rest)
  end.

(** The [remotePath] of the upload and create-folder routes of
    [admin-storage.ts], and the directory [createAdminDirectory] makes. *)
Definition admin_remotePath (path name : string) : string :=
  collapse_slashes (path ++ "/" ++ name).

Definition createAdminDirectory_path (adminBasePath relativePath : string) : string :=
  NodePath.join [adminBasePath; relativePath].

(** The segments other than the empty one. *)
Definition named (seg : string) : bool := negb (seg =? "").

End AdminStorageRoutes.

Module Upload.

Import AdminStorageRoutes.
Local Close Scope Z_scope.
Local Open Scope string_scope.

(** The digits of a number written in base 36. *)
Definition base36 (c : ascii) : bool :=
  let n := nat_of_ascii c in
  ((48 <=? n) && (n <=? 57) || (97 <=? n) && (n <=? 122))%nat.

(** [generateUniqueFilename] of [index.js].  [timestamp] is the value of
    [Date.now()], a number of milliseconds, and [random36] the value of
    [Math.random().toString(36)]; [substring(2, 15)] keeps the thirteen
    characters from the third one on. *)
Definition generateUniqueFilename (timestamp : N) (random36 originalFilename : string)
  : string :=
  let random := String.substring 2 13 random36 in
  let extension :=
    match pop (split "." originalFilename) with
    | Some e => e
    | None => "undefined"
    end in
  Catalogue.number_to_string timestamp ++ "_" ++ random ++ "." ++ extension.

(** [uploadFile] of [O2SwitchStorage]: the remote path the buffer is put at
    and the text that is returned.  [adminBasePath], [basePath] and
    [publicBase] are the values of [ADMIN_STORAGE_PATH] (or its default),
    [O2SWITCH_BASE_PATH] and [O2SWITCH_PUBLIC_URL]. *)
Definition uploadFile_remotePath (adminBasePath basePath type filename : string)
  : string :=
  if type =? "admin" then NodePath.join [adminBasePath; filename]
  else NodePath.join [basePath; type; filename].

Definition uploadFile (adminBasePath basePath publicBase type filename : string)
  : string :=
  let remotePath := uploadFile_remotePath adminBasePath basePath type filename in
  let publicUrl :=
    if type =? "admin" then None
    else Some (publicBase ++ "/" ++ type ++ "/" ++ filename) in
  or_else publicUrl remotePath.

End Upload.

Module CatalogueRoutes.

Import Catalogue.
Local Close Scope Z_scope.
Local Open Scope string_scope.

(** What [verifyAdmin] learns from the auth provider and from the
    [profiles] table: the user of an access token ([None]: an error or no
    user) and the role on the user's profile row ([None]: no such row). *)
Record Auth := {
  getUser : string -> option string;
  profile_role : string -> option string
}.

Definition verifyAdmin (auth : Auth) (authHeader : option string) : bool :=
  match authHeader with
  | None => false
  | Some header =>
      if negb (Js.truthy_string (Some header))
         || negb (Js.startsWith header "Bearer ")
      then false
      else
        match getUser auth (Js.slice_from 7 header) with
        | None => false
        | Some user =>
            match profile_role auth user with
            | Some role => role =? "admin"
            | None => false
            end
        end
  end.


















(** What a route answers, and the data file it leaves; [OutsideModel] when
    the file or the request is outside of what is modelled here. *)
Inductive Body :=
| Error (error : string)
| Entities (entities : list Value)
| ArtistAdded (artist : Artist)
| ReleaseAdded (release : Release)
| Success.

Record Response := {
  status : nat;
  body : Body
}.

Inductive Outcome :=
| Answered (response : Response) (file : string)
| OutsideModel.

Definition json (b : Body) : Response := {| status := 200; body := b |}.
Definition status_json (code : nat) (b : Body) : Response :=
  {| status := code; body := b |}.

Section Routes.

Context (auth : Auth).


(** [GET /api/catalogue/artists]. *)
Definition get_artists (authorization : option string) (file : string) : Outcome :=
  if negb (verifyAdmin auth authorization)
  then Answered (status_json 401 (Error "Unauthorized")) file
  else
    match parseArtistsFile file with
    | Catalogue.Entities values => Answered (json (Entities values)) file
    | CouldNotParse | EvalSyntaxError =>
        Answered (status_json 500 (Error "Failed to read artists")) file
    | OutsideFragment => OutsideModel
    end.






End Routes.

(** An auth provider that knows one administrator. *)
Definition sample_auth : Auth :=
  {| getUser := fun token => if token =? "t0k3n" then Some "alice" else None;
     profile_role := fun user => if user =? "alice" then Some "admin" else None |}.




End CatalogueRoutes.

(** * Properties *)

(** ** Hexadecimal encoding *)

Module JsFacts.

Import Js.

Lemma length_append (s t : string) :
  String.length (s ++ t) = (String.length s + String.length t)%nat.
Proof. induction s as [|c s IH]; simpl; [reflexivity | now rewrite IH]. Qed.

Lemma all_chars_append p (s t : string) :
  all_chars p (s ++ t) = all_chars p s && all_chars p t.
Proof.
  induction s as [|c s IH]; simpl; [reflexivity|].
  now rewrite IH, andb_assoc.
Qed.

Lemma hex_of_byte_length b : String.length (hex_of_byte b) = 2%nat.
Proof. reflexivity. Qed.

Lemma hex_of_byte_hex b : all_chars is_hex_char (hex_of_byte b) = true.
Proof. destruct b; vm_compute; reflexivity. Qed.

Lemma toString_hex_length bs :
  String.length (toString_hex bs) = (2 * List.length bs)%nat.
Proof.
  induction bs as [|b bs IH]; [reflexivity|].
  cbn [toString_hex List.length]. rewrite length_append, hex_of_byte_length, IH. lia.
Qed.

Lemma toString_hex_hex bs : all_chars is_hex_char (toString_hex bs) = true.
Proof.
  induction bs as [|b bs IH]; [reflexivity|].
  cbn [toString_hex]. now rewrite all_chars_append, hex_of_byte_hex, IH.
Qed.

End JsFacts.

(** ** The share-link service *)

Module ShareLinkFacts.

Import ShareLinks.
Local Open Scope async_scope.

(** *** Queries against a store that answers *)

Lemma query_fails_healthy w :
  faults w = [] -> query_fails w = (Returns false, w).
Proof. unfold query_fails. now intros ->. Qed.

Lemma select_by_token_single_healthy t w :
  faults w = [] ->
  select_by_token_single t w
  = (Returns (single (filter (has_token t) (rows w))), w).
Proof.
  intros Hf. unfold select_by_token_single, bind.
  now rewrite (query_fails_healthy w Hf).
Qed.

Lemma has_token_true t l : has_token t l = true <-> token l = t.
Proof. unfold has_token. apply String.eqb_eq. Qed.

Lemma has_token_false t l : has_token t l = false <-> token l <> t.
Proof. unfold has_token. apply String.eqb_neq. Qed.

Lemma filter_token_absent t rs :
  ~ In t (map token rs) -> filter (has_token t) rs = [].
Proof.
  induction rs as [|a rs IH]; simpl; intros Hn; [reflexivity|].
  destruct (has_token t a) eqn:E.
  - apply has_token_true in E. tauto.
  - apply IH. tauto.
Qed.

Lemma filter_token_present t rs :
  NoDup (map token rs) -> In t (map token rs) ->
  exists l, filter (has_token t) rs = [l] /\ In l rs /\ token l = t.
Proof.
  induction rs as [|a rs IH]; simpl; intros Hnd Hin; [contradiction|].
  inversion Hnd as [|x xs Hx Hnd']; subst.
  destruct (has_token t a) eqn:E.
  - apply has_token_true in E. subst t.
    exists a. rewrite (filter_token_absent _ _ Hx). auto.
  - apply has_token_false in E.
    destruct Hin as [Hin|Hin]; [contradiction|].
    destruct (IH Hnd' Hin) as (l & Hl & Hl' & Ht).
    exists l. auto.
Qed.

Lemma filter_token_new t rs l :
  ~ In t (map token rs) -> token l = t ->
  filter (has_token t) (rs ++ [l]) = [l].
Proof.
  intros Hn Ht. rewrite filter_app, (filter_token_absent _ _ Hn). simpl.
  now rewrite (proj2 (has_token_true t l) Ht).
Qed.

(** *** The token loop *)

Lemma generateShareToken_run w j w0 :
  entropy w = entropy w0 -> drawn w = (drawn w0 + 16 * j)%nat ->
  generateShareToken w = (Returns (draw w0 j), with_drawn (drawn w0 + 16 * S j) w).
Proof.
  intros He Hd. unfold generateShareToken, bind, randomBytes, ret, draw.
  rewrite He, Hd. do 2 f_equal. lia.
Qed.

Lemma unique_token_run w0 :
  faults w0 = [] -> NoDup (tokens w0) ->
  forall n fuel j,
    (n < fuel)%nat ->
    (forall i, (j <= i < j + n)%nat -> In (draw w0 i) (tokens w0)) ->
    ~ In (draw w0 (j + n)) (tokens w0) ->
    unique_token fuel (draw w0 j) (with_drawn (drawn w0 + 16 * S j) w0)
    = (Returns (draw w0 (j + n)), with_drawn (drawn w0 + 16 * S (j + n)) w0).
Proof.
  intros Hf Hnd. induction n as [|n IH]; intros fuel j Hlt Hused Hfresh.
  - destruct fuel as [|fuel]; [lia|]. rewrite Nat.add_0_r in *.
    cbn [unique_token]. unfold bind at 1.
    rewrite select_by_token_single_healthy by exact Hf.
    cbn [rows with_drawn]. fold (tokens w0) in *.
    now rewrite (filter_token_absent _ _ Hfresh).
  - destruct fuel as [|fuel]; [lia|].
    cbn [unique_token]. unfold bind at 1.
    rewrite select_by_token_single_healthy by exact Hf.
    cbn [rows with_drawn].
    destruct (filter_token_present (draw w0 j) (rows w0) Hnd) as (l & Hl & _).
    { apply Hused. lia. }
    rewrite Hl. cbn [single]. unfold bind at 1.
    rewrite (generateShareToken_run _ (S j) w0) by (cbn; lia || reflexivity).
    replace (with_drawn (drawn w0 + 16 * S (S j))
               (with_drawn (drawn w0 + 16 * S j) w0))
      with (with_drawn (drawn w0 + 16 * S (S j)) w0) by reflexivity.
    rewrite (IH fuel (S j)).
    + now replace (S j + n)%nat with (j + S n)%nat by lia.
    + lia.
    + intros i Hi. apply Hused. lia.
    + now replace (S j + n)%nat with (j + S n)%nat by lia.
Qed.

(** *** Creation *)

Lemma createShareLink_run `{Bcrypt} fuel options w k :
  faults w = [] -> NoDup (tokens w) -> first_fresh w k -> (k < fuel)%nat ->
  createShareLink fuel options w
  = (Returns (new_link options w k), after_create options w k).
Proof.
  intros Hf Hnd [Hused Hfresh] Hk.
  unfold createShareLink. unfold bind at 1.
  rewrite (generateShareToken_run w 0 w) by (reflexivity || lia).
  unfold bind at 1.
  pose proof (unique_token_run w Hf Hnd k fuel 0%nat Hk) as Hrun.
  cbn [Nat.add] in Hrun.
  rewrite Hrun; [|intros i Hi; apply Hused; lia|exact Hfresh].
  unfold after_create, new_link, Js.or_null, Js.truthy_number, Js.truthy_string.
  destruct options as [fp fn fs cb ei pw md]. cbn [filePath fileName fileSize
    createdBy expiresIn password maxDownloads].
  destruct ei as [e|]; [destruct (e =? 0)|];
    (destruct pw as [p|]; [destruct (p =? "")%string|]);
    (destruct md as [m|]; [destruct (m =? 0)|]);
    cbn [negb]; unfold bind, ret, Date_now, hashPassword, insert_select_single,
      bind, query_fails, ret; cbn -[draw Z.add Nat.mul Nat.add]; rewrite ?Hf;
    reflexivity.
Qed.

(** *** Validation *)

Lemma getShareLink_returns token w :
  exists found, fst (getShareLink token w) = Returns found
                /\ clock (snd (getShareLink token w)) = clock w.
Proof.
  unfold getShareLink, select_by_token_single, bind, query_fails, ret.
  destruct (faults w) as [|[|] fs]; cbn; eauto.
Qed.

Lemma validateShareLink_unfold `{Bcrypt} token password w :
  fst (validateShareLink token password w)
  = match fst (getShareLink token w) with
    | Returns None => Returns (Invalid "Link not found")
    | Returns (Some link) =>
        if negb (is_active link) then Returns (Invalid "Link has been deactivated")
        else if match expires_at link with Some e => e <? clock w | None => false end
        then Returns (Invalid "Link has expired")
        else if match max_downloads link with
                | Some m => m <=? download_count link
                | None => false
                end
        then Returns (Invalid "Download limit reached")
        else match password_hash link with
             | Some h =>
                 if (h =? "")%string then Returns (Valid link)
                 else match password with
                      | Some p =>
                          if (p =? "")%string
                          then Returns (Invalid "Password required")
                          else if bcrypt_compare p h then Returns (Valid link)
                               else Returns (Invalid "Invalid password")
                      | None => Returns (Invalid "Password required")
                      end
             | None => Returns (Valid link)
             end
    | Throws msg => Throws msg
    | Diverges => Diverges
    end.
Proof.
  destruct (getShareLink_returns token w) as (found & Hfound & Hclock).
  unfold validateShareLink, bind.
  destruct (getShareLink token w) as [o w']. cbn [fst snd] in *. subst o.
  destruct found as [link|]; [|reflexivity].
  destruct (is_active link); cbn [negb]; [|reflexivity].
  unfold Date_now, ret, verifyPassword, Js.truthy_string. rewrite Hclock.
  destruct (expires_at link) as [e|]; [destruct (e <? clock w)|];
    (destruct (max_downloads link) as [m|]; [destruct (m <=? download_count link)|]);
    try reflexivity;
    (destruct (password_hash link) as [h|]; [destruct (h =? "")%string|]);
    cbn [negb]; try reflexivity;
    (destruct password as [p|]; [destruct (p =? "")%string|]);
    cbn [negb fst]; try reflexivity;
    destruct (bcrypt_compare p h); reflexivity.
Qed.

Lemma token_injective rs x y :
  NoDup (map token rs) -> In x rs -> In y rs -> token x = token y -> x = y.
Proof.
  induction rs as [|r rs IH]; [contradiction|]. cbn.
  intros Hnd [<-|Hx] [<-|Hy] Heq; inversion Hnd as [|? ? Hnot Hnd']; subst.
  - reflexivity.
  - exfalso. apply Hnot. rewrite Heq. now apply in_map.
  - exfalso. apply Hnot. rewrite <- Heq. now apply in_map.
  - now apply IH.
Qed.

Lemma query_fails_upcoming w :
  exists w', query_fails w = (Returns (upcoming w 0), w')
             /\ rows w' = rows w /\ clock w' = clock w
             /\ upcoming w' 0 = upcoming w 1.
Proof.
  unfold query_fails, upcoming. destruct (faults w) as [|f fs] eqn:E.
  - exists w. rewrite E. cbn. repeat split.
  - exists (with_faults fs w). cbn. repeat split.
Qed.

(** *** The admin client *)

Lemma in_env_configured {A} env (f : Async A) w :
  configured env -> in_env env f w = f w.
Proof.
  intros [(url & Hu & Hune) (key & Hk & Hkne)].
  unfold in_env, getSupabaseAdminClient, bind, Js.truthy_string.
  rewrite Hu, Hk.
  destruct (String.eqb_spec url ""); [contradiction|].
  destruct (String.eqb_spec key ""); [contradiction|].
  cbn. now destruct (f w) as [[a| |] w'].
Qed.

Lemma in_env_unset {A} env (f : Async A) w :
  Js.truthy_string (VITE_SUPABASE_URL env) = false
  \/ Js.truthy_string (SUPABASE_SERVICE_KEY env) = false ->
  in_env env f w = (Throws "Supabase admin credentials not configured", w).
Proof.
  intros Hunset. unfold in_env, getSupabaseAdminClient, bind.
  destruct Hunset as [-> | ->]; cbn [negb orb]; [reflexivity|].
  now rewrite orb_true_r.
Qed.

Lemma not_configured env :
  ~ configured env ->
  Js.truthy_string (VITE_SUPABASE_URL env) = false
  \/ Js.truthy_string (SUPABASE_SERVICE_KEY env) = false.
Proof.
  intros Hn. unfold Js.truthy_string.
  destruct (VITE_SUPABASE_URL env) as [url|] eqn:Eu; [|now left].
  destruct (SUPABASE_SERVICE_KEY env) as [key|] eqn:Ek; [|now right].
  destruct (String.eqb_spec url ""); [now left|].
  destruct (String.eqb_spec key ""); [now right|].
  exfalso. apply Hn. split; eexists; eauto.
Qed.

Lemma sample_env_configured : configured sample_env.
Proof. split; eexists; (split; [reflexivity|discriminate]). Qed.

Lemma stale_NoDup : NoDup (tokens stale_world).
Proof.
  unfold tokens. cbn. constructor; [intros [Heq|[]]; discriminate|].
  constructor; [intros []|constructor].
Qed.

(** *** The row a token selects *)

Lemma single_stored t rs link :
  NoDup (map token rs) -> In link rs -> token link = t ->
  single (filter (has_token t) rs) = Some link.
Proof.
  intros Hnd Hin Ht.
  destruct (filter_token_present t rs Hnd) as (l & Hl & Hlin & Hlt).
  { rewrite <- Ht. now apply in_map. }
  assert (l = link) as ->.
  { apply (token_injective rs); try assumption. congruence. }
  now rewrite Hl.
Qed.

Lemma single_absent t rs :
  (forall l, In l rs -> token l <> t) -> single (filter (has_token t) rs) = None.
Proof.
  intros Hnone. rewrite filter_token_absent; [reflexivity|].
  intros Hin. apply in_map_iff in Hin. destruct Hin as (l & Hl & Hin).
  exact (Hnone l Hin Hl).
Qed.

Lemma single_only {A} (p : A -> bool) rs cur :
  single (filter p rs) = Some cur -> forall l, In l rs -> p l = true -> l = cur.
Proof.
  intros Hs l Hin Hp.
  assert (Hl : In l (filter p rs)) by (apply filter_In; now split).
  destruct (filter p rs) as [|x [|y r]]; try discriminate.
  injection Hs as <-. destruct Hl as [Hl|[]]. now symmetry.
Qed.

Lemma single_in {A} (p : A -> bool) rs cur :
  single (filter p rs) = Some cur -> In cur rs /\ p cur = true.
Proof.
  intros Hs. apply filter_In.
  destruct (filter p rs) as [|x [|y r]]; try discriminate.
  injection Hs as <-. now left.
Qed.

Lemma getShareLink_stored t w link :
  upcoming w 0 = false -> NoDup (tokens w) -> In link (rows w) -> token link = t ->
  fst (getShareLink t w) = Returns (Some link).
Proof.
  intros Hq Hnd Hin Ht.
  unfold getShareLink, select_by_token_single. unfold bind.
  destruct (query_fails_upcoming w) as (w1 & -> & Hrows & _).
  rewrite Hq, Hrows. now rewrite (single_stored t (rows w) link Hnd Hin Ht).
Qed.

Lemma getShareLink_missing t w :
  upcoming w 0 = true \/ (forall l, In l (rows w) -> token l <> t) ->
  fst (getShareLink t w) = Returns None.
Proof.
  intros Hcase. unfold getShareLink, select_by_token_single. unfold bind.
  destruct (query_fails_upcoming w) as (w1 & -> & Hrows & _).
  destruct (upcoming w 0); [reflexivity|].
  destruct Hcase as [Hc|Hnone]; [discriminate|].
  rewrite Hrows. now rewrite single_absent.
Qed.

(** C1, as the code has it.  With the credentials of the store
    configured, [validateShareLink] never throws and tests, in this order,
    that the link exists, that it is active, that it has not expired, that
    its download count is below the maximum, and that the password is
    supplied and right; the first test that fails decides the reason.  A
    token no stored link has gives "Link not found", and so does a lookup
    the store does not answer; for the stored link with the token, looked
    up in a table of pairwise distinct tokens, a deactivated link reports
    the deactivation whatever its expiry. *)
Theorem validateShareLink_check_order `{Bcrypt} env token password w :
  configured env ->
  let result := fst (in_env env (validateShareLink token password) w) in
  (exists v, result = Returns v) /\
  ((forall l, In l (rows w) -> ShareLinks.token l <> token) ->
   result = Returns (Invalid "Link not found")) /\
  (upcoming w 0 = true -> result = Returns (Invalid "Link not found")) /\
  (forall link,
     upcoming w 0 = false -> NoDup (tokens w) ->
     In link (rows w) -> ShareLinks.token link = token ->
     (is_active link = false ->
      result = Returns (Invalid "Link has been deactivated")) /\
     (is_active link = true -> expired link (clock w) ->
      result = Returns (Invalid "Link has expired")) /\
     (is_active link = true -> ~ expired link (clock w) ->
      limit_reached link ->
      result = Returns (Invalid "Download limit reached")) /\
     (is_active link = true -> ~ expired link (clock w) ->
      ~ limit_reached link ->
      forall h, protected_by link h ->
        ((forall p, ~ supplied password p) ->
         result = Returns (Invalid "Password required")) /\
        (forall p, supplied password p -> bcrypt_compare p h = false ->
         result = Returns (Invalid "Invalid password")) /\
        (forall p, supplied password p -> bcrypt_compare p h = true ->
         result = Returns (Valid link))) /\
     (is_active link = true -> ~ expired link (clock w) ->
      ~ limit_reached link ->
      (forall h, ~ protected_by link h) ->
      result = Returns (Valid link))).
Proof.
  intros Henv result. subst result.
  rewrite (in_env_configured env _ w Henv).
  rewrite validateShareLink_unfold.
  split; [|split; [|split]].
  - destruct (getShareLink_returns token w) as (found & -> & _).
    destruct found as [link|]; [|eauto].
    destruct (negb (is_active link)); [eauto|].
    destruct (match expires_at link with Some e => e <? clock w | None => false end);
      [eauto|].
    destruct (match max_downloads link with
              | Some m => m <=? download_count link | None => false end); [eauto|].
    destruct (password_hash link) as [h|]; [|eauto].
    destruct (h =? "")%string; [eauto|].
    destruct password as [p|]; [|eauto].
    destruct (p =? "")%string; [eauto|].
    destruct (bcrypt_compare p h); eauto.
  - intros Hnone. rewrite getShareLink_missing; [reflexivity|now right].
  - intros Hq. rewrite getShareLink_missing; [reflexivity|now left].
  - intros link Hq Hnd Hin Ht.
    rewrite (getShareLink_stored token w link Hq Hnd Hin Ht).
    assert (Hexp : match expires_at link with Some e => e <? clock w | None => false end
                   = true <-> expired link (clock w)).
    { unfold expired. destruct (expires_at link) as [e|].
      - rewrite Z.ltb_lt. split; [eauto|]. intros (e' & He & Hlt). now injection He as ->.
      - split; [discriminate|]. intros (e' & He & _). discriminate. }
    assert (Hlim : match max_downloads link with
                   | Some m => m <=? download_count link | None => false end
                   = true <-> limit_reached link).
    { unfold limit_reached. destruct (max_downloads link) as [m|].
      - rewrite Z.leb_le. split; [eauto|]. intros (m' & Hm & Hle). now injection Hm as ->.
      - split; [discriminate|]. intros (m' & Hm & _). discriminate. }
    set (ex := match expires_at link with Some e => e <? clock w | None => false end) in *.
    set (lim := match max_downloads link with
                | Some m => m <=? download_count link | None => false end) in *.
    assert (Hnexp : ~ expired link (clock w) -> ex = false).
    { intros Hn. destruct ex; [|reflexivity]. exfalso. apply Hn, Hexp. reflexivity. }
    assert (Hnlim : ~ limit_reached link -> lim = false).
    { intros Hn. destruct lim; [|reflexivity]. exfalso. apply Hn, Hlim. reflexivity. }
    split; [|split; [|split; [|split]]].
    + intros Ha. now rewrite Ha.
    + intros Ha He. rewrite Ha. cbn [negb]. apply Hexp in He. now rewrite He.
    + intros Ha He Hl. rewrite Ha, (Hnexp He). cbn [negb].
      apply Hlim in Hl. now rewrite Hl.
    + intros Ha He Hl h [Hh Hne]. rewrite Ha, (Hnexp He), (Hnlim Hl), Hh. cbn [negb].
      destruct (String.eqb_spec h ""); [contradiction|].
      split; [|split].
      * intros Hno. destruct password as [p|]; [|reflexivity].
        destruct (String.eqb_spec p ""); [reflexivity|].
        exfalso. apply (Hno p). split; [reflexivity|assumption].
      * intros p [-> Hp] Hc. destruct (String.eqb_spec p ""); [contradiction|].
        now rewrite Hc.
      * intros p [-> Hp] Hc. destruct (String.eqb_spec p ""); [contradiction|].
        now rewrite Hc.
    + intros Ha He Hl Hno. rewrite Ha, (Hnexp He), (Hnlim Hl). cbn [negb].
      destruct (password_hash link) as [h|] eqn:Hh; [|reflexivity].
      destruct (String.eqb_spec h ""); [reflexivity|].
      exfalso. apply (Hno h). split; assumption.
Qed.

Lemma validateShareLink_check_order_witness :
  configured sample_env
  /\ fst (in_env sample_env
            (validateShareLink (H := plain_bcrypt) (token stale_row) None) stale_world)
     = Returns (Invalid "Link has expired")
  /\ fst (in_env sample_env
            (validateShareLink (H := plain_bcrypt) (token sample_row) None) stale_world)
     = Returns (Valid sample_row)
  /\ fst (in_env sample_env
            (validateShareLink (H := plain_bcrypt) "no such token" None) stale_world)
     = Returns (Invalid "Link not found").
Proof.
  pose proof stale_NoDup as Hnd.
  split; [exact sample_env_configured|]. split; [|split].
  - destruct (validateShareLink_check_order (H := plain_bcrypt) sample_env
                (token stale_row) None stale_world sample_env_configured)
      as (_ & _ & _ & Hlink).
    destruct (Hlink stale_row eq_refl Hnd (or_introl eq_refl) eq_refl)
      as (_ & Hexpired & _).
    apply Hexpired; [reflexivity|].
    exists 4000. split; reflexivity.
  - destruct (validateShareLink_check_order (H := plain_bcrypt) sample_env
                (token sample_row) None stale_world sample_env_configured)
      as (_ & _ & _ & Hlink).
    destruct (Hlink sample_row eq_refl Hnd (or_intror (or_introl eq_refl)) eq_refl)
      as (_ & _ & _ & _ & Hvalid).
    apply Hvalid; [reflexivity| | |].
    + intros (e & He & _). discriminate.
    + intros (m & Hm & _). discriminate.
    + intros h [Hh _]. discriminate.
  - destruct (validateShareLink_check_order (H := plain_bcrypt) sample_env
                "no such token" None stale_world sample_env_configured)
      as (_ & Hnone & _).
    apply Hnone. intros l [<-|[<-|[]]]; discriminate.
Defined.

(** C1, as stated, fails: without the service key of the store,
    [validateShareLink] throws for an unknown token instead of answering
    "Link not found". *)
Lemma validateShareLink_throws_without_credentials :
  (forall l, In l (rows sample_world) -> token l <> "no such token")
  /\ fst (in_env unset_env
            (validateShareLink (H := plain_bcrypt) "no such token" None) sample_world)
     = Throws "Supabase admin credentials not configured".
Proof.
  split.
  - intros l [<-|[]]. discriminate.
  - rewrite in_env_unset; [reflexivity|now right].
Qed.


Lemma tokens_after_create `{Bcrypt} options w k :
  tokens (after_create options w k) = (tokens w ++ [draw w k])%list.
Proof. unfold tokens, after_create. cbn. now rewrite map_app. Qed.

Lemma NoDup_snoc {A} (l : list A) (x : A) :
  NoDup l -> ~ In x l -> NoDup (l ++ [x]).
Proof.
  induction l as [|a l IH]; intros Hnd Hx; cbn.
  - constructor; [intros []|constructor].
  - inversion Hnd as [|? ? Ha Hnd']; subst. constructor.
    + rewrite in_app_iff. cbn. intros [Hin|[Heq|[]]]; [tauto|].
      apply Hx. now left.
    + apply IH; [exact Hnd'|]. intros Hin. apply Hx. now right.
Qed.

Lemma sample_first_fresh : first_fresh sample_world 1.
Proof.
  split.
  - intros i Hi. assert (i = 0)%nat as -> by lia. left. reflexivity.
  - vm_compute. intros [Heq|[]]. discriminate Heq.
Qed.

Lemma sample_NoDup : NoDup (tokens sample_world).
Proof. repeat constructor. intros []. Qed.

(** In a store that answers and whose tokens are pairwise distinct,
    [createShareLink] returns as soon as a draw is not in use: the token of
    the returned link is the hexadecimal encoding of the 16 random bytes of
    that draw, 32 characters long, all of them hexadecimal digits; every
    earlier draw was in use and was rejected; no stored link had the token,
    and the tokens of the store stay pairwise distinct once the link is
    added. *)
Theorem createShareLink_unique_hex_token `{Bcrypt} fuel options w k :
  faults w = [] -> NoDup (tokens w) -> first_fresh w k -> (k < fuel)%nat ->
  exists link w',
    createShareLink fuel options w = (Returns link, w') /\
    token link = Js.toString_hex (map (entropy w) (seq (drawn w + 16 * k) 16)) /\
    String.length (token link) = 32%nat /\
    Js.all_chars Js.is_hex_char (token link) = true /\
    (forall l, In l (rows w) -> token l <> token link) /\
    rows w' = (rows w ++ [link])%list /\
    NoDup (tokens w').
Proof.
  intros Hf Hnd Hfresh Hk.
  exists (new_link options w k), (after_create options w k).
  split; [now apply createShareLink_run|].
  destruct Hfresh as [_ Hfresh].
  split; [reflexivity|]. split; [|split; [|split; [|split; [reflexivity|]]]].
  - cbn [new_link token]. unfold draw.
    now rewrite JsFacts.toString_hex_length, length_map, length_seq.
  - apply JsFacts.toString_hex_hex.
  - intros l Hl Heq. apply Hfresh. unfold tokens.
    change (token (new_link options w k)) with (draw w k) in Heq.
    rewrite <- Heq. now apply in_map.
  - rewrite tokens_after_create. now apply NoDup_snoc.
Qed.

Lemma createShareLink_unique_hex_token_witness :
  exists link w',
    createShareLink (H := plain_bcrypt) 2 (sample_options None None None) sample_world
    = (Returns link, w') /\
    token link
    = Js.toString_hex
        (map (entropy sample_world) (seq (drawn sample_world + 16 * 1) 16)) /\
    String.length (token link) = 32%nat /\
    Js.all_chars Js.is_hex_char (token link) = true /\
    (forall l, In l (rows sample_world) -> token l <> token link) /\
    rows w' = (rows sample_world ++ [link])%list /\
    NoDup (tokens w').
Proof.
  apply (createShareLink_unique_hex_token (H := plain_bcrypt) 2
           (sample_options None None None) sample_world 1).
  - reflexivity.
  - exact sample_NoDup.
  - exact sample_first_fresh.
  - lia.
Defined.

(** *** A link right after its creation *)

Lemma getShareLink_found t w link :
  faults w = [] -> filter (has_token t) (rows w) = [link] ->
  fst (getShareLink t w) = Returns (Some link).
Proof.
  intros Hf Hl. unfold getShareLink.
  now rewrite select_by_token_single_healthy, Hl.
Qed.

Lemma lookup_after_create `{Bcrypt} options w k t :
  faults w = [] -> ~ In (draw w k) (tokens w) ->
  fst (getShareLink (draw w k) (with_clock t (after_create options w k)))
  = Returns (Some (new_link options w k)).
Proof.
  intros Hf Hfresh. apply getShareLink_found; [exact Hf|].
  cbn [rows with_clock after_create with_next_id with_rows].
  now apply filter_token_new.
Qed.

(** C7, as the code has it.  When a TTL other than zero is supplied and
    the clock of the creation plus the TTL is a time value of a [Date],
    the link [createShareLink] stores expires at that sum; and a link
    created with a TTL of -1 fails every later validation with "Link has
    expired". *)
Theorem createShareLink_expiry `{Bcrypt} fuel options w k ttl :
  faults w = [] -> NoDup (tokens w) -> first_fresh w k -> (k < fuel)%nat ->
  expiresIn options = Some ttl -> ttl <> 0 ->
  Js.valid_time (clock w + ttl) = true ->
  (exists link w',
     createShareLink fuel options w = (Returns link, w') /\
     In link (rows w') /\
     expires_at link = Some (clock w + ttl)) /\
  (ttl = -1 ->
   forall dt pw, 0 <= dt ->
     fst ((link <- createShareLink fuel options ;;
           elapse dt ;;
           validateShareLink (token link) pw) w)
     = Returns (Invalid "Link has expired")).
Proof.
  intros Hf Hnd Hfresh Hk Httl Hnz _.
  pose proof (createShareLink_run fuel options w k Hf Hnd Hfresh Hk) as Hrun.
  assert (Hexp : expires_at (new_link options w k) = Some (clock w + ttl)).
  { cbn [new_link expires_at]. rewrite Httl.
    destruct (Z.eqb_spec ttl 0); [contradiction|reflexivity]. }
  split.
  - exists (new_link options w k), (after_create options w k).
    split; [exact Hrun|]. split; [|exact Hexp].
    cbn [after_create with_next_id with_rows rows]. apply in_or_app. right. now left.
  - intros -> dt pw Hdt. unfold bind at 1. rewrite Hrun.
    unfold bind at 1. unfold elapse at 1.
    rewrite validateShareLink_unfold.
    change (token (new_link options w k)) with (draw w k).
    rewrite lookup_after_create by (exact Hf || apply Hfresh).
    rewrite Hexp. cbn [new_link is_active negb clock with_clock after_create
      with_next_id with_rows with_drawn].
    destruct (Z.ltb_spec (clock w + -1) (clock w + dt)); [reflexivity|lia].
Qed.

Lemma createShareLink_expiry_witness :
  (exists link w',
     createShareLink (H := plain_bcrypt) 2 (sample_options (Some (-1)) None None)
       sample_world = (Returns link, w') /\
     In link (rows w') /\
     expires_at link = Some (clock sample_world + -1)) /\
  (-1 = -1 ->
   forall dt pw, 0 <= dt ->
     fst ((link <- createShareLink (H := plain_bcrypt) 2
                     (sample_options (Some (-1)) None None) ;;
           elapse dt ;;
           validateShareLink (H := plain_bcrypt) (token link) pw) sample_world)
     = Returns (Invalid "Link has expired")).
Proof.
  apply (createShareLink_expiry (H := plain_bcrypt) 2
           (sample_options (Some (-1)) None None) sample_world 1 (-1)).
  - reflexivity.
  - exact sample_NoDup.
  - exact sample_first_fresh.
  - lia.
  - reflexivity.
  - lia.
  - reflexivity.
Defined.

(** C7 does not hold for a TTL of zero: the guard [if (options.expiresIn)]
    takes it for an absent one, and the stored link has no expiry instead
    of the clock plus zero. *)
Lemma createShareLink_zero_ttl_has_no_expiry :
  exists link w',
    createShareLink (H := plain_bcrypt) 2 (sample_options (Some 0) None None)
      sample_world = (Returns link, w')
    /\ expiresIn (sample_options (Some 0) None None) = Some 0
    /\ expires_at link <> Some (clock sample_world + 0).
Proof.
  eexists. eexists. split; [|split].
  - apply (createShareLink_run (H := plain_bcrypt) 2 _ sample_world 1);
      [reflexivity|exact sample_NoDup|exact sample_first_fresh|lia].
  - reflexivity.
  - cbn. discriminate.
Qed.

(** *** Download counting *)

Lemma or_zero_id n : Js.or_zero n = n.
Proof. unfold Js.or_zero. now destruct (Z.eqb_spec n 0). Qed.

Lemma update_absent t (f : ShareLink -> ShareLink) rs :
  ~ In t (map token rs) ->
  map (fun l => if has_token t l then f l else l) rs = rs.
Proof.
  induction rs as [|a rs IH]; cbn; intros Hn; [reflexivity|].
  destruct (has_token t a) eqn:E.
  - apply has_token_true in E. tauto.
  - rewrite IH; tauto.
Qed.

Lemma update_new t (f : ShareLink -> ShareLink) rs l :
  ~ In t (map token rs) -> token l = t ->
  map (fun l => if has_token t l then f l else l) (rs ++ [l]) = (rs ++ [f l])%list.
Proof.
  intros Hn Ht. rewrite map_app, (update_absent _ _ _ Hn). cbn.
  now rewrite (proj2 (has_token_true t l) Ht).
Qed.

Lemma incrementDownloadCount_fetch_error t w :
  upcoming w 0 = true \/ single (filter (has_token t) (rows w)) = None ->
  exists w', incrementDownloadCount t w
             = (Throws "Failed to fetch download count", w')
             /\ rows w' = rows w.
Proof.
  intros Hcase. unfold incrementDownloadCount, select_by_token_single.
  unfold bind at 1. unfold bind at 1.
  destruct (query_fails_upcoming w) as (w' & -> & Hrows & _).
  destruct (upcoming w 0).
  - exists w'. now cbn.
  - destruct Hcase as [Hc|Hc]; [discriminate|].
    rewrite Hrows, Hc. exists w'. now cbn.
Qed.

Lemma incrementDownloadCount_write t w cur :
  upcoming w 0 = false -> single (filter (has_token t) (rows w)) = Some cur ->
  exists w',
    incrementDownloadCount t w
    = (if upcoming w 1 then Throws "Failed to update download count"
       else Returns tt, w')
    /\ clock w' = clock w
    /\ rows w'
       = if upcoming w 1 then rows w
         else map (fun l => if has_token t l
                            then bumped (download_count cur) (clock w) l else l)
                (rows w).
Proof.
  intros Hread Hcur. unfold incrementDownloadCount, select_by_token_single.
  unfold bind at 1. unfold bind at 1.
  destruct (query_fails_upcoming w) as (w1 & -> & Hrows & Hclock & Hnext).
  rewrite Hread, Hrows, Hcur. cbn [fst snd].
  unfold bind at 1. unfold Date_now at 1.
  unfold update_where. unfold bind at 1. unfold bind at 1.
  destruct (query_fails_upcoming w1) as (w2 & -> & Hrows2 & Hclock2 & _).
  rewrite Hnext, or_zero_id. destruct (upcoming w 1).
  - exists w2. cbn. repeat split; congruence.
  - exists (with_rows
              (map (fun l => if has_token t l
                             then bumped (download_count cur) (clock w1) l else l)
                 (rows w2)) w2).
    cbn. rewrite Hclock, Hrows2, Hrows. repeat split. congruence.
Qed.

Lemma incrementDownloadCount_healthy t w cur :
  faults w = [] -> filter (has_token t) (rows w) = [cur] ->
  incrementDownloadCount t w
  = (Returns tt,
     with_rows (map (fun l => if has_token t l
                              then bumped (download_count cur) (clock w) l else l)
                  (rows w)) w).
Proof.
  intros Hf Hcur. unfold incrementDownloadCount. unfold bind at 1.
  rewrite select_by_token_single_healthy, Hcur by exact Hf. cbn [single].
  unfold bind at 1. unfold Date_now at 1. unfold update_where.
  unfold bind at 1. unfold bind at 1.
  rewrite query_fails_healthy by exact Hf. now rewrite or_zero_id.
Qed.


Lemma bumped_counted now l : counted now l (bumped (download_count l) now l).
Proof. unfold counted. cbn. repeat split. Qed.

Lemma update_counted t now rs cur :
  single (filter (has_token t) rs) = Some cur ->
  counted_rows t now rs
    (map (fun l => if has_token t l then bumped (download_count cur) now l else l) rs).
Proof.
  intros Hcur. pose proof (single_only _ _ _ Hcur) as Honly.
  unfold counted_rows. clear Hcur.
  induction rs as [|r rs IH]; [constructor|].
  cbn [map]. constructor.
  - destruct (has_token t r) eqn:E.
    + rewrite <- (Honly r (or_introl eq_refl) E).
      split; [intros _; apply bumped_counted|].
      apply has_token_true in E. intros Hne. contradiction.
    + apply has_token_false in E. split; [intros Ht; contradiction|reflexivity].
  - apply IH. intros l Hl. apply Honly. now right.
Qed.

(** C8, as the code has it.  A link created with a maximum of one
    download and no password: after one successful
    [incrementDownloadCount], validation fails with "Download limit
    reached" for as long as the link has not expired.
    [incrementDownloadCount] throws, and leaves the table as it was, when
    its read is not answered or no stored link has the token.  For the
    stored link with the token, in a table of pairwise distinct tokens,
    it throws and leaves the table as it was when the write is not
    answered; otherwise it returns, and the row of the link has a count
    one above the count it had and the clock for its last access, nothing
    else of it has changed, and every other row is as it was. *)
Theorem download_limit_after_increment `{Bcrypt} fuel options w k :
  faults w = [] -> NoDup (tokens w) -> first_fresh w k -> (k < fuel)%nat ->
  expiry_in_range options w ->
  maxDownloads options = Some 1 -> password options = None ->
  (forall d1 d2 pw, outlives options (d1 + d2) ->
     fst ((link <- createShareLink fuel options ;;
           elapse d1 ;;
           incrementDownloadCount (token link) ;;
           elapse d2 ;;
           validateShareLink (token link) pw) w)
     = Returns (Invalid "Download limit reached")) /\
  (forall t w0,
     (upcoming w0 0 = true \/ (forall l, In l (rows w0) -> token l <> t) ->
      exists w', incrementDownloadCount t w0
                 = (Throws "Failed to fetch download count", w')
                 /\ rows w' = rows w0) /\
     (forall cur,
        upcoming w0 0 = false -> NoDup (tokens w0) ->
        In cur (rows w0) -> token cur = t ->
        exists w',
          (upcoming w0 1 = true ->
           incrementDownloadCount t w0
           = (Throws "Failed to update download count", w')
           /\ rows w' = rows w0) /\
          (upcoming w0 1 = false ->
           incrementDownloadCount t w0 = (Returns tt, w')
           /\ counted_rows t (clock w0) (rows w0) (rows w')))).
Proof.
  intros Hf Hnd Hfresh Hk _ Hmax Hpw. split.
  - intros d1 d2 pw Hlive.
    pose proof (createShareLink_run fuel options w k Hf Hnd Hfresh Hk) as Hrun.
    destruct Hfresh as [_ Hfresh].
    unfold bind at 1. rewrite Hrun.
    unfold bind at 1. unfold elapse at 1.
    change (token (new_link options w k)) with (draw w k).
    set (w1 := with_clock (clock (after_create options w k) + d1)
                 (after_create options w k)).
    assert (Hrows1 : rows w1 = (rows w ++ [new_link options w k])%list) by reflexivity.
    unfold bind at 1.
    rewrite (incrementDownloadCount_healthy (draw w k) w1 (new_link options w k))
      by (exact Hf || (rewrite Hrows1; now apply filter_token_new)).
    unfold bind at 1. unfold elapse at 1.
    rewrite validateShareLink_unfold.
    set (after := bumped (download_count (new_link options w k)) (clock w1)
                    (new_link options w k)).
    rewrite (getShareLink_found _ _ after).
    + cbn [after bumped is_active new_link negb expires_at max_downloads
        download_count].
      rewrite Hmax. cbn [Z.eqb Z.add Z.leb Z.compare Pos.compare Pos.compare_cont].
      unfold outlives in Hlive.
      destruct (expiresIn options) as [e|]; [|reflexivity].
      destruct (Z.eqb_spec e 0); [reflexivity|].
      destruct Hlive as [?|Hlive]; [contradiction|].
      cbn [clock with_clock with_rows after_create with_next_id with_drawn w1].
      destruct (Z.ltb_spec (clock w + e) (clock w + d1 + d2)); [lia|reflexivity].
    + exact Hf.
    + cbn [rows with_clock with_rows]. rewrite Hrows1.
      rewrite update_new by (exact Hfresh || reflexivity).
      now apply filter_token_new.
  - intros t w0. split.
    + intros [Hq|Hnone]; apply incrementDownloadCount_fetch_error;
        [now left|right; now apply single_absent].
    + intros cur Hread Hnd0 Hin Ht.
      pose proof (single_stored t (rows w0) cur Hnd0 Hin Ht) as Hcur.
      destruct (incrementDownloadCount_write t w0 cur Hread Hcur)
        as (w' & Hrun & _ & Hrows).
      exists w'. split; intros Hw; rewrite Hw in *; split; try assumption.
      rewrite Hrows. now apply update_counted.
Qed.

Lemma download_limit_after_increment_witness :
  fst ((link <- createShareLink (H := plain_bcrypt) 2
                  (sample_options (Some 60000) None (Some 1)) ;;
        elapse 1000 ;;
        incrementDownloadCount (token link) ;;
        elapse 2000 ;;
        validateShareLink (H := plain_bcrypt) (token link) None) sample_world)
  = Returns (Invalid "Download limit reached")
  /\ (exists w',
        incrementDownloadCount (token stale_row) stale_world = (Returns tt, w')
        /\ counted_rows (token stale_row) (clock stale_world)
             (rows stale_world) (rows w')).
Proof.
  destruct (download_limit_after_increment (H := plain_bcrypt) 2
              (sample_options (Some 60000) None (Some 1)) sample_world 1)
    as [Hscenario Hcount].
  - reflexivity.
  - exact sample_NoDup.
  - exact sample_first_fresh.
  - lia.
  - reflexivity.
  - reflexivity.
  - reflexivity.
  - split.
    + apply Hscenario. right. lia.
    + destruct (Hcount (token stale_row) stale_world) as [_ Hwrite].
      destruct (Hwrite stale_row) as (w' & _ & Hok).
      * reflexivity.
      * unfold tokens. cbn. constructor; [intros [Heq|[]]; discriminate|].
        constructor; [intros []|constructor].
      * now left.
      * reflexivity.
      * exists w'. apply Hok. reflexivity.
Defined.

(** C8, as stated, fails for a link that has expired: validation tests the
    expiry before the count.  A link with a maximum of one download and a
    TTL of one second, counted once half a second after its creation, is
    refused two seconds after its creation with "Link has expired". *)
Lemma expired_link_is_not_refused_for_its_limit :
  maxDownloads (sample_options (Some 1000) None (Some 1)) = Some 1
  /\ password (sample_options (Some 1000) None (Some 1)) = None
  /\ fst ((link <- createShareLink (H := plain_bcrypt) 2
                     (sample_options (Some 1000) None (Some 1)) ;;
           elapse 500 ;;
           incrementDownloadCount (token link) ;;
           elapse 1500 ;;
           validateShareLink (H := plain_bcrypt) (token link) None) sample_world)
     = Returns (Invalid "Link has expired").
Proof. split; [reflexivity|]. split; [reflexivity|]. vm_compute. reflexivity. Qed.

(** *** Deactivation and deletion *)

Lemma owned_none linkId userId rs :
  (forall l, In l rs -> id l = linkId -> created_by l <> userId) ->
  forall l, In l rs -> owned linkId userId l = false.
Proof.
  intros Hno l Hin. unfold owned.
  destruct (Nat.eqb_spec (id l) linkId) as [Hid|]; [|reflexivity].
  cbn. apply String.eqb_neq. now apply Hno.
Qed.

Lemma map_unaffected {A} (p : A -> bool) (f : A -> A) (rs : list A) :
  (forall l, In l rs -> p l = false) ->
  map (fun l => if p l then f l else l) rs = rs.
Proof.
  induction rs as [|a rs IH]; cbn; intros Hp; [reflexivity|].
  rewrite (Hp a) by now left. rewrite IH; [reflexivity|].
  intros l Hl. apply Hp. now right.
Qed.

Lemma filter_unaffected {A} (p : A -> bool) (rs : list A) :
  (forall l, In l rs -> p l = false) ->
  filter (fun l => negb (p l)) rs = rs /\ filter p rs = [].
Proof.
  induction rs as [|a rs IH]; cbn; intros Hp; [auto|].
  rewrite (Hp a) by now left. cbn.
  destruct IH as [-> ->]; [|auto]. intros l Hl. apply Hp. now right.
Qed.



(** *** Falsy options *)





(** *** Expired links and the links of a user *)

Lemma query_fails_cases w :
  (upcoming w 0 = false /\ exists w', query_fails w = (Returns false, w')
      /\ rows w' = rows w /\ clock w' = clock w
      /\ forall n, upcoming w' n = upcoming w (S n))
  \/ (upcoming w 0 = true /\ exists w', query_fails w = (Returns true, w')
      /\ rows w' = rows w /\ clock w' = clock w
      /\ forall n, upcoming w' n = upcoming w (S n)).
Proof.
  unfold query_fails, upcoming. destruct (faults w) as [|f fs] eqn:E.
  - left. split; [reflexivity|]. exists w. rewrite E.
    repeat split. intros n. now destruct n.
  - destruct f; [right|left]; (split; [reflexivity|]);
      exists (with_faults fs w); repeat split.
Qed.

Lemma filter_length_split {A} (p : A -> bool) (l : list A) :
  (List.length (filter p l) + List.length (filter (fun x => negb (p x)) l)
   = List.length l)%nat.
Proof.
  induction l as [|x l IH]; [reflexivity|]. cbn. destruct (p x); cbn; lia.
Qed.

Lemma cleanupExpiredLinks_run w :
  upcoming w 0 = false ->
  exists w',
    cleanupExpiredLinks w
    = (Returns (Z.of_nat (List.length (filter (expires_before (clock w)) (rows w)))), w')
    /\ rows w' = filter (fun l => negb (expires_before (clock w) l)) (rows w)
    /\ clock w' = clock w
    /\ forall n, upcoming w' n = upcoming w (S n).
Proof.
  intros Hup. unfold cleanupExpiredLinks, delete_where_select, Date_now, bind.
  destruct (query_fails_cases w) as [(_ & w1 & Hq & Hrows & Hclock & Hnext)
                                    |(Hbad & _)]; [|congruence].
  rewrite Hq. exists (with_rows (filter (fun l => negb (expires_before (clock w) l)) (rows w1)) w1).
  cbn [ret]. rewrite Hrows. unfold Js.or_zero.
  destruct (Z.of_nat _ =? 0) eqn:E.
  - apply Z.eqb_eq in E. rewrite E. repeat split; assumption.
  - repeat split; assumption.
Qed.

(** X1.  When the store answers, [cleanupExpiredLinks] removes the links
    whose expiry lies strictly before the clock, active or not, and no
    other: a link without an expiry is never removed, the links that stay
    keep their order, and the number returned is the number removed. *)
Theorem cleanupExpiredLinks_removes_expired w :
  upcoming w 0 = false ->
  exists n w',
    cleanupExpiredLinks w = (Returns n, w')
    /\ rows w' = filter (fun l => negb (expires_before (clock w) l)) (rows w)
    /\ (forall l, In l (rows w') <->
                  In l (rows w) /\ ~ expired l (clock w))
    /\ (forall l, In l (rows w) -> expires_at l = None -> In l (rows w'))
    /\ n + Z.of_nat (List.length (rows w')) = Z.of_nat (List.length (rows w)).
Proof.
  intros Hup. destruct (cleanupExpiredLinks_run w Hup) as (w' & Hrun & Hrows & _).
  eexists. exists w'. split; [exact Hrun|]. split; [exact Hrows|].
  assert (Hexp : forall l, expires_before (clock w) l = true <-> expired l (clock w)).
  { intros l. unfold expires_before, expired. destruct (expires_at l) as [e|].
    - rewrite Z.ltb_lt. split.
      + intros He. now exists e.
      + intros (e' & [= <-] & He). exact He.
    - split; [discriminate|]. intros (e' & He & _). discriminate. }
  split; [|split].
  - intros l. rewrite Hrows, filter_In, negb_true_iff. rewrite <- Hexp.
    destruct (expires_before (clock w) l); intuition congruence.
  - intros l Hin Hnone. rewrite Hrows. apply filter_In. split; [exact Hin|].
    unfold expires_before. now rewrite Hnone.
  - rewrite Hrows. pose proof (filter_length_split (expires_before (clock w)) (rows w)).
    lia.
Qed.


Lemma cleanupExpiredLinks_removes_expired_witness :
  exists n w',
    cleanupExpiredLinks stale_world = (Returns n, w')
    /\ n = 1
    /\ rows stale_world = [stale_row; sample_row]
    /\ rows w' = [sample_row].
Proof.
  destruct (cleanupExpiredLinks_removes_expired stale_world eq_refl)
    as (n & w' & Hrun & Hrows & _ & _ & Hn).
  exists n, w'. split; [exact Hrun|].
  rewrite Hrows in Hn. rewrite Hrows. cbn in Hn |- *.
  repeat split. lia.
Defined.

Lemma cleanupExpiredLinks_never_throws_aux w :
  upcoming w 0 = true ->
  exists w', cleanupExpiredLinks w = (Returns 0, w') /\ rows w' = rows w.
Proof.
  intros Hup. unfold cleanupExpiredLinks, delete_where_select, Date_now, bind.
  destruct (query_fails_cases w) as [(Hgood & _)
                                    |(_ & w1 & Hq & Hrows & _)]; [congruence|].
  rewrite Hq. exists w1. cbn. now split.
Qed.


(** X2.  Without the credentials of the store [cleanupExpiredLinks] throws
    "Supabase admin credentials not configured" and changes nothing.  With
    them it never throws: it returns a count that is not negative, and
    when its query fails it returns zero and leaves the table as it was. *)
Theorem cleanupExpiredLinks_swallows_query_errors env w :
  (~ configured env ->
   in_env env cleanupExpiredLinks w
   = (Throws "Supabase admin credentials not configured", w))
  /\ (configured env ->
      exists n w',
        in_env env cleanupExpiredLinks w = (Returns n, w')
        /\ 0 <= n
        /\ (upcoming w 0 = true -> n = 0 /\ rows w' = rows w)).
Proof.
  split.
  - intros Hn. apply in_env_unset. now apply not_configured.
  - intros Henv. rewrite (in_env_configured env _ w Henv).
    destruct (upcoming w 0) eqn:Hup.
    + destruct (cleanupExpiredLinks_never_throws_aux w Hup) as (w' & Hrun & Hrows).
      exists 0, w'. split; [exact Hrun|]. split; [lia|]. now intros _.
    + destruct (cleanupExpiredLinks_run w Hup) as (w' & Hrun & _).
      eexists. exists w'. split; [exact Hrun|]. split; [lia|discriminate].
Qed.

Lemma getShareLink_in t w link :
  fst (getShareLink t w) = Returns (Some link) -> In link (rows w) /\ token link = t.
Proof.
  unfold getShareLink, select_by_token_single, bind.
  destruct (query_fails_cases w) as [(_ & w1 & Hq & Hrows & _)
                                    |(_ & w1 & Hq & Hrows & _)]; rewrite Hq.
  - cbn. rewrite Hrows. destruct (filter (has_token t) (rows w)) as [|x [|y l]] eqn:E;
      cbn; try discriminate.
    intros [= <-].
    assert (Hin : In x (filter (has_token t) (rows w))) by (rewrite E; now left).
    apply filter_In in Hin. destruct Hin as [Hin Ht]. split; [exact Hin|].
    now apply has_token_true.
  - cbn. discriminate.
Qed.

Lemma filter_filter_negb {A} (p : A -> bool) (l : list A) :
  filter p (filter (fun x => negb (p x)) l) = [].
Proof.
  induction l as [|x l IH]; [reflexivity|].
  cbn. destruct (p x) eqn:E; cbn; [exact IH|]. now rewrite E.
Qed.

Lemma bind_fst_snd {A B} (m : Async A) (k : A -> Async B) w a w' :
  m w = (Returns a, w') -> bind m k w = k a w'.
Proof. intros E. unfold bind. now rewrite E. Qed.

(** X3.  Right after a sweep that the store answered, no token is refused
    with "Link has expired", and a second sweep returns zero. *)
Theorem nothing_expired_after_cleanup `{Bcrypt} w token pw :
  upcoming w 0 = false ->
  fst ((cleanupExpiredLinks ;; validateShareLink token pw) w)
  <> Returns (Invalid "Link has expired")
  /\ fst ((cleanupExpiredLinks ;; cleanupExpiredLinks) w) = Returns 0.
Proof.
  intros Hup. destruct (cleanupExpiredLinks_run w Hup) as (w' & Hrun & Hrows & Hclock & _).
  split.
  - rewrite (bind_fst_snd _ _ _ _ _ Hrun), validateShareLink_unfold.
    destruct (fst (getShareLink token w')) as [[link|]| |] eqn:Hget; try discriminate.
    destruct (getShareLink_in _ _ _ Hget) as [Hin _].
    rewrite Hrows in Hin. apply filter_In in Hin. destruct Hin as [_ Hkeep].
    apply negb_true_iff in Hkeep. unfold expires_before in Hkeep.
    rewrite Hclock.
    destruct (negb (is_active link)); [discriminate|].
    destruct (expires_at link) as [e|].
    + rewrite Hkeep.
      destruct (max_downloads link) as [m|];
        [destruct (m <=? download_count link); [discriminate|]|];
        (destruct (password_hash link) as [h|]; [|discriminate];
         destruct (h =? "")%string; [discriminate|];
         destruct pw as [p|]; [|discriminate];
         destruct (p =? "")%string; [discriminate|];
         destruct (bcrypt_compare p h); discriminate).
    + destruct (max_downloads link) as [m|];
        [destruct (m <=? download_count link); [discriminate|]|];
        (destruct (password_hash link) as [h|]; [|discriminate];
         destruct (h =? "")%string; [discriminate|];
         destruct pw as [p|]; [|discriminate];
         destruct (p =? "")%string; [discriminate|];
         destruct (bcrypt_compare p h); discriminate).
  - rewrite (bind_fst_snd _ _ _ _ _ Hrun).
    destruct (upcoming w' 0) eqn:Hup'.
    + destruct (cleanupExpiredLinks_never_throws_aux w' Hup') as (w2 & Hrun2 & _).
      now rewrite Hrun2.
    + destruct (cleanupExpiredLinks_run w' Hup') as (w2 & Hrun2 & _).
      rewrite Hrun2. cbn [fst]. f_equal.
      rewrite Hrows, Hclock.
      now rewrite filter_filter_negb.
Qed.

Lemma insert_newest_perm l sorted : Permutation (l :: sorted) (insert_newest l sorted).
Proof.
  induction sorted as [|x rest IH]; [reflexivity|]. cbn.
  destruct (created_at x <? created_at l); [reflexivity|].
  rewrite perm_swap. now constructor.
Qed.

Lemma newest_first_perm ls : Permutation ls (newest_first ls).
Proof.
  induction ls as [|l ls IH]; [constructor|]. cbn.
  rewrite <- insert_newest_perm. now constructor.
Qed.

Lemma insert_newest_sorted l sorted :
  StronglySorted not_older sorted -> StronglySorted not_older (insert_newest l sorted).
Proof.
  induction sorted as [|x rest IH]; intros Hs.
  - cbn. constructor; constructor.
  - cbn. inversion Hs as [|? ? Hrest Hall]; subst.
    destruct (created_at x <? created_at l) eqn:E.
    + apply Z.ltb_lt in E. constructor; [exact Hs|].
      constructor; [unfold not_older; lia|].
      rewrite Forall_forall in *. intros y Hy. specialize (Hall y Hy).
      unfold not_older in *. lia.
    + apply Z.ltb_ge in E. constructor; [now apply IH|].
      rewrite Forall_forall in *. intros y Hy.
      apply (Permutation_in _ (Permutation_sym (insert_newest_perm l rest))) in Hy.
      destruct Hy as [<-|Hy]; [exact E|now apply Hall].
Qed.

Lemma newest_first_sorted ls : StronglySorted not_older (newest_first ls).
Proof.
  induction ls as [|l ls IH]; [constructor|]. cbn. now apply insert_newest_sorted.
Qed.

(** X4.  When the store answers, [getUserShareLinks] returns the links the
    user created, each of them once and no link of anybody else, the newest
    first, and leaves the table as it was; when the query fails it throws
    "Failed to get share links". *)
Theorem getUserShareLinks_lists_own_links userId w :
  (upcoming w 0 = false ->
   exists links w',
     getUserShareLinks userId w = (Returns links, w')
     /\ rows w' = rows w
     /\ (forall l, In l links <-> In l (rows w) /\ created_by l = userId)
     /\ List.length links
        = List.length (filter (created_by_user userId) (rows w))
     /\ StronglySorted not_older links)
  /\ (upcoming w 0 = true ->
      exists w', getUserShareLinks userId w = (Throws "Failed to get share links", w')
                 /\ rows w' = rows w).
Proof.
  unfold getUserShareLinks, select_by_creator, bind.
  destruct (query_fails_cases w) as [(Hup & w1 & Hq & Hrows & _)
                                    |(Hup & w1 & Hq & Hrows & _)];
    rewrite Hq, Hup; (split; [|]); intros Hcase; try discriminate.
  - exists (newest_first (filter (created_by_user userId) (rows w1))), w1.
    cbn. rewrite Hrows.
    split; [reflexivity|]. split; [reflexivity|]. split; [|split].
    + intros l. split.
      * intros Hin.
        apply (Permutation_in _ (Permutation_sym (newest_first_perm _))) in Hin.
        apply filter_In in Hin. destruct Hin as [Hin Hc].
        split; [exact Hin|]. now apply String.eqb_eq in Hc.
      * intros [Hin Hc]. apply (Permutation_in _ (newest_first_perm _)).
        apply filter_In. split; [exact Hin|]. now apply String.eqb_eq.
    + symmetry. apply Permutation_length, newest_first_perm.
    + apply newest_first_sorted.
  - exists w1. cbn. now split.
Qed.

(** *** A link through its life *)

Lemma validate_after_create `{Bcrypt} fuel options w k dt pw :
  faults w = [] -> NoDup (tokens w) -> first_fresh w k -> (k < fuel)%nat ->
  fst ((link <- createShareLink fuel options ;;
        elapse dt ;;
        validateShareLink (token link) pw) w)
  = let link := new_link options w k in
    if match expires_at link with Some e => e <? clock w + dt | None => false end
    then Returns (Invalid "Link has expired")
    else if match max_downloads link with Some m => m <=? 0 | None => false end
    then Returns (Invalid "Download limit reached")
    else match password_hash link with
         | Some h =>
             if (h =? "")%string then Returns (Valid link)
             else match pw with
                  | Some p =>
                      if (p =? "")%string
                      then Returns (Invalid "Password required")
                      else if bcrypt_compare p h then Returns (Valid link)
                           else Returns (Invalid "Invalid password")
                  | None => Returns (Invalid "Password required")
                  end
         | None => Returns (Valid link)
         end.
Proof.
  intros Hf Hnd Hfresh Hk.
  pose proof (createShareLink_run fuel options w k Hf Hnd Hfresh Hk) as Hrun.
  unfold bind at 1. rewrite Hrun.
  unfold bind at 1. unfold elapse at 1.
  rewrite validateShareLink_unfold.
  change (token (new_link options w k)) with (draw w k).
  rewrite lookup_after_create by (exact Hf || apply Hfresh).
  cbn zeta.
  change (is_active (new_link options w k)) with true.
  change (download_count (new_link options w k)) with 0.
  cbn [negb clock with_clock after_create with_next_id with_rows with_drawn].
  reflexivity.
Qed.

(** X5.  A link created with a TTL other than zero, the clock of its
    creation plus the TTL being a time value of a [Date], with no quota
    and no password, stays valid up to and including the instant of its
    expiry, that sum, and is refused with "Link has expired" from the next
    millisecond on. *)
Theorem link_is_valid_until_it_expires `{Bcrypt} fuel options w k ttl :
  faults w = [] -> NoDup (tokens w) -> first_fresh w k -> (k < fuel)%nat ->
  expiresIn options = Some ttl -> ttl <> 0 ->
  Js.valid_time (clock w + ttl) = true ->
  maxDownloads options = None -> password options = None ->
  exists link,
    expires_at link = Some (clock w + ttl) /\
    forall dt pw,
      fst ((link <- createShareLink fuel options ;;
            elapse dt ;;
            validateShareLink (token link) pw) w)
      = if ttl <? dt then Returns (Invalid "Link has expired")
        else Returns (Valid link).
Proof.
  intros Hf Hnd Hfresh Hk Httl Hnz _ Hmax Hpw.
  exists (new_link options w k).
  assert (Hexp : expires_at (new_link options w k) = Some (clock w + ttl)).
  { cbn [new_link expires_at]. rewrite Httl.
    destruct (Z.eqb_spec ttl 0); [contradiction|reflexivity]. }
  split; [exact Hexp|]. intros dt pw.
  rewrite (validate_after_create fuel options w k dt pw Hf Hnd Hfresh Hk).
  cbn zeta. rewrite Hexp.
  cbn [new_link max_downloads password_hash]. rewrite Hmax, Hpw.
  destruct (Z.ltb_spec (clock w + ttl) (clock w + dt));
    destruct (Z.ltb_spec ttl dt); try lia; reflexivity.
Qed.

Lemma link_is_valid_until_it_expires_witness :
  exists link,
    expires_at link = Some (clock sample_world + 60000) /\
    forall dt pw,
      fst ((link <- createShareLink (H := plain_bcrypt) 2
                      (sample_options (Some 60000) None None) ;;
            elapse dt ;;
            validateShareLink (H := plain_bcrypt) (token link) pw) sample_world)
      = if 60000 <? dt then Returns (Invalid "Link has expired")
        else Returns (Valid link).
Proof.
  apply (link_is_valid_until_it_expires (H := plain_bcrypt) 2
           (sample_options (Some 60000) None None) sample_world 1 60000).
  - reflexivity.
  - exact sample_NoDup.
  - exact sample_first_fresh.
  - lia.
  - reflexivity.
  - lia.
  - reflexivity.
  - reflexivity.
  - reflexivity.
Defined.

(** X7.  A link created with a password that is not empty stores the
    bcrypt hash of it.  Validation without a password, or with the empty
    one, is refused with "Password required"; with a password, it is
    decided by [bcrypt.compare] against the stored hash: "Invalid password"
    or valid. *)
Theorem password_protects_the_link `{Bcrypt} fuel options w k p :
  faults w = [] -> NoDup (tokens w) -> first_fresh w k -> (k < fuel)%nat ->
  password options = Some p -> p <> "" -> bcrypt_hash p <> "" ->
  expiresIn options = None -> maxDownloads options = None ->
  exists link,
    password_hash link = Some (bcrypt_hash p) /\
    forall dt attempt,
      let result :=
        fst ((link <- createShareLink fuel options ;;
              elapse dt ;;
              validateShareLink (token link) attempt) w) in
      (attempt = None \/ attempt = Some "" ->
       result = Returns (Invalid "Password required")) /\
      (forall q, attempt = Some q -> q <> "" ->
         result = if bcrypt_compare q (bcrypt_hash p)
                  then Returns (Valid link)
                  else Returns (Invalid "Invalid password")).
Proof.
  intros Hf Hnd Hfresh Hk Hpw Hp Hh Hexp Hmax.
  exists (new_link options w k).
  assert (Hhash : password_hash (new_link options w k) = Some (bcrypt_hash p)).
  { cbn [new_link password_hash]. rewrite Hpw.
    destruct (String.eqb_spec p ""); [contradiction|reflexivity]. }
  split; [exact Hhash|]. intros dt attempt result. subst result.
  rewrite (validate_after_create fuel options w k dt attempt Hf Hnd Hfresh Hk).
  cbn zeta. rewrite Hhash.
  cbn [new_link expires_at max_downloads]. rewrite Hexp, Hmax.
  destruct (String.eqb_spec (bcrypt_hash p) ""); [contradiction|].
  split.
  - intros [->| ->]; reflexivity.
  - intros q -> Hq. destruct (String.eqb_spec q ""); [contradiction|reflexivity].
Qed.

Lemma password_protects_the_link_witness :
  exists link,
    password_hash link = Some (bcrypt_hash (Bcrypt := plain_bcrypt) "secret") /\
    forall dt attempt,
      let result :=
        fst ((link <- createShareLink (H := plain_bcrypt) 2
                        (sample_options None (Some "secret") None) ;;
              elapse dt ;;
              validateShareLink (H := plain_bcrypt) (token link) attempt)
               sample_world) in
      (attempt = None \/ attempt = Some "" ->
       result = Returns (Invalid "Password required")) /\
      (forall q, attempt = Some q -> q <> "" ->
         result = if bcrypt_compare (Bcrypt := plain_bcrypt) q
                       (bcrypt_hash (Bcrypt := plain_bcrypt) "secret")
                  then Returns (Valid link)
                  else Returns (Invalid "Invalid password")).
Proof.
  apply (password_protects_the_link (H := plain_bcrypt) 2
           (sample_options None (Some "secret") None) sample_world 1 "secret").
  - reflexivity.
  - exact sample_NoDup.
  - exact sample_first_fresh.
  - lia.
  - reflexivity.
  - discriminate.
  - discriminate.
  - reflexivity.
  - reflexivity.
Defined.

(** X8.  A link created with the empty string for a password has no
    password hash: validation succeeds whatever password is given, or
    none. *)
Theorem empty_password_protects_nothing `{Bcrypt} fuel options w k :
  faults w = [] -> NoDup (tokens w) -> first_fresh w k -> (k < fuel)%nat ->
  password options = Some "" ->
  expiresIn options = None -> maxDownloads options = None ->
  exists link,
    password_hash link = None /\
    forall dt attempt,
      fst ((link <- createShareLink fuel options ;;
            elapse dt ;;
            validateShareLink (token link) attempt) w)
      = Returns (Valid link).
Proof.
  intros Hf Hnd Hfresh Hk Hpw Hexp Hmax.
  exists (new_link options w k).
  assert (Hhash : password_hash (new_link options w k) = None).
  { cbn [new_link password_hash]. now rewrite Hpw. }
  split; [exact Hhash|]. intros dt attempt.
  rewrite (validate_after_create fuel options w k dt attempt Hf Hnd Hfresh Hk).
  cbn zeta. rewrite Hhash.
  cbn [new_link expires_at max_downloads]. now rewrite Hexp, Hmax.
Qed.

Lemma empty_password_protects_nothing_witness :
  exists link,
    password_hash link = None /\
    forall dt attempt,
      fst ((link <- createShareLink (H := plain_bcrypt) 2
                      (sample_options None (Some "") None) ;;
            elapse dt ;;
            validateShareLink (H := plain_bcrypt) (token link) attempt)
             sample_world)
      = Returns (Valid link).
Proof.
  apply (empty_password_protects_nothing (H := plain_bcrypt) 2
           (sample_options None (Some "") None) sample_world 1).
  - reflexivity.
  - exact sample_NoDup.
  - exact sample_first_fresh.
  - lia.
  - reflexivity.
  - reflexivity.
  - reflexivity.
Defined.



(** *** The creator of a link *)

Lemma update_where_healthy p f w :
  faults w = [] ->
  update_where p f w
  = (Returns false, with_rows (map (fun l => if p l then f l else l) (rows w)) w).
Proof.
  intros Hf. unfold update_where, bind. now rewrite (query_fails_healthy w Hf).
Qed.

Lemma delete_where_healthy p w :
  faults w = [] ->
  delete_where p w
  = (Returns false, with_rows (filter (fun l => negb (p l)) (rows w)) w).
Proof.
  intros Hf. unfold delete_where, bind. now rewrite (query_fails_healthy w Hf).
Qed.

Lemma owned_self l : owned (id l) (created_by l) l = true.
Proof. unfold owned. now rewrite Nat.eqb_refl, String.eqb_refl. Qed.

Lemma owned_other l x :
  id x <> id l \/ created_by x <> created_by l ->
  owned (id l) (created_by l) x = false.
Proof.
  unfold owned. intros [Hid|Hc].
  - apply Nat.eqb_neq in Hid. now rewrite Hid.
  - apply String.eqb_neq in Hc. rewrite Hc. apply andb_false_r.
Qed.

(** X9.  When the creator of a link deactivates it, the link is from then
    on refused with "Link has been deactivated"; no link is added or
    removed, and the links of another identifier or creator stay as they
    are. *)
Theorem creator_deactivates_link `{Bcrypt} w l pw :
  faults w = [] -> NoDup (tokens w) -> In l (rows w) ->
  exists w',
    deactivateShareLink (id l) (created_by l) w = (Returns tt, w')
    /\ fst (validateShareLink (token l) pw w')
       = Returns (Invalid "Link has been deactivated")
    /\ In (deactivated l) (rows w')
    /\ tokens w' = tokens w
    /\ (forall x, In x (rows w) ->
          id x <> id l \/ created_by x <> created_by l -> In x (rows w')).
Proof.
  intros Hf Hnd Hin.
  set (upd := fun x => if owned (id l) (created_by l) x then deactivated x else x).
  exists (with_rows (map upd (rows w)) w).
  assert (Htok : tokens (with_rows (map upd (rows w)) w) = tokens w).
  { unfold tokens. cbn [rows with_rows]. rewrite map_map. apply map_ext.
    intros x. unfold upd. now destruct (owned _ _ x). }
  assert (Hl : In (deactivated l) (map upd (rows w))).
  { apply in_map_iff. exists l. split; [|exact Hin]. unfold upd.
    now rewrite owned_self. }
  split; [|split; [|split; [exact Hl|split; [exact Htok|]]]].
  - unfold deactivateShareLink, bind. now rewrite (update_where_healthy _ _ w Hf).
  - rewrite validateShareLink_unfold.
    rewrite (getShareLink_found _ _ (deactivated l)); [reflexivity|exact Hf|].
    cbn [rows with_rows].
    destruct (filter_token_present (token l) (map upd (rows w))) as (l0 & Hfil & Hin0 & Ht0).
    + unfold tokens in Htok. cbn [rows with_rows] in Htok. now rewrite Htok.
    + unfold tokens in Htok. cbn [rows with_rows] in Htok. rewrite Htok.
      now apply in_map.
    + rewrite Hfil. f_equal.
      apply (token_injective (map upd (rows w))); try assumption.
      unfold tokens in Htok. cbn [rows with_rows] in Htok. now rewrite Htok.
  - intros x Hx Hother. cbn [rows with_rows]. apply in_map_iff. exists x.
    split; [|exact Hx]. unfold upd. now rewrite (owned_other l x Hother).
Qed.

Lemma creator_deactivates_link_witness :
  exists w',
    deactivateShareLink (id sample_row) (created_by sample_row) sample_world
    = (Returns tt, w')
    /\ fst (validateShareLink (H := plain_bcrypt) (token sample_row) None w')
       = Returns (Invalid "Link has been deactivated")
    /\ In (deactivated sample_row) (rows w')
    /\ tokens w' = tokens sample_world
    /\ (forall x, In x (rows sample_world) ->
          id x <> id sample_row \/ created_by x <> created_by sample_row ->
          In x (rows w')).
Proof.
  apply (creator_deactivates_link (H := plain_bcrypt) sample_world sample_row None).
  - reflexivity.
  - exact sample_NoDup.
  - now left.
Defined.

(** X10.  When the creator of a link deletes it, the link is gone and its
    token is from then on refused with "Link not found"; the links of
    another identifier or creator stay, in their order. *)
Theorem creator_deletes_link `{Bcrypt} w l pw :
  faults w = [] -> NoDup (tokens w) -> In l (rows w) ->
  exists w',
    deleteShareLink (id l) (created_by l) w = (Returns tt, w')
    /\ fst (validateShareLink (token l) pw w') = Returns (Invalid "Link not found")
    /\ ~ In l (rows w')
    /\ rows w' = filter (fun x => negb (owned (id l) (created_by l) x)) (rows w)
    /\ (forall x, In x (rows w) ->
          id x <> id l \/ created_by x <> created_by l -> In x (rows w')).
Proof.
  intros Hf Hnd Hin.
  set (keep := fun x => negb (owned (id l) (created_by l) x)).
  exists (with_rows (filter keep (rows w)) w).
  assert (Hgone : ~ In l (filter keep (rows w))).
  { intros Hl. apply filter_In in Hl. destruct Hl as [_ Hl]. unfold keep in Hl.
    now rewrite owned_self in Hl. }
  split; [|split; [|split; [exact Hgone|split; [reflexivity|]]]].
  - unfold deleteShareLink, bind. now rewrite (delete_where_healthy _ w Hf).
  - rewrite validateShareLink_unfold. unfold getShareLink.
    rewrite select_by_token_single_healthy by exact Hf.
    cbn [fst rows with_rows].
    replace (filter (has_token (token l)) (filter keep (rows w))) with (@nil ShareLink);
      [reflexivity|].
    symmetry. destruct (filter (has_token (token l)) (filter keep (rows w)))
      as [|x rest] eqn:E; [reflexivity|exfalso].
    assert (Hx : In x (filter (has_token (token l)) (filter keep (rows w))))
      by (rewrite E; now left).
    apply filter_In in Hx. destruct Hx as [Hx Ht]. apply has_token_true in Ht.
    assert (x = l).
    { apply (token_injective (rows w)); try assumption.
      now apply filter_In in Hx. }
    subst x. contradiction.
  - intros x Hx Hother. cbn [rows with_rows]. apply filter_In.
    split; [exact Hx|]. unfold keep. now rewrite (owned_other l x Hother).
Qed.

Lemma creator_deletes_link_witness :
  exists w',
    deleteShareLink (id sample_row) (created_by sample_row) sample_world
    = (Returns tt, w')
    /\ fst (validateShareLink (H := plain_bcrypt) (token sample_row) None w')
       = Returns (Invalid "Link not found")
    /\ ~ In sample_row (rows w')
    /\ rows w' = filter (fun x => negb (owned (id sample_row) (created_by sample_row) x))
                   (rows sample_world)
    /\ (forall x, In x (rows sample_world) ->
          id x <> id sample_row \/ created_by x <> created_by sample_row ->
          In x (rows w')).
Proof.
  apply (creator_deletes_link (H := plain_bcrypt) sample_world sample_row None).
  - reflexivity.
  - exact sample_NoDup.
  - now left.
Defined.

(** *** Creation against a store that fails *)











Lemma nothing_expired_after_cleanup_witness :
  fst (validateShareLink (H := plain_bcrypt) (token stale_row) None stale_world)
  = Returns (Invalid "Link has expired")
  /\ fst ((cleanupExpiredLinks ;;
           validateShareLink (H := plain_bcrypt) (token stale_row) None) stale_world)
     <> Returns (Invalid "Link has expired")
  /\ fst ((cleanupExpiredLinks ;; cleanupExpiredLinks) stale_world) = Returns 0.
Proof.
  split; [reflexivity|].
  apply (nothing_expired_after_cleanup (H := plain_bcrypt) stale_world
           (token stale_row) None).
  reflexivity.
Defined.

End ShareLinkFacts.

(** ** The share routes *)

Module ShareRouteFacts.

Import ShareLinks ShareLinkFacts ShareRoutes.
Local Open Scope async_scope.

Lemma select_by_token_single_cases t w :
  exists found w',
    select_by_token_single t w = (Returns found, w')
    /\ rows w' = rows w /\ clock w' = clock w
    /\ (forall n, upcoming w' n = upcoming w (S n))
    /\ found = (if upcoming w 0 then None
                else single (filter (has_token t) (rows w))).
Proof.
  unfold select_by_token_single, bind.
  destruct (query_fails_cases w) as [(Hup & w1 & Hq & Hrows & Hclock & Hnext)
                                    |(Hup & w1 & Hq & Hrows & Hclock & Hnext)];
    rewrite Hq, Hup; cbn.
  - eexists. exists w1. rewrite Hrows. repeat split; assumption.
  - exists None, w1. repeat split; assumption.
Qed.

Lemma validateShareLink_world `{Bcrypt} t pw w :
  exists v w',
    validateShareLink t pw w = (Returns v, w')
    /\ rows w' = rows w /\ clock w' = clock w
    /\ (forall n, upcoming w' n = upcoming w (S n))
    /\ (forall link, v = Valid link ->
          single (filter (has_token t) (rows w)) = Some link).
Proof.
  unfold validateShareLink, getShareLink. unfold bind at 1.
  destruct (select_by_token_single_cases t w)
    as (found & w1 & Hsel & Hrows & Hclock & Hnext & Hfound).
  rewrite Hsel.
  assert (Hsome : forall link, found = Some link ->
                    single (filter (has_token t) (rows w)) = Some link).
  { intros link ->. destruct (upcoming w 0); [discriminate|now symmetry]. }
  destruct found as [link|].
  2:{ eexists. exists w1. split; [reflexivity|]. repeat split; try assumption.
      intros link [=]. }
  specialize (Hsome link eq_refl).
  destruct (negb (is_active link)).
  { eexists. exists w1. split; [reflexivity|]. repeat split; try assumption.
    intros link' [=]. }
  unfold bind, Date_now, verifyPassword, ret.
  destruct (match expires_at link with Some e => e <? clock w1 | None => false end).
  { eexists. exists w1. split; [reflexivity|]. repeat split; try assumption.
    intros link' [=]. }
  destruct (match max_downloads link with
            | Some m => m <=? download_count link | None => false end).
  { eexists. exists w1. split; [reflexivity|]. repeat split; try assumption.
    intros link' [=]. }
  destruct (Js.truthy_string (password_hash link)).
  2:{ eexists. exists w1. split; [reflexivity|]. repeat split; try assumption.
      now intros link' [= <-]. }
  destruct pw as [p|], (password_hash link) as [h|];
    try (eexists; exists w1; split; [reflexivity|]; repeat split; try assumption;
         intros link' [=]; fail).
  destruct (Js.truthy_string (Some p)).
  2:{ eexists. exists w1. split; [reflexivity|]. repeat split; try assumption.
      intros link' [=]. }
  destruct (bcrypt_compare p h).
  - eexists. exists w1. split; [reflexivity|]. repeat split; try assumption.
    now intros link' [= <-].
  - eexists. exists w1. split; [reflexivity|]. repeat split; try assumption.
    intros link' [=].
Qed.



(** X13.  The download route always answers, with status 200, 403 or 500.
    Whenever it answers with another status than 200 the table is as it
    was: a refused download, a file the storage cannot deliver and a failed
    count take nothing from the quota.  When it answers 200, validation had
    accepted a stored link with the token, the content is the one the
    storage delivered for the link's path, the count of that link is one
    above the count it had and its last access is the clock, nothing else
    of it has changed, and every other row is as it was. *)
Theorem download_counts_only_when_it_is_served `{Bcrypt}
    adminBasePath get token password w :
  exists response w',
    post_download adminBasePath get token password w = (Returns response, w')
    /\ In (status response) [200; 403; 500]%nat
    /\ (status response <> 200%nat -> rows w' = rows w)
    /\ (status response = 200%nat ->
        exists link content,
          fst (validateShareLink token password w) = Returns (Valid link)
          /\ In link (rows w) /\ ShareLinks.token link = token
          /\ get (O2SwitchStorage.downloadAdminFile_path adminBasePath
                    (file_path link)) = Some content
          /\ body response
             = Download ("attachment; filename=" ++ dq
                         ++ encodeURIComponent (file_name link) ++ dq)
                 (List.length content) content
          /\ counted_rows token (clock w) (rows w) (rows w')).
Proof.
  unfold post_download, try_catch. unfold bind at 1.
  destruct (validateShareLink_world token password w)
    as (v & w1 & Hval & Hrows & Hclock & Hnext & Hvalid).
  rewrite Hval. destruct v as [reason|link].
  - eexists. exists w1. cbn. split; [reflexivity|].
    split; [now right; left|]. split; [intros _; exact Hrows|discriminate].
  - specialize (Hvalid link eq_refl).
    destruct (get _) as [content|] eqn:Hget.
    2:{ eexists. exists w1. cbn. split; [reflexivity|].
        split; [now right; right; left|]. split; [intros _; exact Hrows|discriminate]. }
    unfold bind at 1.
    destruct (upcoming w1 0) eqn:Hup1.
    + destruct (incrementDownloadCount_fetch_error token w1 (or_introl Hup1))
        as (w2 & Hinc & Hrows2).
      rewrite Hinc. eexists. exists w2. cbn. split; [reflexivity|].
      split; [now right; right; left|].
      split; [intros _; congruence|discriminate].
    + pose proof Hvalid as Hstored. rewrite <- Hrows in Hvalid.
      destruct (incrementDownloadCount_write token w1 link Hup1 Hvalid)
        as (w2 & Hinc & Hclock2 & Hrows2).
      rewrite Hinc. destruct (upcoming w1 1).
      * eexists. exists w2. cbn. split; [reflexivity|].
        split; [now right; right; left|].
        split; [intros _; congruence|discriminate].
      * eexists. exists w2. cbn. split; [reflexivity|].
        split; [now left|]. split; [intros Hne; now contradiction Hne|].
        intros _. exists link, content. cbn [fst].
        destruct (single_in _ _ _ Hstored) as [Hin Htok].
        apply has_token_true in Htok.
        split; [reflexivity|]. split; [exact Hin|]. split; [exact Htok|].
        split; [exact Hget|]. split; [reflexivity|].
        rewrite Hrows2, Hrows, Hclock. now apply update_counted.
Qed.

(** X14.  The create route answers 401 to a caller who is no
    administrator and 400 to a request whose path, name or size is missing,
    empty or zero, and changes nothing in either case.  For an
    administrator with a complete request whose expiry, if it asks for
    one, is a time value of a [Date], against a store that answers, it
    creates the link from the request and answers with the link and its
    public URL, the base URL followed by [/shared/] and the token.  The
    link has the caller for its creator and the path, name and size of the
    request; its expiry is the clock plus the TTL of the request, or none
    for a TTL that is absent or zero; its password hash is the bcrypt hash
    of the password of the request, or none for a password that is absent
    or empty; its maximum is the one of the request, or none when that is
    absent or zero; it is active, was never downloaded, was created at the
    clock, and has a token no stored link had. *)
Theorem create_route_answers `{Bcrypt} auth app_url fuel authorization req w :
  (verifyAdminUser auth authorization = None ->
   post_create auth app_url fuel authorization req w
   = (Returns (status_json 401 (Error "Unauthorized")), w))
  /\ (forall user,
        verifyAdminUser auth authorization = Some user ->
        Js.truthy_string (req_filePath req) = false
        \/ Js.truthy_string (req_fileName req) = false
        \/ Js.truthy_number (req_fileSize req) = false ->
        post_create auth app_url fuel authorization req w
        = (Returns (status_json 400 (Error "Missing required fields")), w))
  /\ (forall user k,
        verifyAdminUser auth authorization = Some user ->
        Js.truthy_string (req_filePath req) = true ->
        Js.truthy_string (req_fileName req) = true ->
        Js.truthy_number (req_fileSize req) = true ->
        (forall ttl, req_expiresIn req = Some ttl ->
                     Js.valid_time (clock w + ttl) = true) ->
        faults w = [] -> NoDup (tokens w) -> first_fresh w k -> (k < fuel)%nat ->
        exists link w',
          post_create auth app_url fuel authorization req w
          = (Returns (json (ShareLinkCreated link
                              (baseUrl app_url ++ "/shared/" ++ token link))), w')
          /\ created_by link = user
          /\ req_filePath req = Some (file_path link)
          /\ req_fileName req = Some (file_name link)
          /\ req_fileSize req = Some (file_size link)
          /\ (forall ttl, req_expiresIn req = Some ttl -> ttl <> 0 ->
                expires_at link = Some (clock w + ttl))
          /\ (req_expiresIn req = None \/ req_expiresIn req = Some 0 ->
                expires_at link = None)
          /\ (forall p, req_password req = Some p -> p <> "" ->
                password_hash link = Some (bcrypt_hash p))
          /\ (req_password req = None \/ req_password req = Some "" ->
                password_hash link = None)
          /\ (forall m, req_maxDownloads req = Some m -> m <> 0 ->
                max_downloads link = Some m)
          /\ (req_maxDownloads req = None \/ req_maxDownloads req = Some 0 ->
                max_downloads link = None)
          /\ download_count link = 0
          /\ is_active link = true
          /\ last_accessed_at link = None
          /\ created_at link = clock w
          /\ (forall l, In l (rows w) -> token l <> token link)
          /\ rows w' = (rows w ++ [link])%list).
Proof.
  unfold post_create, try_catch. split; [|split].
  - intros ->. reflexivity.
  - intros user -> Hmissing.
    destruct (req_filePath req) as [fp|], (req_fileName req) as [fn|],
      (req_fileSize req) as [fs|]; try reflexivity.
    destruct Hmissing as [Hm|[Hm|Hm]]; rewrite Hm; cbn [negb orb];
      rewrite ?orb_true_r; reflexivity.
  - intros user k -> Hfp Hfn Hfs _ Hf Hnd Hfresh Hk.
    destruct (req_filePath req) as [fp|]; [|discriminate].
    destruct (req_fileName req) as [fn|]; [|discriminate].
    destruct (req_fileSize req) as [fs|]; [|discriminate].
    rewrite Hfp, Hfn, Hfs. cbn [negb orb]. unfold bind.
    rewrite (createShareLink_run fuel _ w k Hf Hnd Hfresh Hk).
    eexists. eexists. split; [reflexivity|].
    cbn [new_link created_by file_path file_name file_size expires_at
         password_hash max_downloads download_count is_active last_accessed_at
         created_at token rows after_create with_next_id with_rows with_drawn
         filePath fileName fileSize createdBy expiresIn ShareLinks.password
         ShareLinks.maxDownloads].
    repeat match goal with |- _ /\ _ => split end; try reflexivity.
    + intros ttl -> Hnz. now destruct (Z.eqb_spec ttl 0).
    + intros [-> | ->]; reflexivity.
    + intros p -> Hne. now destruct (String.eqb_spec p "").
    + intros [-> | ->]; reflexivity.
    + intros m -> Hnz. now destruct (Z.eqb_spec m 0).
    + intros [-> | ->]; reflexivity.
    + intros l Hl Heq. destruct Hfresh as [_ Hfresh]. apply Hfresh.
      unfold tokens. rewrite <- Heq. now apply in_map.
Qed.

(** X15.  For an administrator who is not the creator of the link, the
    deactivate and the delete route answer with their message of success
    although no link was changed. *)
Theorem routes_report_success_when_nothing_changed
    auth authorization id user w :
  verifyAdminUser auth authorization = Some user ->
  upcoming w 0 = false ->
  (forall l, In l (rows w) -> ShareLinks.id l = id -> created_by l <> user) ->
  (exists w',
     patch_deactivate auth authorization id w
     = (Returns (json (Message "Share link deactivated")), w')
     /\ rows w' = rows w)
  /\ (exists w',
        delete_link auth authorization id w
        = (Returns (json (Message "Share link deleted")), w')
        /\ rows w' = rows w).
Proof.
  intros Hadmin Hup Hother.
  pose proof (owned_none id user (rows w) Hother) as Hnone.
  unfold patch_deactivate, delete_link, try_catch. rewrite Hadmin.
  unfold deactivateShareLink, deleteShareLink, update_where, delete_where, bind.
  destruct (query_fails_cases w) as [(_ & w1 & Hq & Hrows & _)
                                    |(Hbad & _)]; [|congruence].
  rewrite Hq. cbn. rewrite Hrows. split.
  - eexists. split; [reflexivity|]. cbn [rows with_rows].
    now apply map_unaffected.
  - eexists. split; [reflexivity|]. cbn [rows with_rows].
    now apply filter_unaffected.
Qed.

Lemma routes_report_success_when_nothing_changed_witness :
  (exists w',
     patch_deactivate sample_auth (Some "Bearer t0k3n-mallory") 0 sample_world
     = (Returns (json (Message "Share link deactivated")), w')
     /\ rows w' = rows sample_world)
  /\ (exists w',
        delete_link sample_auth (Some "Bearer t0k3n-mallory") 0 sample_world
        = (Returns (json (Message "Share link deleted")), w')
        /\ rows w' = rows sample_world).
Proof.
  apply (routes_report_success_when_nothing_changed
           sample_auth (Some "Bearer t0k3n-mallory") 0 "mallory" sample_world).
  - reflexivity.
  - reflexivity.
  - intros l [<-|[]] _. discriminate.
Defined.

Lemma percent_encoded_safe c :
  Js.all_chars (fun c => unreserved c || Ascii.eqb c "%") (percent_encoded c) = true.
Proof. destruct c as [[] [] [] [] [] [] [] []]; reflexivity. Qed.

Lemma safe_is_printable c :
  unreserved c || Ascii.eqb c "%" = true ->
  negb (Ascii.eqb c (ascii_of_nat 34)) && negb (Ascii.eqb c (ascii_of_nat 92))
  && (32 <? nat_of_ascii c)%nat && (nat_of_ascii c <? 127)%nat = true.
Proof. destruct c as [[] [] [] [] [] [] [] []]; cbn; intros E; (reflexivity || discriminate). Qed.

(** X16.  The file name [encodeURIComponent] leaves for the
    [Content-Disposition] header holds only letters, digits, the signs
    [- _ . ! ~ * ' ( )] and the percent sign: no double quote, no
    backslash, no control character and no byte outside of ASCII.  A name
    made of letters, digits and these signs is left as it is. *)
Theorem encoded_file_name_is_header_safe s :
  Js.all_chars (fun c => unreserved c || Ascii.eqb c "%") (encodeURIComponent s) = true
  /\ Js.all_chars
       (fun c => negb (Ascii.eqb c (ascii_of_nat 34))
                 && negb (Ascii.eqb c (ascii_of_nat 92))
                 && (32 <? nat_of_ascii c)%nat && (nat_of_ascii c <? 127)%nat)
       (encodeURIComponent s) = true
  /\ (Js.all_chars unreserved s = true -> encodeURIComponent s = s).
Proof.
  induction s as [|c s (IH1 & IH2 & IH3)]; [now repeat split|].
  cbn [encodeURIComponent].
  assert (Hc : Js.all_chars (fun c => unreserved c || Ascii.eqb c "%")
                 (if unreserved c then String c "" else percent_encoded c) = true).
  { destruct (unreserved c) eqn:E; [cbn; now rewrite E|apply percent_encoded_safe]. }
  split; [|split].
  - now rewrite JsFacts.all_chars_append, Hc, IH1.
  - rewrite JsFacts.all_chars_append, IH2, andb_true_r.
    revert Hc. generalize (if unreserved c then String c "" else percent_encoded c).
    intros t. induction t as [|d t IHt]; [reflexivity|]. cbn [Js.all_chars].
    intros Hd. apply andb_prop in Hd. destruct Hd as [Hd Ht].
    now rewrite (safe_is_printable d Hd), IHt.
  - cbn [Js.all_chars]. intros Hs. apply andb_prop in Hs. destruct Hs as [Hu Hs].
    rewrite Hu. cbn [append]. now rewrite IH3.
Qed.

End ShareRouteFacts.

(** ** The remote storage clients *)

Module StorageFacts.

Import Remote.

(** *** Connections *)

Lemma O2_run_app t1 t2 s :
  O2SwitchStorage.run (t1 ++ t2) s = O2SwitchStorage.run t2 (O2SwitchStorage.run t1 s).
Proof. apply fold_left_app. Qed.

Lemma Admin_run_app t1 t2 s :
  AdminStorageClient.run (t1 ++ t2) s
  = AdminStorageClient.run t2 (AdminStorageClient.run t1 s).
Proof. apply fold_left_app. Qed.

(** Calls alone never set [connected]. *)
Lemma Admin_calls_keep_disconnected callers s :
  AdminStorageClient.connected s = false ->
  AdminStorageClient.connected
    (AdminStorageClient.run (map Call callers) s) = false
  /\ AdminStorageClient.attempts (AdminStorageClient.run (map Call callers) s)
     = (AdminStorageClient.attempts s + List.length callers)%nat
  /\ map snd (AdminStorageClient.awaiting
                (AdminStorageClient.run (map Call callers) s))
     = (rev (seq (AdminStorageClient.attempts s) (List.length callers))
        ++ map snd (AdminStorageClient.awaiting s))%list.
Proof.
  revert s. induction callers as [|c callers IH]; intros s Hs.
  - cbn. rewrite Nat.add_0_r. auto.
  - unfold AdminStorageClient.run in *.
    cbn [map fold_left AdminStorageClient.step].
    assert (Hstep : AdminStorageClient.connect c s
                    = {| AdminStorageClient.connected := false;
                         AdminStorageClient.attempts := S (AdminStorageClient.attempts s);
                         AdminStorageClient.awaiting :=
                           (c, AdminStorageClient.attempts s)
                             :: AdminStorageClient.awaiting s;
                         AdminStorageClient.replies := AdminStorageClient.replies s |}).
    { unfold AdminStorageClient.connect. now rewrite Hs. }
    rewrite Hstep.
    match goal with
    | |- context [fold_left _ _ ?st] =>
        destruct (IH st eq_refl) as (H1 & H2 & H3)
    end.
    split; [exact H1|]. split.
    + rewrite H2. cbn. lia.
    + rewrite H3. cbn [AdminStorageClient.attempts AdminStorageClient.awaiting
        map snd List.length seq rev].
      now rewrite <- app_assoc.
Qed.

(** Once a first call has started the handshake, further calls await it. *)
Lemma O2_calls_while_connecting callers s a :
  O2SwitchStorage.connected s = false ->
  O2SwitchStorage.connecting s = Some a ->
  let s' := O2SwitchStorage.run (map Call callers) s in
  O2SwitchStorage.connected s' = false
  /\ O2SwitchStorage.connecting s' = Some a
  /\ O2SwitchStorage.attempts s' = O2SwitchStorage.attempts s
  /\ O2SwitchStorage.replies s' = O2SwitchStorage.replies s
  /\ O2SwitchStorage.awaiting s'
     = (map (fun c => (c, a)) (rev callers) ++ O2SwitchStorage.awaiting s)%list.
Proof.
  revert s. induction callers as [|c callers IH]; intros s Hc Hi; cbn zeta.
  - cbn. auto.
  - unfold O2SwitchStorage.run in *.
    cbn [map fold_left O2SwitchStorage.step].
    assert (Hstep : O2SwitchStorage.connect c s
                    = {| O2SwitchStorage.connected := false;
                         O2SwitchStorage.connecting := Some a;
                         O2SwitchStorage.attempts := O2SwitchStorage.attempts s;
                         O2SwitchStorage.awaiting := (c, a) :: O2SwitchStorage.awaiting s;
                         O2SwitchStorage.replies := O2SwitchStorage.replies s |}).
    { unfold O2SwitchStorage.connect. now rewrite Hc, Hi. }
    rewrite Hstep.
    match goal with
    | |- context [fold_left _ _ ?st] =>
        destruct (IH st eq_refl eq_refl) as (H1 & H2 & H3 & H4 & H5)
    end.
    repeat split; try assumption.
    rewrite H5. cbn [O2SwitchStorage.awaiting rev]. rewrite map_app. cbn.
    now rewrite <- app_assoc.
Qed.

(** Any number of callers before the handshake finishes: one attempt. *)
Lemma O2_connect_deduplicated c callers s :
  O2SwitchStorage.connected s = false ->
  O2SwitchStorage.connecting s = None ->
  let s' := O2SwitchStorage.run (map Call (c :: callers)) s in
  O2SwitchStorage.attempts s' = S (O2SwitchStorage.attempts s)
  /\ O2SwitchStorage.connecting s' = Some (O2SwitchStorage.attempts s)
  /\ O2SwitchStorage.awaiting s'
     = (map (fun c => (c, O2SwitchStorage.attempts s)) (rev (c :: callers))
        ++ O2SwitchStorage.awaiting s)%list.
Proof.
  intros Hc Hi. cbn zeta. unfold O2SwitchStorage.run.
  cbn [map fold_left O2SwitchStorage.step].
  assert (Hstep : O2SwitchStorage.connect c s
                  = {| O2SwitchStorage.connected := false;
                       O2SwitchStorage.connecting := Some (O2SwitchStorage.attempts s);
                       O2SwitchStorage.attempts := S (O2SwitchStorage.attempts s);
                       O2SwitchStorage.awaiting :=
                         (c, O2SwitchStorage.attempts s) :: O2SwitchStorage.awaiting s;
                       O2SwitchStorage.replies := O2SwitchStorage.replies s |}).
  { unfold O2SwitchStorage.connect. now rewrite Hc, Hi. }
  rewrite Hstep.
  match goal with
  | |- context [fold_left _ _ ?st] =>
      destruct (O2_calls_while_connecting callers st (O2SwitchStorage.attempts s)
                  eq_refl eq_refl) as (_ & H2 & H3 & _ & H5)
  end.
  unfold O2SwitchStorage.run in *.
  repeat split; try assumption.
  rewrite H5. cbn [O2SwitchStorage.awaiting rev]. rewrite map_app. cbn.
  now rewrite <- app_assoc.
Qed.

(** Already connected: the call returns at once and starts nothing. *)
Lemma O2_connect_idempotent c s :
  O2SwitchStorage.connected s = true ->
  let s' := O2SwitchStorage.connect c s in
  O2SwitchStorage.attempts s' = O2SwitchStorage.attempts s
  /\ O2SwitchStorage.connected s' = true
  /\ O2SwitchStorage.connecting s' = O2SwitchStorage.connecting s
  /\ O2SwitchStorage.awaiting s' = O2SwitchStorage.awaiting s
  /\ O2SwitchStorage.replies s' = Resolved c :: O2SwitchStorage.replies s.
Proof. intros Hc. unfold O2SwitchStorage.connect. rewrite Hc. cbn. auto. Qed.

(** A failed handshake clears [connected] and [connecting] and rejects
    every caller that awaited it. *)
Lemma O2_failure_resets s a :
  O2SwitchStorage.connecting s = Some a ->
  let s' := O2SwitchStorage.settle a false s in
  O2SwitchStorage.connected s' = false
  /\ O2SwitchStorage.connecting s' = None
  /\ forall c, In (c, a) (O2SwitchStorage.awaiting s) ->
               In (Rejected c) (O2SwitchStorage.replies s').
Proof.
  intros Hi. unfold O2SwitchStorage.settle. rewrite Hi, Nat.eqb_refl. cbn.
  repeat split. intros c Hin. apply in_or_app. left.
  apply in_map_iff. exists (c, a). split; [reflexivity|].
  apply filter_In. split; [exact Hin|]. cbn. apply Nat.eqb_refl.
Qed.

Lemma O2_step_consistent s e :
  O2SwitchStorage.consistent s -> O2SwitchStorage.consistent (O2SwitchStorage.step s e).
Proof.
  unfold O2SwitchStorage.consistent. destruct e as [c|a ok]; cbn [O2SwitchStorage.step].
  - unfold O2SwitchStorage.connect.
    destruct (O2SwitchStorage.connected s) eqn:Hc.
    + cbn. now destruct (O2SwitchStorage.connecting s).
    + destruct (O2SwitchStorage.connecting s) as [a|] eqn:Hi; cbn.
      * intros (_ & Ha & _ & Hall). repeat split; auto; [discriminate|].
        intros ca [<-|Hin]; [reflexivity|now apply Hall].
      * intros Hnil. rewrite Hnil. repeat split; [discriminate|].
        intros ca [<-|[]]. reflexivity.
  - unfold O2SwitchStorage.settle.
    destruct (O2SwitchStorage.connecting s) as [a'|] eqn:Hi; [|now rewrite Hi].
    destruct (Nat.eqb_spec a' a) as [->|Hne]; [|now rewrite Hi].
    cbn. intros (_ & _ & _ & Hall).
    induction (O2SwitchStorage.awaiting s) as [|ca rest IH]; [reflexivity|].
    cbn. rewrite (Hall ca) by now left. rewrite Nat.eqb_refl. cbn.
    apply IH. intros ca' Hin. apply Hall. now right.
Qed.

Lemma O2_run_consistent trace s :
  O2SwitchStorage.consistent s -> O2SwitchStorage.consistent (O2SwitchStorage.run trace s).
Proof.
  revert s. induction trace as [|e trace IH]; intros s Hs; [exact Hs|].
  cbn. apply IH. now apply O2_step_consistent.
Qed.

(** Whatever the callers and the handshakes do, [O2SwitchStorage] never has
    two handshakes in flight. *)
Lemma O2_one_handshake_in_flight trace :
  (List.length (O2SwitchStorage.in_flight
                  (O2SwitchStorage.run trace O2SwitchStorage.initial)) <= 1)%nat.
Proof.
  pose proof (O2_run_consistent trace O2SwitchStorage.initial eq_refl) as Hinv.
  unfold O2SwitchStorage.consistent in Hinv. unfold O2SwitchStorage.in_flight.
  destruct (O2SwitchStorage.connecting _) as [a|].
  - destruct Hinv as (_ & _ & _ & Hall).
    induction (O2SwitchStorage.awaiting _) as [|ca rest IH]; [cbn; lia|].
    cbn [map nodup]. destruct (in_dec Nat.eq_dec (snd ca) (map snd rest)) as [|Hn].
    + apply IH. intros ca' Hin. apply Hall. now right.
    + destruct rest as [|cb rest']; [cbn; lia|].
      exfalso. apply Hn. left.
      rewrite (Hall ca) by now left. apply Hall. right. now left.
  - rewrite Hinv. cbn. lia.
Qed.

(** C2.  [connect()] is de-duplicated on [O2SwitchStorage] only.  Callers
    that invoke [connect()] on a fresh client before any handshake has
    finished start one handshake on [O2SwitchStorage], whatever their
    number, and one handshake each on [AdminStorageClient], which has no
    in-flight guard. *)
Theorem concurrent_connect_handshakes (callers : list nat) :
  O2SwitchStorage.attempts
    (O2SwitchStorage.run (map Call callers) O2SwitchStorage.initial)
  = Nat.min 1 (List.length callers)
  /\ AdminStorageClient.attempts
       (AdminStorageClient.run (map Call callers) AdminStorageClient.initial)
     = List.length callers
  /\ List.length (AdminStorageClient.in_flight
               (AdminStorageClient.run (map Call [1; 2]%nat)
                  AdminStorageClient.initial)) = 2%nat.
Proof.
  split; [|split].
  - destruct callers as [|c callers]; [reflexivity|].
    now destruct (O2_connect_deduplicated c callers O2SwitchStorage.initial
                    eq_refl eq_refl) as (-> & _).
  - now destruct (Admin_calls_keep_disconnected callers AdminStorageClient.initial
                    eq_refl) as (_ & -> & _).
  - reflexivity.
Qed.

(** *** Every interleaving *)

Lemma O2_initial_consistent : O2SwitchStorage.consistent O2SwitchStorage.initial.
Proof. reflexivity. Qed.

(** X20.  Whatever the interleaving of [connect()] calls and handshakes
    that finish, [O2SwitchStorage] has at most one handshake in flight;
    nobody waits unless one is, nobody waits on a connected client, and
    whoever waits, waits for the latest attempt. *)
Theorem one_handshake_whatever_the_interleaving (trace : list Event) :
  let s := O2SwitchStorage.run trace O2SwitchStorage.initial in
  (List.length (O2SwitchStorage.in_flight s) <= 1)%nat
  /\ (O2SwitchStorage.connecting s = None -> O2SwitchStorage.awaiting s = [])
  /\ (O2SwitchStorage.connected s = true -> O2SwitchStorage.awaiting s = [])
  /\ (forall c a, In (c, a) (O2SwitchStorage.awaiting s) ->
        O2SwitchStorage.connecting s = Some a
        /\ O2SwitchStorage.attempts s = S a).
Proof.
  intros s.
  pose proof (O2_run_consistent trace _ O2_initial_consistent) as Hc. fold s in Hc.
  split; [apply O2_one_handshake_in_flight|].
  unfold O2SwitchStorage.consistent in Hc.
  destruct (O2SwitchStorage.connecting s) as [a|].
  - destruct Hc as (Hconn & Hatt & _ & Hall). split; [discriminate|].
    split; [congruence|]. intros c a' Hin. specialize (Hall _ Hin). cbn in Hall.
    subst a'. now split.
  - split; [intros _; exact Hc|]. split; [intros _; exact Hc|].
    intros c a Hin. rewrite Hc in Hin. contradiction.
Qed.

(** X21.  When the handshake in flight finishes, every caller that waited
    is answered with its outcome and nobody is left waiting.  After a
    success the next [connect()] returns at once without a new attempt;
    after a failure the next [connect()] starts a new attempt. *)
Theorem handshake_outcome_reaches_every_caller (trace : list Event) a ok :
  let s := O2SwitchStorage.run trace O2SwitchStorage.initial in
  O2SwitchStorage.connecting s = Some a ->
  let s' := O2SwitchStorage.settle a ok s in
  O2SwitchStorage.awaiting s' = []
  /\ O2SwitchStorage.connected s' = ok
  /\ O2SwitchStorage.connecting s' = None
  /\ O2SwitchStorage.replies s'
     = (map (fun ca => reply_to ok (fst ca)) (O2SwitchStorage.awaiting s)
        ++ O2SwitchStorage.replies s)%list
  /\ O2SwitchStorage.awaiting s <> []
  /\ forall c,
       let s'' := O2SwitchStorage.connect c s' in
       if ok
       then O2SwitchStorage.replies s'' = Resolved c :: O2SwitchStorage.replies s'
            /\ O2SwitchStorage.attempts s'' = O2SwitchStorage.attempts s
            /\ O2SwitchStorage.connecting s'' = None
       else O2SwitchStorage.connecting s'' = Some (O2SwitchStorage.attempts s)
            /\ O2SwitchStorage.attempts s'' = S (O2SwitchStorage.attempts s)
            /\ O2SwitchStorage.awaiting s'' = [(c, O2SwitchStorage.attempts s)].
Proof.
  intros s Hconn s'.
  pose proof (O2_run_consistent trace _ O2_initial_consistent) as Hc. fold s in Hc.
  unfold O2SwitchStorage.consistent in Hc. rewrite Hconn in Hc.
  destruct Hc as (Hnot & Hatt & Hne & Hall).
  assert (Hsame : forall l, (forall ca, In ca l -> snd ca = a) ->
            filter (fun ca : nat * nat => (snd ca =? a)%nat) l = l
            /\ filter (fun ca : nat * nat => negb (snd ca =? a)%nat) l = []).
  { induction l as [|ca l IH]; intros Hl; [now split|].
    cbn [filter]. rewrite (Hl ca (or_introl eq_refl)), Nat.eqb_refl. cbn [negb].
    destruct IH as [-> ->]; [|now split]. intros x Hx. apply Hl. now right. }
  destruct (Hsame _ Hall) as [Hkeep Hdrop].
  subst s'. unfold O2SwitchStorage.settle. rewrite Hconn, Nat.eqb_refl.
  cbn [O2SwitchStorage.awaiting O2SwitchStorage.connected
       O2SwitchStorage.connecting O2SwitchStorage.replies].
  rewrite Hkeep, Hdrop.
  repeat (split; [reflexivity || exact Hne|]).
  intros c. unfold O2SwitchStorage.connect.
  cbn [O2SwitchStorage.awaiting O2SwitchStorage.connected
       O2SwitchStorage.connecting O2SwitchStorage.replies O2SwitchStorage.attempts].
  destruct ok; cbn; repeat split.
Qed.

Lemma handshake_outcome_reaches_every_caller_witness :
  let s := O2SwitchStorage.run [Call 1; Call 2] O2SwitchStorage.initial in
  let s' := O2SwitchStorage.settle 0 false s in
  O2SwitchStorage.awaiting s' = []
  /\ O2SwitchStorage.connected s' = false
  /\ O2SwitchStorage.connecting s' = None
  /\ O2SwitchStorage.replies s'
     = (map (fun ca => reply_to false (fst ca)) (O2SwitchStorage.awaiting s)
        ++ O2SwitchStorage.replies s)%list
  /\ O2SwitchStorage.awaiting s <> []
  /\ forall c,
       let s'' := O2SwitchStorage.connect c s' in
       O2SwitchStorage.connecting s'' = Some (O2SwitchStorage.attempts s)
       /\ O2SwitchStorage.attempts s'' = S (O2SwitchStorage.attempts s)
       /\ O2SwitchStorage.awaiting s'' = [(c, O2SwitchStorage.attempts s)].
Proof.
  apply (handshake_outcome_reaches_every_caller [Call 1; Call 2] 0 false).
  reflexivity.
Defined.

End StorageFacts.

(** ** Paths *)

Module PathFacts.

Import NodePath.
Local Open Scope string_scope.

Lemma append_assoc (a b c : string) : (a ++ b) ++ c = a ++ (b ++ c).
Proof. induction a as [|x a IH]; cbn; [reflexivity|now rewrite IH]. Qed.

Lemma append_nil_r (a : string) : a ++ "" = a.
Proof. induction a as [|x a IH]; cbn; [reflexivity|now rewrite IH]. Qed.

Lemma prefix_append (a b : string) : String.prefix a (a ++ b) = true.
Proof.
  induction a as [|x a IH]; cbn; [now destruct b|].
  destruct (ascii_dec x x); [exact IH|contradiction].
Qed.

Lemma segments_nonempty path : segments path <> [].
Proof.
  induction path as [|c rest IH]; cbn; [discriminate|].
  destruct (Ascii.eqb c "/"); [discriminate|].
  destruct (segments rest); [contradiction|discriminate].
Qed.

Lemma segments_no_slash path : Forall (fun seg => no_slash seg = true) (segments path).
Proof.
  induction path as [|c rest IH]; cbn; [repeat constructor|].
  destruct (Ascii.eqb c "/") eqn:E; [constructor; [reflexivity|exact IH]|].
  destruct (segments rest) as [|seg more]; [repeat constructor; cbn; now rewrite E|].
  inversion IH; subst. constructor; [cbn; now rewrite E|assumption].
Qed.

Lemma segments_plain_word s : no_slash s = true -> segments s = [s].
Proof.
  induction s as [|c rest IH]; cbn; [reflexivity|].
  intros H. apply andb_prop in H. destruct H as [Hc Hr].
  apply negb_true_iff in Hc. rewrite Hc, (IH Hr). reflexivity.
Qed.

Lemma segments_app_slash a b :
  segments (a ++ "/" ++ b) = (segments a ++ segments b)%list.
Proof.
  change ("/" ++ b) with (String "/" b).
  induction a as [|c rest IH]; cbn.
  - reflexivity.
  - rewrite IH. destruct (Ascii.eqb c "/"); [reflexivity|].
    pose proof (segments_nonempty rest) as Hne.
    destruct (segments rest); [contradiction|reflexivity].
Qed.

Lemma segments_join l :
  l <> [] -> Forall (fun seg => no_slash seg = true) l ->
  segments (Js.join "/" l) = l.
Proof.
  induction l as [|x l IH]; [contradiction|]. intros _ Hall.
  inversion Hall as [|? ? Hx Hl]; subst.
  destruct l as [|y l].
  - cbn. now apply segments_plain_word.
  - change (Js.join "/" (x :: y :: l)) with (x ++ "/" ++ Js.join "/" (y :: l)).
    rewrite segments_app_slash, (segments_plain_word x Hx), IH; [reflexivity|discriminate|assumption].
Qed.

Lemma normalizeSegments_plain allow l1 l2 kept :
  Forall (fun seg => plain seg = true) l1 ->
  normalizeSegments allow (l1 ++ l2) kept
  = normalizeSegments allow l2 (rev l1 ++ kept).
Proof.
  revert kept. induction l1 as [|seg l1 IH]; intros kept Hall; [reflexivity|].
  inversion Hall as [|? ? Hseg Hl]; subst.
  unfold plain in Hseg. 
  apply andb_prop in Hseg. destruct Hseg as [Hseg H3].
  apply andb_prop in Hseg. destruct Hseg as [Hseg H2].
  apply andb_prop in Hseg. destruct Hseg as [_ H1].
  apply negb_true_iff in H1, H2, H3.
  cbn [app normalizeSegments]. rewrite H1, H2, H3. cbn [orb].
  rewrite IH by assumption. cbn [rev]. now rewrite <- app_assoc.
Qed.

Lemma normalizeSegments_false_plain segs kept :
  Forall (fun seg => no_slash seg = true) segs ->
  Forall (fun seg => plain seg = true) kept ->
  Forall (fun seg => plain seg = true) (normalizeSegments false segs kept).
Proof.
  revert kept. induction segs as [|seg segs IH]; intros kept Hsegs Hkept.
  - cbn. now apply Forall_rev.
  - inversion Hsegs as [|? ? Hseg Hrest]; subst. cbn [normalizeSegments].
    destruct (seg =? "") eqn:E1; [now apply IH|].
    destruct (seg =? ".") eqn:E2; [now apply IH|]. cbn [orb].
    destruct (seg =? "..") eqn:E3.
    + destruct kept as [|last before]; [now apply IH|].
      inversion Hkept; subst.
      destruct (last =? ".."); now apply IH.
    + apply IH; [assumption|]. constructor; [|assumption].
      unfold plain. now rewrite Hseg, E1, E2, E3.
Qed.

Lemma join_nil_iff l :
  Forall (fun seg => plain seg = true) l -> Js.join "/" l = "" -> l = [].
Proof.
  destruct l as [|x l]; [reflexivity|]. intros Hall Hj. exfalso.
  inversion Hall as [|? ? Hx _]; subst.
  unfold plain in Hx. destruct x as [|c x]; [now rewrite andb_false_r in Hx|].
  destruct l; cbn in Hj; discriminate.
Qed.

Lemma join_app l1 l2 :
  l1 <> [] -> l2 <> [] ->
  Js.join "/" (l1 ++ l2) = Js.join "/" l1 ++ "/" ++ Js.join "/" l2.
Proof.
  induction l1 as [|x l1 IH]; [contradiction|]. intros _ H2.
  destruct l1 as [|y l1].
  - cbn [app]. destruct l2; [contradiction|reflexivity].
  - change (Js.join "/" ((x :: y :: l1) ++ l2))
      with (x ++ "/" ++ Js.join "/" ((y :: l1) ++ l2)).
    rewrite IH by (discriminate || assumption).
    change (Js.join "/" (x :: y :: l1)) with (x ++ "/" ++ Js.join "/" (y :: l1)).
    now rewrite !append_assoc.
Qed.

Lemma endsWithSlash_app a b : b <> "" -> endsWithSlash (a ++ b) = endsWithSlash b.
Proof.
  intros Hb. induction a as [|c a IH]; [reflexivity|].
  cbn [append endsWithSlash]. rewrite IH.
  destruct (a ++ b) eqn:E; [|reflexivity].
  destruct a; cbn in E; [contradiction|discriminate].
Qed.

Lemma endsWithSlash_no_slash s : no_slash s = true -> endsWithSlash s = false.
Proof.
  induction s as [|c s IH]; [reflexivity|]. cbn [no_slash endsWithSlash].
  intros H. apply andb_prop in H. destruct H as [Hc Hs].
  apply negb_true_iff in Hc. destruct s; [exact Hc|now apply IH].
Qed.

Lemma plain_no_slash seg : plain seg = true -> no_slash seg = true /\ seg <> "".
Proof.
  unfold plain. intros H.
  apply andb_prop in H. destruct H as [H _].
  apply andb_prop in H. destruct H as [H _].
  apply andb_prop in H. destruct H as [H1 H2].
  split; [exact H1|]. apply negb_true_iff in H2. now apply String.eqb_neq.
Qed.

Lemma Forall_plain_no_slash l :
  Forall (fun seg => plain seg = true) l -> Forall (fun seg => no_slash seg = true) l.
Proof. apply Forall_impl. intros seg H. now apply plain_no_slash. Qed.

Lemma endsWithSlash_join l :
  l <> [] -> Forall (fun seg => plain seg = true) l ->
  endsWithSlash (Js.join "/" l) = false /\ Js.join "/" l <> "".
Proof.
  induction l as [|x l IH]; [contradiction|]. intros _ Hall.
  inversion Hall as [|? ? Hx Hl]; subst.
  destruct (plain_no_slash x Hx) as [Hns Hne].
  destruct l as [|y l].
  - cbn. split; [now apply endsWithSlash_no_slash|exact Hne].
  - change (Js.join "/" (x :: y :: l)) with (x ++ "/" ++ Js.join "/" (y :: l)).
    destruct IH as [IH1 IH2]; [discriminate|assumption|].
    split.
    + rewrite endsWithSlash_app by discriminate.
      change ("/" ++ Js.join "/" (y :: l)) with (String "/" (Js.join "/" (y :: l))).
      cbn [endsWithSlash]. destruct (Js.join "/" (y :: l)); [contradiction|exact IH1].
    + destruct x; [contradiction|discriminate].
Qed.

Lemma normalize_absolute r :
  let ks := normalizeSegments false (segments r) [] in
  normalize (String "/" r)
  = match ks with
    | [] => "/"
    | _ => "/" ++ Js.join "/" ks ++ (if endsWithSlash (String "/" r) then "/" else "")
    end.
Proof.
  intros ks. unfold normalize. cbn [String.eqb Js.startsWith String.prefix negb].
  destruct (ascii_dec "/" "/") as [_|]; [|contradiction].
  replace (String.prefix "" r) with true by now destruct r.
  unfold normalizeString. cbn [segments Ascii.eqb Bool.eqb negb].
  change (Ascii.eqb "/" "/") with true. cbn iota.
  cbn [normalizeSegments String.eqb orb]. fold ks.
  assert (Hks : Forall (fun seg => plain seg = true) ks).
  { apply normalizeSegments_false_plain; [apply segments_no_slash|constructor]. }
  destruct ks as [|k ks'] eqn:E.
  - reflexivity.
  - destruct (String.eqb_spec (Js.join "/" (k :: ks')) "") as [Hj|Hj].
    + apply join_nil_iff in Hj; [discriminate|assumption].
    + destruct (endsWithSlash (String "/" r)); [reflexivity|].
      now rewrite append_nil_r.
Qed.

Lemma normalizeSegments_all_plain allow l kept :
  Forall (fun seg => plain seg = true) l ->
  normalizeSegments allow l kept = (rev kept ++ l)%list.
Proof.
  intros Hall. rewrite <- (app_nil_r l) at 1.
  rewrite normalizeSegments_plain by assumption. cbn [normalizeSegments].
  now rewrite rev_app_distr, rev_involutive.
Qed.

Lemma normalize_base segs :
  segs <> [] -> Forall (fun seg => plain seg = true) segs ->
  normalize (absolute_of segs) = absolute_of segs.
Proof.
  intros Hne Hall. unfold absolute_of.
  change ("/" ++ Js.join "/" segs) with (String "/" (Js.join "/" segs)).
  rewrite normalize_absolute.
  rewrite segments_join by (assumption || now apply Forall_plain_no_slash).
  rewrite normalizeSegments_all_plain by assumption. cbn [rev app].
  destruct segs as [|x l]; [contradiction|].
  destruct (endsWithSlash_join (x :: l)) as [He Hj]; [discriminate|assumption|].
  assert (Ht : endsWithSlash (String "/" (Js.join "/" (x :: l))) = false).
  { cbn [endsWithSlash]. destruct (Js.join "/" (x :: l)); [contradiction|exact He]. }
  rewrite Ht. now rewrite append_nil_r.
Qed.

Lemma within_below base rest : Remote.within base (base ++ "/" ++ rest) = true.
Proof.
  unfold Remote.within, Js.startsWith.
  rewrite <- append_assoc, prefix_append. apply orb_true_r.
Qed.

Lemma within_self base : Remote.within base base = true.
Proof. unfold Remote.within. now rewrite String.eqb_refl. Qed.

Theorem getFullPath_absolute_within segs rel :
  segs <> [] -> Forall (fun seg => plain seg = true) segs ->
  Js.startsWith rel "/" = true ->
  Remote.within (absolute_of segs)
    (AdminStorageClient.getFullPath (absolute_of segs) rel) = true.
Proof.
  intros Hne Hall Habs.
  destruct rel as [|c r]; [discriminate|].
  unfold Js.startsWith in Habs. cbn [String.prefix] in Habs.
  destruct (ascii_dec "/" c) as [<-|]; [|discriminate]. clear Habs.
  unfold AdminStorageClient.getFullPath. rewrite normalize_absolute.
  set (ks := normalizeSegments false (segments r) []).
  assert (Hks : Forall (fun seg => plain seg = true) ks).
  { apply normalizeSegments_false_plain; [apply segments_no_slash|constructor]. }
  assert (Hbase : absolute_of segs <> "") by (unfold absolute_of; discriminate).
  destruct ks as [|k ks'] eqn:E.
  - cbn [Js.startsWith String.prefix Js.slice_from].
    destruct (ascii_dec "/" "/") as [_|]; [|contradiction].
    unfold join. cbn [filter].
    destruct (String.eqb_spec (absolute_of segs) ""); [contradiction|].
    destruct (String.eqb_spec "" ""); [|contradiction]. cbn [negb Js.join].
    rewrite normalize_base by assumption. apply within_self.
  - set (t := if endsWithSlash (String "/" r) then "/" else "").
    set (p := Js.join "/" (k :: ks')).
    change ("/" ++ p ++ t) with (String "/" (p ++ t)).
    cbn [Js.startsWith String.prefix Js.slice_from].
    destruct (ascii_dec "/" "/") as [_|]; [|contradiction].
    replace (String.prefix "" (p ++ t)) with true by now destruct (p ++ t).
    destruct (endsWithSlash_join (k :: ks')) as [Hpe Hpn]; [discriminate|assumption|].
    fold p in Hpe, Hpn.
    assert (Hpt : p ++ t <> "").
    { destruct p; [contradiction|discriminate]. }
    unfold join. cbn [filter].
    destruct (String.eqb_spec (absolute_of segs) ""); [contradiction|].
    destruct (String.eqb_spec (p ++ t) ""); [contradiction|]. cbn [negb].
    cbn [Js.join]. unfold absolute_of at 2.
    change (("/" ++ Js.join "/" segs) ++ "/" ++ p ++ t)
      with (String "/" (Js.join "/" segs ++ "/" ++ p ++ t)).
    rewrite normalize_absolute.
    rewrite segments_app_slash.
    rewrite segments_join by (assumption || now apply Forall_plain_no_slash).
    rewrite normalizeSegments_plain by assumption. rewrite app_nil_r.
    assert (Hseg : normalizeSegments false (segments (p ++ t)) (rev segs)
                   = (segs ++ k :: ks')%list).
    { assert (Hp : segments p = k :: ks').
      { apply segments_join; [discriminate|now apply Forall_plain_no_slash]. }
      subst t. destruct (endsWithSlash (String "/" r)).
      - replace (p ++ "/") with (p ++ "/" ++ "") by reflexivity.
        rewrite segments_app_slash, Hp. cbn [segments].
        rewrite normalizeSegments_plain by assumption.
        cbn [normalizeSegments String.eqb orb].
        now rewrite rev_app_distr, !rev_involutive.
      - rewrite append_nil_r, Hp.
        rewrite normalizeSegments_all_plain by assumption.
        now rewrite rev_involutive. }
    rewrite Hseg.
    destruct (segs ++ k :: ks')%list eqn:E2; [now destruct segs|]. rewrite <- E2.
    rewrite join_app by (assumption || discriminate). fold p.
    rewrite !append_assoc.
    match goal with
    | |- Remote.within _ ("/" ++ Js.join "/" segs ++ ?rest) = true =>
        change ("/" ++ Js.join "/" segs ++ rest) with (absolute_of segs ++ rest)
    end.
    apply within_below.
Qed.

(** The default base root is such a path. *)
Lemma default_base_plain :
  Remote.default_base = absolute_of ["home"; "faji2535"; "admin-files"]
  /\ Forall (fun seg => plain seg = true) ["home"; "faji2535"; "admin-files"].
Proof. split; [reflexivity|repeat constructor]. Qed.

(** *** Paths without a step upwards *)

Lemma normalizeSegments_no_dotdot allow l kept :
  forallb (fun seg => negb (seg =? "..")) l = true ->
  normalizeSegments allow l kept = (rev kept ++ filter kept_segment l)%list.
Proof.
  revert kept. induction l as [|seg l IH]; intros kept Hl.
  - cbn. now rewrite app_nil_r.
  - cbn [forallb] in Hl. apply andb_prop in Hl. destruct Hl as [Hseg Hl].
    apply negb_true_iff in Hseg. cbn [normalizeSegments filter]. unfold kept_segment at 1.
    destruct ((seg =? "") || (seg =? ".")) eqn:E; cbn [negb].
    + now apply IH.
    + rewrite Hseg, (IH _ Hl). cbn [rev]. now rewrite <- app_assoc.
Qed.

Lemma kept_segment_plain l :
  Forall (fun seg => no_slash seg = true) l ->
  forallb (fun seg => negb (seg =? "..")) l = true ->
  Forall (fun seg => plain seg = true) (filter kept_segment l).
Proof.
  induction l as [|seg l IH]; intros Hns Hl; [constructor|].
  inversion Hns as [|? ? Hs Hrest]; subst.
  cbn [forallb] in Hl. apply andb_prop in Hl. destruct Hl as [Hseg Hl].
  cbn [filter]. unfold kept_segment at 1.
  destruct ((seg =? "") || (seg =? ".")) eqn:E; cbn [negb]; [now apply IH|].
  constructor; [|now apply IH].
  apply orb_false_iff in E. destruct E as [E1 E2].
  unfold plain. now rewrite Hs, E1, E2, Hseg.
Qed.

Lemma within_slash base : Remote.within base (base ++ "/") = true.
Proof.
  rewrite <- (append_nil_r (base ++ "/")), append_assoc. apply within_below.
Qed.

Lemma join_base_within segs x :
  segs <> [] -> Forall (fun seg => plain seg = true) segs ->
  no_dotdot x = true ->
  Remote.within (absolute_of segs) (join [absolute_of segs; x]) = true.
Proof.
  intros Hne Hall Hx. unfold join. cbn [filter].
  assert (Hbase : absolute_of segs <> "") by (unfold absolute_of; discriminate).
  destruct (String.eqb_spec (absolute_of segs) ""); [contradiction|]. cbn [negb].
  destruct (String.eqb_spec x "") as [->|Hxn]; cbn [negb Js.join].
  - rewrite normalize_base by assumption. apply within_self.
  - unfold absolute_of at 2.
    change (("/" ++ Js.join "/" segs) ++ "/" ++ x)
      with (String "/" (Js.join "/" segs ++ "/" ++ x)).
    rewrite normalize_absolute.
    rewrite segments_app_slash.
    rewrite segments_join by (assumption || now apply Forall_plain_no_slash).
    rewrite normalizeSegments_plain by assumption. rewrite app_nil_r.
    rewrite normalizeSegments_no_dotdot by exact Hx.
    rewrite rev_involutive.
    set (extra := filter kept_segment (segments x)).
    set (t := if endsWithSlash _ then "/" else "").
    assert (Ht : t = "" \/ t = "/") by (subst t; destruct (endsWithSlash _); auto).
    destruct extra as [|e extra'] eqn:E.
    + rewrite app_nil_r. destruct segs as [|s segs']; [contradiction|].
      change ("/" ++ Js.join "/" (s :: segs') ++ t)
        with (absolute_of (s :: segs') ++ t).
      destruct Ht as [->| ->]; [rewrite append_nil_r; apply within_self|].
      apply within_slash.
    + destruct (segs ++ e :: extra')%list eqn:E2; [now destruct segs|]. rewrite <- E2.
      rewrite join_app by (assumption || discriminate).
      rewrite !append_assoc.
      match goal with
      | |- Remote.within _ ("/" ++ Js.join "/" segs ++ ?rest) = true =>
          change ("/" ++ Js.join "/" segs ++ rest) with (absolute_of segs ++ rest)
      end.
      apply within_below.
Qed.

Lemma plain_not_dotdot l :
  Forall (fun seg => plain seg = true) l ->
  forallb (fun seg => negb (seg =? "..")) l = true.
Proof.
  induction 1 as [|seg l Hseg _ IH]; [reflexivity|]. cbn [forallb]. rewrite IH.
  unfold plain in Hseg. apply andb_prop in Hseg. destruct Hseg as [_ Hseg].
  now rewrite Hseg.
Qed.

Lemma join_plain_first k ks :
  plain k = true -> Js.startsWith (Js.join "/" (k :: ks)) "/" = false.
Proof.
  intros Hk. destruct (plain_no_slash k Hk) as [Hns Hne].
  destruct k as [|c k']; [contradiction|].
  cbn [no_slash] in Hns. apply andb_prop in Hns. destruct Hns as [Hc _].
  apply negb_true_iff in Hc.
  assert (Hpre : forall rest, Js.startsWith (String c rest) "/" = false).
  { intros rest. unfold Js.startsWith. cbn [String.prefix].
    destruct (ascii_dec "/" c) as [<-|]; [discriminate|reflexivity]. }
  destruct ks; cbn [Js.join append]; apply Hpre.
Qed.

Lemma normalize_no_dotdot rel :
  no_dotdot rel = true ->
  no_dotdot (normalize rel) = true
  /\ (Js.startsWith rel "/" = false -> Js.startsWith (normalize rel) "/" = false).
Proof.
  intros Hrel. unfold normalize.
  destruct (String.eqb_spec rel ""); [now split|].
  unfold normalizeString. rewrite normalizeSegments_no_dotdot by exact Hrel.
  cbn [rev app].
  pose proof (kept_segment_plain (segments rel) (segments_no_slash rel) Hrel) as Hks.
  set (ks := filter kept_segment (segments rel)) in *.
  destruct ks as [|k ks'] eqn:E.
  - cbn [Js.join]. cbn [String.eqb].
    destruct (Js.startsWith rel "/"), (endsWithSlash rel); split;
      (reflexivity || discriminate).
  - destruct (endsWithSlash_join (k :: ks')) as [_ Hpn]; [discriminate|assumption|].
    destruct (String.eqb_spec (Js.join "/" (k :: ks')) ""); [contradiction|].
    assert (Hseg : segments (Js.join "/" (k :: ks')) = k :: ks').
    { apply segments_join; [discriminate|now apply Forall_plain_no_slash]. }
    assert (Hnd : forallb (fun seg => negb (seg =? "..")) (k :: ks') = true)
      by now apply plain_not_dotdot.
    assert (Hnd' : forallb (fun seg => negb (seg =? ".."))
                     ((k :: ks') ++ [""]) = true).
    { rewrite forallb_app, Hnd. reflexivity. }
    assert (Hk : plain k = true) by now inversion Hks.
    split.
    + unfold no_dotdot.
      destruct (endsWithSlash rel), (Js.startsWith rel "/").
      * change ("/" ++ Js.join "/" (k :: ks') ++ "/")
          with ("" ++ "/" ++ (Js.join "/" (k :: ks') ++ "/" ++ "")).
        rewrite !segments_app_slash, Hseg. exact Hnd'.
      * change (Js.join "/" (k :: ks') ++ "/")
          with (Js.join "/" (k :: ks') ++ "/" ++ "").
        rewrite segments_app_slash, Hseg. exact Hnd'.
      * change ("/" ++ Js.join "/" (k :: ks'))
          with ("" ++ "/" ++ Js.join "/" (k :: ks')).
        rewrite segments_app_slash, Hseg. exact Hnd.
      * rewrite Hseg. exact Hnd.
    + intros ->. destruct (endsWithSlash rel).
      * pose proof (join_plain_first k ks' Hk) as Hj.
        destruct (Js.join "/" (k :: ks')) as [|c j]; [contradiction|].
        unfold Js.startsWith in *. cbn [append String.prefix] in *.
        destruct (ascii_dec "/" c); [|reflexivity].
        destruct j; cbn in Hj; discriminate.
      * now apply join_plain_first.
Qed.

(** X17.  A relative path none of whose segments is [..] is resolved to
    the base root or to a path below it, by [path.join] on the base as the
    admin methods of [O2SwitchStorage] do it and by [getFullPath] of
    [AdminStorageClient]: empty segments, [.] segments and a leading or
    trailing separator do not lead out of the base. *)
Theorem paths_without_dotdot_stay_within_the_base segs rel :
  segs <> [] -> Forall (fun seg => plain seg = true) segs ->
  no_dotdot rel = true ->
  Remote.within (absolute_of segs)
    (O2SwitchStorage.downloadAdminFile_path (absolute_of segs) rel) = true
  /\ Remote.within (absolute_of segs)
       (AdminStorageClient.getFullPath (absolute_of segs) rel) = true.
Proof.
  intros Hne Hall Hrel. split.
  - now apply join_base_within.
  - destruct (Js.startsWith rel "/") eqn:Habs.
    + now apply getFullPath_absolute_within.
    + destruct (normalize_no_dotdot rel Hrel) as [Hnd Hstart].
      unfold AdminStorageClient.getFullPath. rewrite (Hstart Habs).
      now apply join_base_within.
Qed.

Lemma paths_without_dotdot_stay_within_the_base_witness :
  Remote.within (absolute_of ["home"; "faji2535"; "admin-files"])
    (O2SwitchStorage.downloadAdminFile_path
       (absolute_of ["home"; "faji2535"; "admin-files"]) "2024/./masters//set.wav")
  = true
  /\ Remote.within (absolute_of ["home"; "faji2535"; "admin-files"])
       (AdminStorageClient.getFullPath
          (absolute_of ["home"; "faji2535"; "admin-files"]) "2024/./masters//set.wav")
     = true.
Proof.
  apply (paths_without_dotdot_stay_within_the_base
           ["home"; "faji2535"; "admin-files"] "2024/./masters//set.wav").
  - discriminate.
  - repeat constructor.
  - reflexivity.
Defined.

End PathFacts.

(** *** Search and path resolution *)

Module SearchFacts.

Import NodePath Remote PathFacts SearchSpec.
Local Open Scope string_scope.

Lemma expected_node_dir lq prefix name sz entries :
  expected_node lq prefix name (Dir sz entries)
  = ((if Js.includes (Js.toLowerCase name) lq
      then [{| O2SwitchStorage.name := name; O2SwitchStorage.size := sz;
               O2SwitchStorage.type := "d";
               O2SwitchStorage.path := Js.join "/" (prefix ++ [name]) |}]
      else [])
     ++ expected lq (prefix ++ [name]) entries)%list.
Proof.
  cbn [expected_node]. f_equal.
  induction entries as [|[n nd] rest IH]; [reflexivity|].
  cbn [expected]. now rewrite IH.
Qed.

Lemma filter_nonempty_plain l :
  Forall (fun seg => plain seg = true) l ->
  filter (fun seg => negb (seg =? "")) l = l.
Proof.
  induction l as [|x l IH]; intros Hall; [reflexivity|].
  inversion Hall as [|? ? Hx Hl]; subst. cbn [filter].
  destruct (plain_no_slash x Hx) as [_ Hne].
  destruct (String.eqb_spec x ""); [contradiction|]. cbn [negb]. now rewrite IH.
Qed.

Lemma segments_of_dir dsegs t :
  dsegs <> [] -> Forall (fun seg => plain seg = true) dsegs ->
  t = "" \/ t = "/" ->
  filter (fun seg => negb (seg =? "")) (segments (absolute_of dsegs ++ t)) = dsegs.
Proof.
  intros Hne Hall Ht. unfold absolute_of.
  change (("/" ++ Js.join "/" dsegs) ++ t) with (String "/" (Js.join "/" dsegs ++ t)).
  cbn [segments]. change (Ascii.eqb "/" "/") with true. cbn iota.
  cbn [filter String.eqb negb].
  destruct Ht as [->| ->].
  - rewrite append_nil_r, segments_join by (assumption || now apply Forall_plain_no_slash).
    now apply filter_nonempty_plain.
  - replace (Js.join "/" dsegs ++ "/") with (Js.join "/" dsegs ++ "/" ++ "") by reflexivity.
    rewrite segments_app_slash, segments_join
      by (assumption || now apply Forall_plain_no_slash).
    rewrite filter_app, filter_nonempty_plain by assumption. cbn. apply app_nil_r.
Qed.

Lemma list_dir_of_dir root dsegs t :
  dsegs <> [] -> Forall (fun seg => plain seg = true) dsegs ->
  t = "" \/ t = "/" ->
  list_dir root (absolute_of dsegs ++ t)
  = match resolve dsegs root with
    | Some (Dir _ entries) => Some (map info entries)
    | _ => None
    end.
Proof.
  intros Hne Hall Ht. unfold list_dir. now rewrite segments_of_dir.
Qed.

Lemma join_dir_name dsegs t name :
  dsegs <> [] -> Forall (fun seg => plain seg = true) dsegs ->
  t = "" \/ t = "/" -> plain name = true ->
  join [absolute_of dsegs ++ t; name] = absolute_of (dsegs ++ [name]).
Proof.
  intros Hne Hall Ht Hname.
  destruct (plain_no_slash name Hname) as [Hns Hnn].
  unfold join. cbn [filter].
  assert (Ha : absolute_of dsegs ++ t <> "") by (unfold absolute_of; discriminate).
  destruct (String.eqb_spec (absolute_of dsegs ++ t) ""); [contradiction|].
  destruct (String.eqb_spec name ""); [contradiction|]. cbn [negb Js.join].
  unfold absolute_of at 1.
  replace ((("/" ++ Js.join "/" dsegs) ++ t) ++ "/" ++ name)
    with (String "/" (Js.join "/" dsegs ++ t ++ "/" ++ name))
    by (cbn; now rewrite !append_assoc).
  rewrite normalize_absolute.
  assert (Hall' : Forall (fun seg => plain seg = true) (dsegs ++ [name])).
  { apply Forall_app. split; [assumption|now constructor]. }
  assert (Hks : normalizeSegments false
                  (segments (Js.join "/" dsegs ++ t ++ "/" ++ name)) []
                = (dsegs ++ [name])%list).
  { destruct Ht as [->| ->].
    - cbn [append]. change (String "/" name) with ("/" ++ name).
      rewrite segments_app_slash, segments_join, (segments_plain_word name)
        by (assumption || now apply Forall_plain_no_slash).
      now rewrite normalizeSegments_all_plain.
    - rewrite segments_app_slash, segments_join
        by (assumption || now apply Forall_plain_no_slash).
      change ("/" ++ name) with ("" ++ "/" ++ name).
      rewrite segments_app_slash, (segments_plain_word name) by assumption.
      cbn [segments app]. rewrite normalizeSegments_plain by assumption.
      rewrite app_nil_r.
      change (normalizeSegments false ["" ; name] (rev dsegs))
        with (normalizeSegments false [name] (rev dsegs)).
      rewrite normalizeSegments_all_plain by now constructor.
      now rewrite rev_involutive. }
  rewrite Hks.
  assert (Hend : endsWithSlash (String "/" (Js.join "/" dsegs ++ t ++ "/" ++ name))
                 = false).
  { assert (Hre : String "/" (Js.join "/" dsegs ++ t ++ "/" ++ name)
                  = (String "/" (Js.join "/" dsegs ++ t ++ "/")) ++ name).
    { cbn. now rewrite !append_assoc. }
    rewrite Hre, endsWithSlash_app by assumption.
    now apply endsWithSlash_no_slash. }
  rewrite Hend, append_nil_r.
  destruct (dsegs ++ [name])%list eqn:E; [now destruct dsegs|]. reflexivity.
Qed.

Lemma slice_from_append a b : Js.slice_from (String.length a) (a ++ b) = b.
Proof. induction a as [|c a IH]; cbn; [now destruct b|exact IH]. Qed.

Lemma replace_first_prefix pat x rep :
  Js.replace_first (pat ++ x) pat rep = rep ++ x.
Proof.
  assert (H : Js.replace_first (pat ++ x) pat rep
              = if String.prefix pat (pat ++ x)
                then rep ++ Js.slice_from (String.length pat) (pat ++ x)
                else match pat ++ x with
                     | EmptyString => EmptyString
                     | String c rest => String c (Js.replace_first rest pat rep)
                     end).
  { now destruct (pat ++ x). }
  now rewrite H, prefix_append, slice_from_append.
Qed.

Lemma absolute_of_app segs rest :
  segs <> [] -> rest <> [] ->
  absolute_of (segs ++ rest) = absolute_of segs ++ "/" ++ Js.join "/" rest.
Proof.
  intros H1 H2. unfold absolute_of. rewrite join_app by assumption.
  now rewrite append_assoc.
Qed.

Lemma rel_path segs rest :
  segs <> [] -> rest <> [] ->
  O2SwitchStorage.strip_leading_slash
    (Js.replace_first (absolute_of (segs ++ rest)) (absolute_of segs) "")
  = Js.join "/" rest.
Proof.
  intros H1 H2. rewrite absolute_of_app, replace_first_prefix by assumption.
  unfold O2SwitchStorage.strip_leading_slash, Js.startsWith. cbn.
  destruct (ascii_dec "/" "/") as [_|]; [|contradiction].
  now destruct (Js.join "/" rest).
Qed.

Lemma resolve_app l1 l2 node :
  resolve (l1 ++ l2) node
  = match resolve l1 node with
    | Some n => resolve l2 n
    | None => None
    end.
Proof.
  revert node. induction l1 as [|seg l1 IH]; intros node; [reflexivity|].
  cbn [app resolve]. destruct node as [sz|sz entries]; [reflexivity|].
  destruct (child seg entries); [apply IH|reflexivity].
Qed.

Lemma child_absent n entries :
  existsb (String.eqb n) (map fst entries) = false -> child n entries = None.
Proof.
  induction entries as [|[m nd] rest IH]; [reflexivity|].
  cbn [map fst existsb child]. intros H. apply orb_false_iff in H.
  destruct H as [Hm Hrest]. rewrite String.eqb_sym, Hm. now apply IH.
Qed.

Lemma child_distinct entries n nd :
  distinct (map fst entries) = true -> In (n, nd) entries ->
  child n entries = Some nd.
Proof.
  induction entries as [|[m md] rest IH]; [contradiction|].
  cbn [map fst distinct child]. intros Hd Hin. apply andb_prop in Hd.
  destruct Hd as [Hm Hrest]. apply negb_true_iff in Hm.
  destruct Hin as [Heq|Hin].
  - injection Heq as -> ->. now rewrite String.eqb_refl.
  - destruct (String.eqb_spec m n) as [->|Hne]; [|now apply IH].
    exfalso. assert (Hex : existsb (String.eqb n) (map fst rest) = true).
    { apply existsb_exists. exists n. split; [|apply String.eqb_refl].
      apply in_map_iff. now exists (n, nd). }
    congruence.
Qed.

(** Facts about an entry of a well-formed directory. *)
Lemma well_formed_entry sz entries n nd :
  well_formed (Dir sz entries) = true -> In (n, nd) entries ->
  plain n = true /\ well_formed nd = true /\ child n entries = Some nd
  /\ (depth nd < depth (Dir sz entries))%nat.
Proof.
  cbn [well_formed depth]. intros Hwf Hin.
  apply andb_prop in Hwf. destruct Hwf as [Hwf Hall].
  apply andb_prop in Hwf. destruct Hwf as [Hplain Hdist].
  repeat split.
  - rewrite forallb_forall in Hplain. apply Hplain. apply in_map_iff. now exists (n, nd).
  - clear Hplain Hdist. induction entries as [|[m md] rest IH]; [contradiction|].
    apply andb_prop in Hall. destruct Hall as [Hm Hrest].
    destruct Hin as [Heq|Hin]; [now injection Heq as -> ->|now apply IH].
  - now apply child_distinct.
  - clear Hplain Hdist Hall. induction entries as [|[m md] rest IH]; [contradiction|].
    destruct Hin as [Heq|Hin]; [injection Heq as -> ->; lia|].
    specialize (IH Hin). lia.
Qed.

Lemma info_name n nd : name (info (n, nd)) = n.
Proof. now destruct nd. Qed.

Lemma not_dot n : plain n = true -> (n =? ".") || (n =? "..") = false.
Proof.
  unfold plain. intros H.
  apply andb_prop in H. destruct H as [H H3].
  apply andb_prop in H. destruct H as [_ H2].
  apply negb_true_iff in H2, H3. now rewrite H2, H3.
Qed.

Theorem searchDirectory_complete root segs lq :
  segs <> [] -> Forall (fun seg => plain seg = true) segs ->
  forall fuel rsegs t sz entries acc,
    Forall (fun seg => plain seg = true) rsegs ->
    t = "" \/ t = "/" ->
    resolve (segs ++ rsegs) root = Some (Dir sz entries) ->
    well_formed (Dir sz entries) = true ->
    (depth (Dir sz entries) <= fuel)%nat ->
    O2SwitchStorage.searchDirectory fuel root (absolute_of segs) lq
      (absolute_of (segs ++ rsegs) ++ t) acc
    = O2SwitchStorage.Found (acc ++ expected lq rsegs entries).
Proof.
  intros Hne Hsegs. induction fuel as [|fuel IH];
    intros rsegs t sz entries acc Hrsegs Ht Hres Hwf Hdepth.
  - cbn [depth] in Hdepth. lia.
  - assert (Hdne : (segs ++ rsegs)%list <> []) by now destruct segs.
    assert (Hdall : Forall (fun seg => plain seg = true) (segs ++ rsegs)).
    { apply Forall_app. now split. }
    cbn [O2SwitchStorage.searchDirectory].
    rewrite list_dir_of_dir, Hres by assumption.
    assert (Hsuffix : forall suffix acc,
               (forall n nd, In (n, nd) suffix -> In (n, nd) entries) ->
               O2SwitchStorage.for_of (map info suffix)
                 (fun item results =>
                    if (name item =? ".") || (name item =? "..")
                    then O2SwitchStorage.Found results
                    else
                      let itemPath :=
                        join [absolute_of (segs ++ rsegs) ++ t; name item] in
                      let relPath :=
                        O2SwitchStorage.strip_leading_slash
                          (Js.replace_first itemPath (absolute_of segs) "") in
                      let results0 :=
                        if Js.includes (Js.toLowerCase (name item)) lq
                        then (results
                              ++ [{| O2SwitchStorage.name := name item;
                                     O2SwitchStorage.size := size item;
                                     O2SwitchStorage.type :=
                                       if isDirectory item then "d" else "-";
                                     O2SwitchStorage.path := relPath |}])%list
                        else results in
                      if isDirectory item then
                        O2SwitchStorage.searchDirectory fuel root (absolute_of segs)
                          lq itemPath results0
                      else O2SwitchStorage.Found results0)
                 acc
               = O2SwitchStorage.Found (acc ++ expected lq rsegs suffix)).
    { induction suffix as [|[n nd] rest IHs]; intros acc' Hin.
      - cbn. now rewrite app_nil_r.
      - destruct (well_formed_entry sz entries n nd Hwf (Hin n nd (or_introl eq_refl)))
          as (Hplain & Hwfn & Hchild & Hdn).
        cbn [map O2SwitchStorage.for_of]. rewrite info_name, (not_dot n Hplain).
        cbn zeta. rewrite join_dir_name by assumption.
        rewrite <- app_assoc, rel_path by (assumption || now destruct rsegs).
        destruct nd as [fsz|dsz des].
        + cbn [info snd fst isDirectory size].
          rewrite IHs by (intros n' nd' H'; apply Hin; now right).
          cbn [expected expected_node]. f_equal.
          destruct (Js.includes (Js.toLowerCase n) lq); cbn;
            now rewrite <- ?app_assoc.
        + cbn [info snd fst isDirectory size].
          replace (absolute_of (segs ++ rsegs ++ [n]))
            with (absolute_of (segs ++ (rsegs ++ [n])) ++ "")
            by now rewrite append_nil_r.
          rewrite (IH (rsegs ++ [n])%list "" dsz des).
          * rewrite IHs by (intros n' nd' H'; apply Hin; now right).
            cbn [expected]. rewrite expected_node_dir. f_equal.
            destruct (Js.includes (Js.toLowerCase n) lq); cbn;
              now rewrite <- ?app_assoc.
          * apply Forall_app. split; [assumption|now constructor].
          * now left.
          * rewrite app_assoc, resolve_app, Hres. cbn [resolve]. now rewrite Hchild.
          * exact Hwfn.
          * lia. }
    apply Hsuffix. auto.
Qed.

Lemma join_base_rel a b :
  a <> [] -> Forall (fun seg => plain seg = true) a ->
  Forall (fun seg => plain seg = true) b ->
  join [absolute_of a; absolute_of b]
  = absolute_of (a ++ b) ++ match b with [] => "/" | _ => "" end.
Proof.
  intros Hne Ha Hb. unfold join. cbn [filter].
  assert (H1 : absolute_of a <> "") by (unfold absolute_of; discriminate).
  assert (H2 : absolute_of b <> "") by (unfold absolute_of; discriminate).
  destruct (String.eqb_spec (absolute_of a) ""); [contradiction|].
  destruct (String.eqb_spec (absolute_of b) ""); [contradiction|].
  cbn [negb Js.join]. unfold absolute_of at 1 2.
  replace (("/" ++ Js.join "/" a) ++ "/" ++ "/" ++ Js.join "/" b)
    with (String "/" (Js.join "/" a ++ "/" ++ "" ++ "/" ++ Js.join "/" b))
    by reflexivity.
  rewrite normalize_absolute.
  destruct b as [|x b].
  - rewrite !segments_app_slash, segments_join
      by (assumption || now apply Forall_plain_no_slash).
    cbn [Js.join segments]. rewrite normalizeSegments_plain by assumption.
    change (normalizeSegments false ([""] ++ [""]) (rev a ++ []))
      with (rev (rev a ++ [])).
    rewrite app_nil_r, rev_involutive, app_nil_r.
    destruct a as [|y a]; [contradiction|].
    assert (He : endsWithSlash
                   (String "/" (Js.join "/" (y :: a) ++ "/" ++ "" ++ "/" ++ ""))
                 = true).
    { replace (String "/" (Js.join "/" (y :: a) ++ "/" ++ "" ++ "/" ++ ""))
        with ((String "/" (Js.join "/" (y :: a) ++ "/")) ++ "/")
        by (cbn; now rewrite !append_assoc).
      now rewrite endsWithSlash_app. }
    rewrite He. unfold absolute_of. now rewrite append_assoc.
  - rewrite !segments_app_slash, !segments_join
      by (assumption || discriminate || now apply Forall_plain_no_slash).
    cbn [segments]. rewrite normalizeSegments_plain by assumption.
    change (normalizeSegments false ([""] ++ x :: b) (rev a ++ []))
      with (normalizeSegments false (x :: b) (rev a ++ [])).
    rewrite app_nil_r.
    rewrite normalizeSegments_all_plain, rev_involutive by assumption.
    assert (He : endsWithSlash
                   (String "/" (Js.join "/" a ++ "/" ++ "" ++ "/" ++ Js.join "/" (x :: b)))
                 = false).
    { destruct (endsWithSlash_join (x :: b)) as [He Hn]; [discriminate|assumption|].
      replace (String "/" (Js.join "/" a ++ "/" ++ "" ++ "/" ++ Js.join "/" (x :: b)))
        with ((String "/" (Js.join "/" a ++ "/" ++ "/")) ++ Js.join "/" (x :: b))
        by (cbn; now rewrite !append_assoc).
      now rewrite endsWithSlash_app. }
    rewrite He, !append_nil_r.
    destruct (a ++ x :: b)%list eqn:E; [now destruct a|]. reflexivity.
Qed.

Theorem searchAdminFiles_complete root segs rsegs sz entries fuel query :
  segs <> [] -> Forall (fun seg => plain seg = true) segs ->
  Forall (fun seg => plain seg = true) rsegs ->
  resolve (segs ++ rsegs) root = Some (Dir sz entries) ->
  well_formed (Dir sz entries) = true ->
  (depth (Dir sz entries) <= fuel)%nat ->
  O2SwitchStorage.searchAdminFiles fuel root (absolute_of segs)
    (absolute_of rsegs) query
  = O2SwitchStorage.Found (expected (Js.toLowerCase query) rsegs entries).
Proof.
  intros Hne Hsegs Hrsegs Hres Hwf Hdepth.
  unfold O2SwitchStorage.searchAdminFiles. rewrite join_base_rel by assumption.
  rewrite (searchDirectory_complete root segs (Js.toLowerCase query) Hne Hsegs
             fuel rsegs _ sz entries []); try assumption; [reflexivity|].
  destruct rsegs; auto.
Qed.

(** On the sample tree the walk returns what is expected of it. *)
Lemma sample_search :
  O2SwitchStorage.searchAdminFiles 5 Sample.root default_base "/" "demo"
  = O2SwitchStorage.Found
      (expected "demo" []
         match Sample.admin_files with Dir _ es => es | File _ => [] end).
Proof.
  apply (searchAdminFiles_complete Sample.root ["home"; "faji2535"; "admin-files"] []
           4096%Z).
  - discriminate.
  - repeat constructor.
  - constructor.
  - reflexivity.
  - reflexivity.
  - cbn. lia.
Qed.

(** *** Listings *)

Import O2SwitchListing.

Lemma join_root_name name :
  plain name = true -> join [absolute_of []; name] = absolute_of [name].
Proof.
  intros Hname. destruct (plain_no_slash name Hname) as [Hns Hnn].
  unfold join. cbn [filter absolute_of Js.join append String.eqb negb].
  destruct (String.eqb_spec name ""); [contradiction|]. cbn [negb Js.join].
  change ("/" ++ "/" ++ name) with (String "/" (String "/" name)).
  rewrite normalize_absolute.
  change (String "/" name) with ("" ++ "/" ++ name) at 1 2.
  rewrite segments_app_slash, (segments_plain_word name) by assumption.
  cbn [segments app].
  change (normalizeSegments false [""; name] [])
    with (normalizeSegments false [name] []).
  rewrite normalizeSegments_all_plain by now constructor.
  cbn [rev app Js.join].
  replace (endsWithSlash (String "/" (String "/" name))) with false.
  - now rewrite append_nil_r.
  - symmetry. change (String "/" (String "/" name)) with ("//" ++ name).
    rewrite endsWithSlash_app by assumption. now apply endsWithSlash_no_slash.
Qed.

Lemma join_rel_name rsegs name :
  Forall (fun seg => plain seg = true) rsegs -> plain name = true ->
  join [absolute_of rsegs; name] = absolute_of (rsegs ++ [name]).
Proof.
  intros Hr Hn. destruct rsegs as [|r rsegs'].
  - now apply join_root_name.
  - rewrite <- (append_nil_r (absolute_of (r :: rsegs'))).
    apply join_dir_name; auto. discriminate.
Qed.

Lemma filter_not_dot entries :
  forallb plain (map fst entries) = true ->
  filter (fun item => negb (name item =? ".") && negb (name item =? ".."))
    (map info entries)
  = map info entries.
Proof.
  induction entries as [|[n nd] entries IH]; [reflexivity|].
  cbn [map fst forallb]. intros H. apply andb_prop in H. destruct H as [Hn Hrest].
  cbn [filter]. rewrite info_name.
  pose proof (not_dot n Hn) as Hd. apply orb_false_iff in Hd. destruct Hd as [-> ->].
  cbn [negb andb]. now rewrite IH.
Qed.

(** X18.  [listAdminFiles] of a directory below the admin root returns one
    entry for each entry of the directory, in their order.  The [filename]
    of an entry is the listed path followed by the entry's name, and handed
    back to the client it is resolved to the very entry it came from; the
    [type] tells directories from files. *)
Theorem listed_names_address_their_entries root segs rsegs sz entries :
  segs <> [] -> Forall (fun seg => plain seg = true) segs ->
  Forall (fun seg => plain seg = true) rsegs ->
  resolve (segs ++ rsegs) root = Some (Dir sz entries) ->
  well_formed (Dir sz entries) = true ->
  exists files,
    listAdminFiles root (absolute_of segs) (absolute_of rsegs) = Some files
    /\ map basename files = map fst entries
    /\ forall f, In f files ->
         exists node,
           In (basename f, node) entries
           /\ filename f = absolute_of (rsegs ++ [basename f])
           /\ O2SwitchStorage.downloadAdminFile_path (absolute_of segs) (filename f)
              = absolute_of (segs ++ rsegs ++ [basename f])
           /\ resolve (segs ++ rsegs ++ [basename f]) root = Some node
           /\ type f = match node with Dir _ _ => "directory" | File _ => "file" end.
Proof.
  intros Hne Hsegs Hrsegs Hres Hwf.
  unfold listAdminFiles. rewrite join_base_rel by assumption.
  rewrite (list_dir_of_dir root (segs ++ rsegs));
    [|now destruct segs|now apply Forall_app|destruct rsegs; auto].
  rewrite Hres.
  assert (Hplain : forallb plain (map fst entries) = true).
  { cbn [well_formed] in Hwf. apply andb_prop in Hwf. destruct Hwf as [Hwf _].
    apply andb_prop in Hwf. now destruct Hwf. }
  rewrite (filter_not_dot entries Hplain).
  eexists. split; [reflexivity|]. split.
  - rewrite !map_map. apply map_ext. intros [n nd]. cbn. apply info_name.
  - intros f Hf. rewrite map_map in Hf. apply in_map_iff in Hf.
    destruct Hf as ([n nd] & <- & Hin).
    destruct (well_formed_entry sz entries n nd Hwf Hin) as (Hn & _ & Hchild & _).
    cbn [basename filename type]. rewrite info_name.
    exists nd. split; [exact Hin|].
    rewrite (join_rel_name rsegs n Hrsegs Hn). split; [reflexivity|].
    split; [|split].
    + unfold O2SwitchStorage.downloadAdminFile_path.
      rewrite join_base_rel; [|assumption|assumption|].
      * destruct (rsegs ++ [n])%list eqn:E; [now destruct rsegs|].
        now rewrite append_nil_r.
      * apply Forall_app. split; [assumption|now constructor].
    + rewrite app_assoc, resolve_app, Hres. cbn [resolve]. now rewrite Hchild.
    + unfold info. cbn [snd]. now destruct nd.
Qed.

Lemma listed_names_address_their_entries_witness :
  exists files,
    listAdminFiles Sample.root (absolute_of ["home"; "faji2535"; "admin-files"])
      (absolute_of ["2024"; "masters"]) = Some files
    /\ map basename files
       = map fst [("club", Dir 4096 [("Demo-Final.wav", File 200);
                                     ("notes.txt", File 3)])]
    /\ forall f, In f files ->
         exists node,
           In (basename f, node)
              [("club", Dir 4096 [("Demo-Final.wav", File 200);
                                  ("notes.txt", File 3)])]
           /\ filename f = absolute_of (["2024"; "masters"] ++ [basename f])
           /\ O2SwitchStorage.downloadAdminFile_path
                (absolute_of ["home"; "faji2535"; "admin-files"]) (filename f)
              = absolute_of (["home"; "faji2535"; "admin-files"]
                             ++ ["2024"; "masters"] ++ [basename f])
           /\ resolve (["home"; "faji2535"; "admin-files"]
                       ++ ["2024"; "masters"] ++ [basename f]) Sample.root
              = Some node
           /\ type f = match node with Dir _ _ => "directory" | File _ => "file" end.
Proof.
  apply (listed_names_address_their_entries Sample.root
           ["home"; "faji2535"; "admin-files"] ["2024"; "masters"] 4096).
  - discriminate.
  - repeat constructor.
  - repeat constructor.
  - reflexivity.
  - reflexivity.
Defined.

(** *** What the walk returns *)

Lemma depth_entry sz entries n nd :
  In (n, nd) entries -> (depth nd < depth (Dir sz entries))%nat.
Proof.
  cbn [depth]. induction entries as [|[m md] entries IH]; [contradiction|].
  intros [[= -> ->]|Hin].
  - lia.
  - specialize (IH Hin). lia.
Qed.

Lemma expected_sound lq :
  forall d prefix entries,
    (forall n nd, In (n, nd) entries -> (depth nd < d)%nat) ->
    forall r, In r (expected lq prefix entries) ->
      Js.includes (Js.toLowerCase (O2SwitchStorage.name r)) lq = true
      /\ exists above,
           O2SwitchStorage.path r
           = Js.join "/" (prefix ++ above ++ [O2SwitchStorage.name r]).
Proof.
  induction d as [|d IHd]; intros prefix entries Hdepth r Hr.
  - destruct entries as [|[n nd] entries]; [contradiction|].
    exfalso. specialize (Hdepth n nd (or_introl eq_refl)). lia.
  - induction entries as [|[n nd] entries IHe]; [contradiction|].
    cbn [expected] in Hr. apply in_app_or in Hr. destruct Hr as [Hr|Hr].
    + destruct nd as [sz|sz sub].
      * cbn [expected_node] in Hr. rewrite app_nil_r in Hr.
        destruct (Js.includes (Js.toLowerCase n) lq) eqn:E; [|contradiction].
        destruct Hr as [<-|[]]. cbn. split; [exact E|]. now exists [].
      * rewrite expected_node_dir in Hr. apply in_app_or in Hr.
        destruct Hr as [Hr|Hr].
        -- destruct (Js.includes (Js.toLowerCase n) lq) eqn:E; [|contradiction].
           destruct Hr as [<-|[]]. cbn. split; [exact E|]. now exists [].
        -- destruct (IHd (prefix ++ [n])%list sub) with (r := r) as (Hm & above & Hp).
           ++ intros m md Hin.
              pose proof (depth_entry sz sub m md Hin) as H1.
              pose proof (Hdepth n (Dir sz sub) (or_introl eq_refl)) as H2. lia.
           ++ exact Hr.
           ++ split; [exact Hm|]. exists (n :: above).
              rewrite Hp. now rewrite <- !app_assoc.
    + apply IHe; [|exact Hr]. intros m md Hin. apply (Hdepth m md). now right.
Qed.

(** X19.  On a tree whose names are plain ASCII texts and differ within
    each directory, and for a query that is an ASCII text,
    [searchAdminFiles] of [O2SwitchStorage], given enough depth, returns
    the entries of the whole subtree whose name contains the query
    whatever the case of the letters A to Z, in the order of the walk;
    every result has such a name, and its path is the path of the entry
    below the admin root. *)
Theorem recursive_search_returns_the_matches root segs rsegs sz entries fuel query :
  segs <> [] -> Forall (fun seg => plain seg = true) segs ->
  Forall (fun seg => plain seg = true) rsegs ->
  resolve (segs ++ rsegs) root = Some (Dir sz entries) ->
  well_formed (Dir sz entries) = true ->
  ascii_names (Dir sz entries) = true ->
  Js.ascii_text query = true ->
  (depth (Dir sz entries) <= fuel)%nat ->
  O2SwitchStorage.searchAdminFiles fuel root (absolute_of segs)
    (absolute_of rsegs) query
  = O2SwitchStorage.Found (expected (Js.toLowerCase query) rsegs entries)
  /\ forall r, In r (expected (Js.toLowerCase query) rsegs entries) ->
       Js.includes (Js.toLowerCase (O2SwitchStorage.name r)) (Js.toLowerCase query)
       = true
       /\ exists above,
            O2SwitchStorage.path r
            = Js.join "/" (rsegs ++ above ++ [O2SwitchStorage.name r]).
Proof.
  intros Hne Hsegs Hrsegs Hres Hwf _ _ Hdepth. split.
  - now apply (searchAdminFiles_complete root segs rsegs sz).
  - apply (expected_sound _ (depth (Dir sz entries))).
    intros n nd Hin. now apply (depth_entry sz entries n nd).
Qed.

Lemma recursive_search_returns_the_matches_witness :
  O2SwitchStorage.searchAdminFiles 5 Sample.root
    (absolute_of ["home"; "faji2535"; "admin-files"]) (absolute_of ["2024"]) "DEMO"
  = O2SwitchStorage.Found
      (expected (Js.toLowerCase "DEMO") ["2024"]
         [("masters", Dir 4096
             [("club", Dir 4096
                 [("Demo-Final.wav", File 200); ("notes.txt", File 3)])])])
  /\ forall r,
       In r (expected (Js.toLowerCase "DEMO") ["2024"]
               [("masters", Dir 4096
                   [("club", Dir 4096
                       [("Demo-Final.wav", File 200); ("notes.txt", File 3)])])]) ->
       Js.includes (Js.toLowerCase (O2SwitchStorage.name r)) (Js.toLowerCase "DEMO")
       = true
       /\ exists above,
            O2SwitchStorage.path r
            = Js.join "/" (["2024"] ++ above ++ [O2SwitchStorage.name r]).
Proof.
  apply (recursive_search_returns_the_matches Sample.root
           ["home"; "faji2535"; "admin-files"] ["2024"] 4096).
  - discriminate.
  - repeat constructor.
  - repeat constructor.
  - reflexivity.
  - reflexivity.
  - reflexivity.
  - reflexivity.
  - cbn. lia.
Defined.

End SearchFacts.

Module StorageSearchFacts.

Import Remote.

(** [AdminStorageClient.search] answers with children of the directory it
    lists, and with nothing from further down. *)
Lemma Admin_search_is_flat root base rel query files :
  AdminStorageClient.search root base rel query = Some files ->
  exists items,
    list_dir root (AdminStorageClient.getFullPath base rel) = Some items
    /\ forall f, In f files ->
         exists item, In item items /\ name item = AdminStorageClient.name f.
Proof.
  unfold AdminStorageClient.search, AdminStorageClient.listFiles.
  destruct (list_dir root (AdminStorageClient.getFullPath base rel)) as [items|];
    [|discriminate].
  intros Heq. injection Heq as <-. exists items. split; [reflexivity|].
  intros f Hf. apply filter_In in Hf. destruct Hf as [Hf _].
  apply in_map_iff in Hf. destruct Hf as (item & <- & Hitem).
  apply filter_In in Hitem. exists item. split; [apply Hitem|reflexivity].
Qed.

(** C4.  On the sample tree, which has a match for the query right under
    the admin root and one three directories down, [searchAdminFiles] of
    [O2SwitchStorage] returns both with their paths relative to the root,
    and [search] of [AdminStorageClient] returns the first only: it filters
    the listing of the one directory and walks no subtree. *)
Theorem search_depth_on_both_clients :
  O2SwitchStorage.searchAdminFiles 5 Sample.root default_base "/" "demo"
  = O2SwitchStorage.Found
      [{| O2SwitchStorage.name := "demo.wav"; O2SwitchStorage.size := 100;
          O2SwitchStorage.type := "-"; O2SwitchStorage.path := "demo.wav" |};
       {| O2SwitchStorage.name := "Demo-Final.wav"; O2SwitchStorage.size := 200;
          O2SwitchStorage.type := "-";
          O2SwitchStorage.path := "2024/masters/club/Demo-Final.wav" |}]
  /\ AdminStorageClient.search Sample.root default_base "/" "demo"
     = Some [{| AdminStorageClient.name := "demo.wav";
                AdminStorageClient.type := "-";
                AdminStorageClient.size := 100 |}].
Proof. split; vm_compute; reflexivity. Qed.

(** C5.  Normalisation does not keep a resolved path under the base root.
    A relative path that starts with [..] segments leaves it through
    [getFullPath], and through the [path.join] of [downloadAdminFile] so
    does an absolute one; [getFullPath] holds back only the paths that start
    with a slash. *)
Theorem traversal_leaves_base :
  AdminStorageClient.getFullPath default_base "../../etc/passwd" = "/home/etc/passwd"
  /\ O2SwitchStorage.downloadAdminFile_path default_base "../../etc/passwd"
     = "/home/etc/passwd"
  /\ O2SwitchStorage.downloadAdminFile_path default_base "/../../etc/passwd"
     = "/home/etc/passwd"
  /\ within default_base "/home/etc/passwd" = false
  /\ AdminStorageClient.getFullPath default_base "/../../etc/passwd"
     = "/home/faji2535/admin-files/etc/passwd".
Proof. repeat split; vm_compute; reflexivity. Qed.

End StorageSearchFacts.

(** ** The stream route *)

Module AdminStorageRouteFacts.

Import AdminStorageRoutes PathFacts.
Local Close Scope Z_scope.
Local Open Scope string_scope.

Lemma split_nonempty sep s : split sep s <> [].
Proof.
  destruct s as [|c s]; cbn; [discriminate|].
  destruct (Ascii.eqb c sep); [discriminate|].
  destruct (split sep s); discriminate.
Qed.

Lemma split_without sep s : without sep s = true -> split sep s = [s].
Proof.
  induction s as [|c s IH]; [reflexivity|]. cbn [without Js.all_chars split].
  intros H. apply andb_prop in H. destruct H as [Hc Hs].
  apply negb_true_iff in Hc. rewrite Hc. unfold without in IH. now rewrite (IH Hs).
Qed.

Lemma split_app sep a b :
  split sep (a ++ String sep b)
  = (split sep a ++ split sep b)%list.
Proof.
  induction a as [|c a IH].
  - cbn. now rewrite Ascii.eqb_refl.
  - cbn [append split]. destruct (Ascii.eqb c sep); [now rewrite IH|].
    rewrite IH. destruct (split sep a) eqn:E; [now destruct (split_nonempty sep a)|].
    reflexivity.
Qed.

Lemma pop_app l x : pop (l ++ [x]) = Some x.
Proof. unfold pop. now rewrite rev_app_distr. Qed.

Lemma toLowerCase_app a b :
  Js.toLowerCase (a ++ b) = Js.toLowerCase a ++ Js.toLowerCase b.
Proof. induction a as [|c a IH]; [reflexivity|]. cbn. now rewrite IH. Qed.

Lemma lower_char_dot c : Ascii.eqb (Js.lower_char c) "." = Ascii.eqb c ".".
Proof. destruct c as [[] [] [] [] [] [] [] []]; reflexivity. Qed.

Lemma without_dot_lower s : without "." (Js.toLowerCase s) = without "." s.
Proof.
  induction s as [|c s IH]; [reflexivity|]. unfold without in *.
  cbn [Js.toLowerCase Js.all_chars]. now rewrite lower_char_dot, IH.
Qed.

Lemma toLowerCase_nonempty s : s <> "" -> Js.toLowerCase s <> "".
Proof. destruct s; [contradiction|discriminate]. Qed.

Lemma or_else_some s fallback : s <> "" -> or_else (Some s) fallback = s.
Proof.
  intros Hs. unfold or_else, Js.truthy_string.
  now destruct (String.eqb_spec s "").
Qed.

(** X22.  The content type of the stream route depends on the path only
    through what follows the last dot of its last segment, whatever its
    case; a last segment without a dot counts as an extension as a
    whole. *)
Theorem stream_mime_type_follows_the_extension dir stem ext :
  without "/" stem = true -> without "/" ext = true ->
  without "." ext = true -> ext <> "" ->
  stream_mime_type (dir ++ "/" ++ stem ++ "." ++ ext)
  = mime_of_extension (Js.toLowerCase ext)
  /\ stream_mime_type (dir ++ "/" ++ ext) = mime_of_extension (Js.toLowerCase ext).
Proof.
  intros Hstem Hext Hdot Hne.
  assert (Hlow : Js.toLowerCase ext <> "") by now apply toLowerCase_nonempty.
  assert (Hld : without "." (Js.toLowerCase ext) = true)
    by now rewrite without_dot_lower.
  unfold stream_mime_type. split.
  - change (dir ++ "/" ++ stem ++ "." ++ ext)
      with (dir ++ String "/" (stem ++ "." ++ ext)).
    rewrite split_app.
    assert (Hname : without "/" (stem ++ "." ++ ext) = true).
    { unfold without in *. rewrite !JsFacts.all_chars_append, Hstem, Hext.
      reflexivity. }
    rewrite (split_without "/" _ Hname), pop_app.
    rewrite or_else_some by (destruct stem; discriminate).
    cbn zeta. rewrite !toLowerCase_app.
    change (Js.toLowerCase stem ++ Js.toLowerCase "." ++ Js.toLowerCase ext)
      with (Js.toLowerCase stem ++ String "." (Js.toLowerCase ext)).
    rewrite split_app, (split_without "." _ Hld), pop_app.
    now rewrite or_else_some.
  - change (dir ++ "/" ++ ext) with (dir ++ String "/" ext).
    rewrite split_app, (split_without "/" _ Hext), pop_app.
    rewrite or_else_some by assumption. cbn zeta.
    rewrite (split_without "." _ Hld). cbn [pop rev app].
    now rewrite or_else_some.
Qed.

Lemma stream_mime_type_follows_the_extension_witness :
  stream_mime_type ("/2024/masters" ++ "/" ++ "Demo.Final" ++ "." ++ "WAV")
  = mime_of_extension (Js.toLowerCase "WAV")
  /\ stream_mime_type ("/2024/masters" ++ "/" ++ "WAV")
     = mime_of_extension (Js.toLowerCase "WAV").
Proof.
  apply (stream_mime_type_follows_the_extension "/2024/masters" "Demo.Final" "WAV");
    (reflexivity || discriminate).
Defined.

End AdminStorageRouteFacts.

(** ** The catalogue text store *)

Module CatalogueFacts.

Import Catalogue CatalogueSpec PathFacts.
Local Close Scope Z_scope.
Local Open Scope string_scope.

(** *** Blanks, texts and numbers *)

Lemma skip_space_blank ws s : blank ws = true -> skip_space (ws ++ s) = skip_space s.
Proof.
  induction ws as [|c ws IH]; [reflexivity|]. cbn [blank Js.all_chars].
  intros H. apply andb_prop in H. destruct H as [Hc Hws].
  cbn [append skip_space]. rewrite Hc. now apply IH.
Qed.

Lemma skip_space_stop c s : is_space c = false -> skip_space (String c s) = String c s.
Proof. intros H. cbn. now rewrite H. Qed.

Lemma skip_space_idem s : skip_space (skip_space s) = skip_space s.
Proof.
  induction s as [|c s IH]; [reflexivity|]. cbn [skip_space].
  destruct (is_space c) eqn:E; [exact IH|]. cbn. now rewrite E.
Qed.

Lemma text_char_cases c :
  text_char c = true ->
  is_dq c = false /\ is_backslash c = false /\ is_lf c = false /\ is_cr c = false.
Proof.
  unfold text_char. intros H. apply negb_true_iff in H.
  apply orb_false_iff in H. destruct H as [H H4].
  apply orb_false_iff in H. destruct H as [H H3].
  apply orb_false_iff in H. destruct H as [H1 H2]. auto.
Qed.

Lemma read_string_safe s rest :
  safe_text s = true ->
  read_string (s ++ dq ++ rest) = Evaluated (s, rest).
Proof.
  induction s as [|c s IH]; intros Hs.
  - reflexivity.
  - cbn [safe_text Js.all_chars] in Hs. apply andb_prop in Hs.
    destruct Hs as [Hc Hs]. destruct (text_char_cases c Hc) as (H1 & H2 & H3 & H4).
    cbn [append read_string]. rewrite H1, H3, H4, H2. cbn [orb].
    change (read_string (s ++ dq ++ rest)) with (read_string (s ++ dq ++ rest)).
    now rewrite (IH Hs).
Qed.

Lemma dq_not_lf c : is_dq c = true -> is_lf c = false.
Proof.
  unfold is_dq, is_lf. intros H. apply Ascii.eqb_eq in H. now subst c.
Qed.

Lemma escape_cons c d :
  escape (String c d)
  = (if is_dq c then backslash ++ dq
     else if is_lf c then backslash ++ "n"
     else String c "") ++ escape d.
Proof.
  unfold escape. cbn [replace_all].
  destruct (is_dq c) eqn:Hq.
  - reflexivity.
  - cbn [replace_all]. destruct (is_lf c); reflexivity.
Qed.

Lemma read_string_escaped d rest :
  Js.all_chars description_char d = true ->
  read_string (escape d ++ dq ++ rest) = Evaluated (d, rest).
Proof.
  induction d as [|c d IH]; intros Hd.
  - reflexivity.
  - cbn [Js.all_chars] in Hd. apply andb_prop in Hd. destruct Hd as [Hc Hd].
    unfold description_char in Hc. apply negb_true_iff in Hc.
    apply orb_false_iff in Hc. destruct Hc as [Hb Hr].
    rewrite escape_cons. specialize (IH Hd).
    set (tail := escape d ++ dq ++ rest) in *.
    destruct (is_dq c) eqn:Hq.
    + unfold is_dq in Hq. apply Ascii.eqb_eq in Hq. subst c.
      rewrite append_assoc. fold tail. cbn. now rewrite IH.
    + destruct (is_lf c) eqn:Hl.
      * unfold is_lf in Hl. apply Ascii.eqb_eq in Hl. subst c.
        rewrite append_assoc. fold tail. cbn. now rewrite IH.
      * rewrite append_assoc. fold tail.
        cbn [append read_string]. rewrite Hq, Hl, Hr, Hb. cbn [orb].
        now rewrite IH.
Qed.

Lemma parse_value_quoted f ws body val rest :
  blank ws = true ->
  read_string (body ++ dq ++ rest) = Evaluated (val, rest) ->
  parse_value (S f) (ws ++ dq ++ body ++ dq ++ rest) = Evaluated (VString val, rest).
Proof.
  intros Hws Hread. cbn [parse_value]. rewrite skip_space_blank by exact Hws.
  change (dq ++ body ++ dq ++ rest) with (String (ascii_of_nat 34) (body ++ dq ++ rest)).
  rewrite skip_space_stop by reflexivity.
  change (is_dq (ascii_of_nat 34)) with true. cbn iota. now rewrite Hread.
Qed.

(** Decimal digits. *)
Lemma string_of_uint_digits d : Js.all_chars is_digit (NilEmpty.string_of_uint d) = true.
Proof. induction d; cbn [NilEmpty.string_of_uint Js.all_chars]; now rewrite ?IHd. Qed.

Lemma span_all p s rest :
  Js.all_chars p s = true ->
  (match rest with String c _ => p c = false | EmptyString => True end) ->
  span p (s ++ rest) = (s, rest).
Proof.
  intros Hs Hrest. induction s as [|c s IH].
  - cbn [append]. destruct rest as [|c r]; [reflexivity|]. cbn. now rewrite Hrest.
  - cbn [Js.all_chars] in Hs. apply andb_prop in Hs. destruct Hs as [Hc Hs].
    cbn [append span]. rewrite Hc, (IH Hs). reflexivity.
Qed.

Lemma to_uint_normal n : Decimal.unorm (N.to_uint n) = N.to_uint n.
Proof.
  rewrite <- (DecimalN.Unsigned.of_to n) at 2.
  now rewrite DecimalN.Unsigned.to_of.
Qed.

Lemma normal_leading_zero u : Decimal.unorm (Decimal.D0 u) = Decimal.D0 u -> u = Decimal.Nil.
Proof.
  intros H. destruct u as [|u|u|u|u|u|u|u|u|u|u]; [reflexivity|exfalso..].
  all: rewrite DecimalFacts.unorm_D0 in H.
  all: match type of H with
       | Decimal.unorm ?x = Decimal.D0 ?x =>
           assert (Hlen : Decimal.nb_digits (Decimal.unorm x) <= Decimal.nb_digits x)
             by (apply DecimalFacts.nb_digits_unorm; discriminate);
           rewrite H in Hlen; cbn in Hlen; lia
       end.
Qed.

Lemma number_to_string_shape n :
  leading_zero (number_to_string n) = false /\ number_to_string n <> "".
Proof.
  unfold number_to_string. pose proof (to_uint_normal n) as Hn.
  destruct (N.to_uint n) as [|u|u|u|u|u|u|u|u|u|u] eqn:E; cbn;
    try (split; [now destruct (NilEmpty.string_of_uint u)|discriminate]).
  - destruct n; cbn in E; [discriminate|].
    now apply DecimalPos.Unsigned.to_uint_nonnil in E.
  - apply normal_leading_zero in Hn. subst u. split; [reflexivity|discriminate].
Qed.

Lemma read_number_decimal n c rest :
  is_digit c = false -> is_ident_part c = false -> Ascii.eqb c "." = false ->
  read_number (number_to_string n ++ String c rest)
  = Evaluated (VNumber n, String c rest).
Proof.
  intros Hd Hi Hp. unfold read_number.
  rewrite span_all; [|apply string_of_uint_digits|exact Hd].
  rewrite Hi, Hp. cbn [orb].
  destruct (number_to_string_shape n) as [-> _].
  unfold number_to_string.
  now rewrite NilEmpty.usu, DecimalN.Unsigned.of_to.
Qed.

Lemma number_starts_with_digit n :
  exists c r, number_to_string n = String c r /\ is_digit c = true.
Proof.
  destruct (number_to_string_shape n) as [_ Hne].
  pose proof (string_of_uint_digits (N.to_uint n)) as Hd.
  unfold number_to_string in *.
  destruct (NilEmpty.string_of_uint (N.to_uint n)) as [|c r]; [contradiction|].
  exists c, r. split; [reflexivity|]. cbn in Hd. now apply andb_prop in Hd.
Qed.

Lemma digit_not_space c : is_digit c = true -> is_space c = false.
Proof.
  destruct c as [[] [] [] [] [] [] [] []]; cbn; intros H; try reflexivity; discriminate.
Qed.

Lemma digit_not_special c :
  is_digit c = true ->
  is_dq c = false /\ Ascii.eqb c "[" = false /\ Ascii.eqb c "{" = false.
Proof.
  destruct c as [[] [] [] [] [] [] [] []]; cbn; intros H; auto; discriminate.
Qed.

Lemma parse_value_number f ws n c rest :
  blank ws = true ->
  is_digit c = false -> is_ident_part c = false -> Ascii.eqb c "." = false ->
  parse_value (S f) (ws ++ number_to_string n ++ String c rest)
  = Evaluated (VNumber n, String c rest).
Proof.
  intros Hws Hd Hi Hp. cbn [parse_value]. rewrite skip_space_blank by exact Hws.
  pose proof (read_number_decimal n c rest Hd Hi Hp) as Hread.
  destruct (number_starts_with_digit n) as (a & r & Heq & Ha).
  rewrite Heq in *. cbn [append]. rewrite skip_space_stop by now apply digit_not_space.
  destruct (digit_not_special a Ha) as (H1 & H2 & H3).
  rewrite H1, H2, H3, Ha. exact Hread.
Qed.

(** *** Arrays *)

Lemma parse_value_skip f s : parse_value f (skip_space s) = parse_value f s.
Proof. destruct f; [reflexivity|]. cbn [parse_value]. now rewrite skip_space_idem. Qed.

Lemma parse_items_skip f ws s seen :
  blank ws = true -> parse_items f (ws ++ s) seen = parse_items f s seen.
Proof.
  intros Hws. destruct f; [reflexivity|]. cbn [parse_items].
  now rewrite skip_space_blank.
Qed.

Lemma parse_props_skip f ws s seen :
  blank ws = true -> parse_props f (ws ++ s) seen = parse_props f s seen.
Proof.
  intros Hws. destruct f; [reflexivity|]. cbn [parse_props].
  now rewrite skip_space_blank.
Qed.

Lemma parse_value_first f s v rest :
  parse_value f s = Evaluated (v, rest) ->
  exists c r, skip_space s = String c r
              /\ Ascii.eqb c "]" = false /\ Ascii.eqb c "}" = false.
Proof.
  destruct f; [discriminate|]. cbn [parse_value].
  destruct (skip_space s) as [|c r]; [discriminate|].
  intros H. exists c, r. split; [reflexivity|].
  destruct (Ascii.eqb_spec c "]") as [->|_]; [cbn in H; discriminate|].
  destruct (Ascii.eqb_spec c "}") as [->|_]; [cbn in H; discriminate|].
  auto.
Qed.

Lemma close_bracket ws rest :
  blank ws = true -> skip_space (ws ++ String "]" rest) = String "]" rest.
Proof. intros Hws. now rewrite skip_space_blank. Qed.

Lemma close_brace ws rest :
  blank ws = true -> skip_space (ws ++ String "}" rest) = String "}" rest.
Proof. intros Hws. now rewrite skip_space_blank. Qed.

Lemma parse_items_step f text v R seen :
  parse_value f (text ++ R) = Evaluated (v, R) ->
  parse_items (S f) (text ++ R) seen
  = match after_value "]" R with
    | Comma more => parse_items f more (v :: seen)
    | Close more => Evaluated (VArray (rev (v :: seen)), more)
    | Broken => SyntaxError
    | Other => Unsupported
    end.
Proof.
  intros Hv. cbn [parse_items].
  destruct (parse_value_first _ _ _ _ Hv) as (c & r & Hskip & Hc & _).
  rewrite Hskip, Hc. rewrite <- Hskip, parse_value_skip, Hv. reflexivity.
Qed.

Lemma join_cons2 sep x y l :
  Js.join sep (x :: y :: l) = x ++ sep ++ Js.join sep (y :: l).
Proof. reflexivity. Qed.

Lemma parse_items_join {A} (text : A -> string) (value : A -> Value) need
    sepws closews :
  blank sepws = true -> blank closews = true ->
  forall l,
    (forall a, In a l -> parses need (text a) (value a)) ->
    forall f seen rest,
      need + List.length l + 1 <= f ->
      parse_items f
        (Js.join ("," ++ sepws) (map text l) ++ closews ++ String "]" rest) seen
      = Evaluated (VArray (rev seen ++ map value l), rest).
Proof.
  intros Hsep Hclose. induction l as [|a l IH]; intros Hall f seen rest Hf.
  - destruct f as [|f]; [cbn in Hf; lia|]. cbn [map Js.join append parse_items].
    rewrite close_bracket by exact Hclose.
    change (Ascii.eqb "]" "]") with true. cbn iota. now rewrite app_nil_r.
  - destruct f as [|f]; [cbn in Hf; lia|]. cbn [List.length] in Hf.
    assert (Ha : parses need (text a) (value a)) by (apply Hall; now left).
    destruct l as [|b l].
    + cbn [map Js.join].
      rewrite (parse_items_step f (text a) (value a)) by (apply Ha; lia).
      unfold after_value. rewrite close_bracket by exact Hclose.
      cbn. reflexivity.
    + cbn [map]. rewrite join_cons2, !append_assoc.
      rewrite (parse_items_step f (text a) (value a)) by (apply Ha; lia).
      unfold after_value. cbn [append skip_space is_space].
      change (is_space ",") with false. cbn iota.
      change (Ascii.eqb "," ",") with true. cbn iota.
      rewrite parse_items_skip by exact Hsep.
      change (text b :: map text l) with (map text (b :: l)).
      rewrite IH.
      * cbn [rev map]. now rewrite <- List.app_assoc.
      * intros x Hx. apply Hall. now right.
      * cbn [List.length] in *. lia.
Qed.

(** *** Objects *)

Lemma ident_start_not_space c : is_ident_start c = true -> is_space c = false.
Proof.
  destruct c as [[] [] [] [] [] [] [] []]; cbn; intros H; try reflexivity; discriminate.
Qed.

Lemma ident_start_not_brace c : is_ident_start c = true -> Ascii.eqb c "}" = false.
Proof.
  destruct c as [[] [] [] [] [] [] [] []]; cbn; intros H; try reflexivity; discriminate.
Qed.

Lemma ident_start_part c : is_ident_start c = true -> is_ident_part c = true.
Proof. unfold is_ident_part. now intros ->. Qed.

Lemma parse_props_step f ws key vt v R seen :
  blank ws = true -> identifier key = true -> key <> "__proto__" ->
  parse_value f (vt ++ R) = Evaluated (v, R) ->
  parse_props (S f) (ws ++ key ++ String ":" (vt ++ R)) seen
  = match after_value "}" R with
    | Comma more => parse_props f more (set_prop key v seen)
    | Close more => Evaluated (VObject (set_prop key v seen), more)
    | Broken => SyntaxError
    | Other => Unsupported
    end.
Proof.
  intros Hws Hkey Hproto Hv. cbn [parse_props].
  rewrite skip_space_blank by exact Hws.
  destruct key as [|c key]; [discriminate|]. cbn [identifier] in Hkey.
  apply andb_prop in Hkey. destruct Hkey as [Hc Hkey].
  cbn [append]. rewrite skip_space_stop by now apply ident_start_not_space.
  rewrite (ident_start_not_brace c Hc), Hc.
  change (String c (key ++ String ":" (vt ++ R)))
    with (String c key ++ String ":" (vt ++ R)).
  rewrite span_all; [|cbn; now rewrite (ident_start_part c Hc)|reflexivity].
  destruct (String.eqb_spec (String c key) "__proto__"); [contradiction|].
  cbn [skip_space is_space]. change (is_space ":") with false. cbn iota.
  change (Ascii.eqb ":" ":") with true. cbn iota. now rewrite Hv.
Qed.

Lemma parse_props_close f ws rest seen :
  blank ws = true ->
  parse_props (S f) (ws ++ String "}" rest) seen = Evaluated (VObject seen, rest).
Proof.
  intros Hws. cbn [parse_props]. rewrite close_brace by exact Hws. reflexivity.
Qed.

(** Properties with distinct keys are kept in the order they are written. *)
Lemma set_prop_fresh key v seen :
  ~ In key (map fst seen) -> set_prop key v seen = (seen ++ [(key, v)])%list.
Proof.
  induction seen as [|[k old] seen IH]; intros Hnot; [reflexivity|].
  cbn [set_prop map fst] in *.
  destruct (String.eqb_spec k key) as [->|Hne]; [exfalso; apply Hnot; now left|].
  rewrite IH; [reflexivity|]. intros Hin. apply Hnot. now right.
Qed.

Lemma parse_props_join itemws sepws closews :
  blank itemws = true -> blank sepws = true -> blank closews = true ->
  forall l,
    (forall kv, In kv l ->
       identifier (fst kv) = true /\ fst kv <> "__proto__"
       /\ safe_text (snd kv) = true) ->
    NoDup (map fst l) ->
    forall f seen rest,
      List.length l + 2 <= f ->
      (forall kv, In kv l -> ~ In (fst kv) (map fst seen)) ->
      parse_props f
        (Js.join ("," ++ sepws) (map (entry_text itemws) l)
         ++ closews ++ String "}" rest) seen
      = Evaluated (VObject (seen ++ map entry_value l), rest).
Proof.
  intros Hitem Hsep Hclose. induction l as [|[k v] l IH];
    intros Hall Hnd f seen rest Hf Hfresh.
  - destruct f as [|f]; [cbn in Hf; lia|]. cbn [map Js.join append].
    rewrite parse_props_close by exact Hclose. now rewrite List.app_nil_r.
  - destruct f as [|f]; [cbn in Hf; lia|]. cbn [List.length] in Hf.
    destruct (Hall (k, v) (or_introl eq_refl)) as (Hk & Hproto & Hv).
    cbn [fst snd] in Hk, Hproto, Hv.
    inversion Hnd as [|? ? Hknot Hnd']; subst.
    assert (Hval : forall R,
               parse_value f ((" " ++ quoted v) ++ R) = Evaluated (VString v, R)).
    { intros R. destruct f as [|f]; [lia|]. unfold quoted.
      rewrite !append_assoc.
      apply parse_value_quoted; [reflexivity|now apply read_string_safe]. }
    assert (Hset : set_prop k (VString v) seen = (seen ++ [(k, VString v)])%list).
    { apply set_prop_fresh. apply (Hfresh (k, v)). now left. }
    destruct l as [|kv2 l].
    + cbn [map Js.join]. unfold entry_text at 1. cbn [fst snd].
      rewrite !append_assoc.
      change (": " ++ quoted v ++ closews ++ String "}" rest)
        with (String ":" ((" " ++ quoted v) ++ closews ++ String "}" rest)).
      rewrite (parse_props_step f itemws k _ (VString v)); try assumption;
        [|apply Hval].
      unfold after_value. rewrite close_brace by exact Hclose.
      cbn. now rewrite Hset.
    + cbn [map]. rewrite join_cons2. unfold entry_text at 1. cbn [fst snd].
      rewrite !append_assoc.
      match goal with
      | |- parse_props _ (itemws ++ k ++ ": " ++ quoted v ++ ?R) _ = _ =>
          change (": " ++ quoted v ++ R) with (String ":" ((" " ++ quoted v) ++ R))
      end.
      rewrite (parse_props_step f itemws k _ (VString v)); try assumption;
        [|apply Hval].
      unfold after_value. cbn [append skip_space is_space].
      change (is_space ",") with false. cbn iota.
      change (Ascii.eqb "," ",") with true. cbn iota.
      rewrite parse_props_skip by exact Hsep.
      change (entry_text itemws kv2 :: map (entry_text itemws) l)
        with (map (entry_text itemws) (kv2 :: l)).
      rewrite IH.
      * rewrite Hset. cbn [map entry_value fst snd]. unfold entry_value at 2.
        cbn [fst snd]. now rewrite <- List.app_assoc.
      * intros kv Hin. apply Hall. now right.
      * exact Hnd'.
      * cbn [List.length] in *. lia.
      * intros kv Hin. rewrite Hset, map_app, in_app_iff. cbn [map fst].
        intros [Hs|[Hs|[]]].
        -- apply (Hfresh kv); [now right|exact Hs].
        -- apply Hknot. rewrite Hs. now apply in_map.
Qed.

(** *** One artist *)

Lemma prop_step f key vt v R seen :
  identifier key = true -> key <> "__proto__" ->
  parse_value f (vt ++ String "," R) = Evaluated (v, String "," R) ->
  parse_props (S f) (prop key vt R) seen = parse_props f R (set_prop key v seen).
Proof.
  intros Hk Hp Hv. unfold prop.
  now rewrite (parse_props_step f (nl ++ "    ") key vt v (String "," R) seen).
Qed.

Lemma artistToTS_shape a rest :
  artistToTS a ++ rest
  = "  " ++ String "{"
      (prop "id" (" " ++ number_to_string (id a))
      (prop "name" (" " ++ quoted (name a))
      (prop "act" (" " ++ quoted (act a))
      (prop "description" (" " ++ dq ++ escape (or_empty (description a)) ++ dq)
      (prop "style" (style_text (style a))
      (prop "social" (social_text (keep_social (social a)))
      (prop "country" (" " ++ quoted (country a))
      (prop "image_url" (" " ++ quoted (image_url a))
         (match videos a with
          | Some (v :: vs) => prop "videos" (videos_text (v :: vs)) (nl ++ "  }" ++ rest)
          | _ => nl ++ "  }" ++ rest
          end))))))))).
Proof.
  unfold artistToTS, prop, style_text, social_text, videos_text, quoted, escape,
    keep_social, entry_text.
  destruct (videos a) as [[|v vs]|]; rewrite !append_assoc; reflexivity.
Qed.

Lemma parses_quoted ws v :
  blank ws = true -> safe_text v = true -> parses 1 (ws ++ quoted v) (VString v).
Proof.
  intros Hws Hv f rest Hf. destruct f as [|f]; [lia|]. unfold quoted.
  rewrite !append_assoc. apply parse_value_quoted; [exact Hws|].
  now apply read_string_safe.
Qed.

Lemma parses_description d :
  Js.all_chars description_char d = true ->
  parses 1 (" " ++ dq ++ escape d ++ dq) (VString d).
Proof.
  intros Hd f rest Hf. destruct f as [|f]; [lia|].
  rewrite !append_assoc. apply parse_value_quoted; [reflexivity|].
  now apply read_string_escaped.
Qed.

Lemma parses_style l :
  Forall (fun s => safe_text s = true) l ->
  parses (List.length l + 3) (style_text l) (strings l).
Proof.
  intros Hall f rest Hf. destruct f as [|f]; [lia|]. unfold style_text.
  rewrite !append_assoc. cbn [append parse_value skip_space is_space].
  change (is_space " ") with true. cbn iota. cbn [skip_space].
  change (is_space "[") with false. cbn iota.
  change (is_dq "[") with false. change (Ascii.eqb "[" "[") with true. cbn iota.
  rewrite <- (append_nil_r (Js.join ", " (map quoted l))) at 1.
  rewrite append_assoc.
  rewrite (parse_items_join quoted VString 1 " " "" eq_refl eq_refl l).
  - reflexivity.
  - intros s Hs. rewrite Forall_forall in Hall.
    apply (parses_quoted "" s eq_refl). now apply Hall.
  - lia.
Qed.

Lemma parses_videos l :
  Forall (fun s => safe_text s = true) l ->
  parses (List.length l + 3) (videos_text l) (strings l).
Proof.
  intros Hall f rest Hf. destruct f as [|f]; [lia|]. unfold videos_text.
  rewrite !append_assoc. cbn [append parse_value skip_space is_space].
  change (is_space " ") with true. cbn iota. cbn [skip_space].
  change (is_space "[") with false. cbn iota.
  change (is_dq "[") with false. change (Ascii.eqb "[" "[") with true. cbn iota.
  rewrite (parse_items_skip f nl) by reflexivity.
  change (nl ++ String " " (String " " (String " " (String " " (String "]" rest)))))
    with ((nl ++ "    ") ++ String "]" rest).
  rewrite (parse_items_join (fun v => "      " ++ quoted v) VString 1 nl
             (nl ++ "    ") eq_refl eq_refl l).
  - reflexivity.
  - intros s Hs. rewrite Forall_forall in Hall.
    apply (parses_quoted "      " s eq_refl). now apply Hall.
  - lia.
Qed.

Lemma parses_social l :
  (forall kv, In kv l ->
     identifier (fst kv) = true /\ fst kv <> "__proto__"
     /\ safe_text (snd kv) = true) ->
  NoDup (map fst l) ->
  parses (List.length l + 3) (social_text l) (VObject (map entry_value l)).
Proof.
  intros Hall Hnd f rest Hf. destruct f as [|f]; [lia|]. unfold social_text.
  rewrite !append_assoc. cbn [append parse_value skip_space is_space].
  change (is_space " ") with true. cbn iota. cbn [skip_space].
  change (is_space "{") with false. cbn iota.
  change (is_dq "{") with false. change (Ascii.eqb "{" "[") with false.
  change (Ascii.eqb "{" "{") with true. cbn iota.
  rewrite (parse_props_skip f nl) by reflexivity.
  change (nl ++ String " " (String " " (String " " (String " " (String "}" rest)))))
    with ((nl ++ "    ") ++ String "}" rest).
  rewrite (parse_props_join "      " nl (nl ++ "    ") eq_refl eq_refl eq_refl l);
    try assumption; [reflexivity|lia|].
  intros kv _ [].
Qed.

Lemma distinct_NoDup l : SearchSpec.distinct l = true -> NoDup l.
Proof.
  induction l as [|x l IH]; [constructor|]. cbn [SearchSpec.distinct].
  intros H. apply andb_prop in H. destruct H as [Hx Hl].
  constructor; [|now apply IH].
  intros Hin. apply negb_true_iff in Hx.
  assert (Hex : existsb (String.eqb x) l = true).
  { apply existsb_exists. exists x. split; [exact Hin|apply String.eqb_refl]. }
  congruence.
Qed.

Lemma keep_social_all l :
  forallb well_formed_handle l = true -> keep_social l = l.
Proof.
  induction l as [|kv l IH]; [reflexivity|]. cbn [forallb keep_social filter].
  intros H. apply andb_prop in H. destruct H as [Hkv Hl].
  unfold well_formed_handle in Hkv. apply andb_prop in Hkv. destruct Hkv as [_ Hne].
  rewrite Hne. f_equal. now apply IH.
Qed.

Lemma well_formed_handles l :
  forallb well_formed_handle l = true ->
  forall kv, In kv l ->
    identifier (fst kv) = true /\ fst kv <> "__proto__" /\ safe_text (snd kv) = true.
Proof.
  intros H kv Hin. rewrite forallb_forall in H. specialize (H kv Hin).
  unfold well_formed_handle in H.
  apply andb_prop in H. destruct H as [H _].
  apply andb_prop in H. destruct H as [H H3].
  apply andb_prop in H. destruct H as [H1 H2].
  repeat split; try assumption.
  apply negb_true_iff in H2. now apply String.eqb_neq.
Qed.

Lemma forallb_Forall {A} (p : A -> bool) l :
  forallb p l = true -> Forall (fun x => p x = true) l.
Proof. intros H. apply Forall_forall. now apply forallb_forall. Qed.

Lemma well_formed_artist_description a :
  well_formed_artist a = true ->
  exists d, description a = Some d /\ Js.all_chars description_char d = true.
Proof.
  unfold well_formed_artist. intros Hwf.
  repeat (apply andb_prop in Hwf; let H := fresh "H" in destruct Hwf as [Hwf H]).
  destruct (description a) as [d|]; [|discriminate]. now exists d.
Qed.

Lemma artist_parses a :
  well_formed_artist a = true ->
  parses (artist_need a) (artistToTS a) (artist_value a).
Proof.
  intros Hwf. destruct (well_formed_artist_description a Hwf) as (d & Hd & Hdesc).
  unfold well_formed_artist in Hwf.
  repeat (apply andb_prop in Hwf; let H := fresh "H" in destruct Hwf as [Hwf H]).
  rename Hwf into Hname, H6 into Hact, H4 into Hstyle,
    H3 into Hsocial, H2 into Hkeys, H1 into Hcountry, H0 into Himage, H into Hvideos.
  intros f rest Hf. unfold artist_need in Hf.
  rewrite artistToTS_shape, (keep_social_all _ Hsocial), Hd. cbn [or_empty].
  do 12 (destruct f as [|f]; [lia|]).
  cbn [append parse_value skip_space is_space].
  change (is_space " ") with true. cbn iota. cbn [skip_space].
  change (is_space "{") with false. cbn iota.
  change (is_dq "{") with false. change (Ascii.eqb "{" "[") with false.
  change (Ascii.eqb "{" "{") with true. cbn iota.
  rewrite (prop_step _ "id" _ (VNumber (id a))); [|reflexivity|discriminate|].
  2:{ exact (parse_value_number _ " " (id a) "," _ eq_refl eq_refl eq_refl eq_refl). }
  rewrite (prop_step _ "name" _ (VString (name a))); [|reflexivity|discriminate|].
  2:{ apply (parses_quoted " " (name a) eq_refl Hname). lia. }
  rewrite (prop_step _ "act" _ (VString (act a))); [|reflexivity|discriminate|].
  2:{ apply (parses_quoted " " (act a) eq_refl Hact). lia. }
  rewrite (prop_step _ "description" _ (VString d));
    [|reflexivity|discriminate|].
  2:{ apply (parses_description _ Hdesc). lia. }
  rewrite (prop_step _ "style" _ (strings (style a))); [|reflexivity|discriminate|].
  2:{ apply (parses_style _ (forallb_Forall _ _ Hstyle)). lia. }
  rewrite (prop_step _ "social" _ (VObject (map entry_value (social a))));
    [|reflexivity|discriminate|].
  2:{ apply (parses_social _ (well_formed_handles _ Hsocial)
               (distinct_NoDup _ Hkeys)). lia. }
  rewrite (prop_step _ "country" _ (VString (country a)));
    [|reflexivity|discriminate|].
  2:{ apply (parses_quoted " " (country a) eq_refl Hcountry). lia. }
  rewrite (prop_step _ "image_url" _ (VString (image_url a)));
    [|reflexivity|discriminate|].
  2:{ apply (parses_quoted " " (image_url a) eq_refl Himage). lia. }
  unfold artist_value. rewrite Hd.
  destruct (videos a) as [[|v vs]|]; [discriminate| |].
  - rewrite (prop_step _ "videos" _ (strings (v :: vs)));
      [|reflexivity|discriminate|].
    2:{ apply (parses_videos _ (forallb_Forall _ _ Hvideos)). cbn [List.length] in *. lia. }
    exact (parse_props_close _ (nl ++ "  ") rest _ eq_refl).
  - exact (parse_props_close _ (nl ++ "  ") rest _ eq_refl).
Qed.

(** *** Fuel *)

Lemma join_length_count {A} sep (text : A -> string) l :
  (forall x, In x l -> 1 <= String.length (text x)) ->
  List.length l <= String.length (Js.join sep (map text l)).
Proof.
  induction l as [|a l IH]; intros Hall; [cbn; lia|].
  assert (Ha : 1 <= String.length (text a)) by (apply Hall; now left).
  assert (Hl : List.length l <= String.length (Js.join sep (map text l))).
  { apply IH. intros x Hx. apply Hall. now right. }
  destruct l as [|b l]; [cbn in *; lia|].
  cbn [map]. rewrite join_cons2, !JsFacts.length_append.
  cbn [map List.length] in *. lia.
Qed.

Lemma join_length_item {A} sep (text : A -> string) l a :
  In a l -> String.length (text a) <= String.length (Js.join sep (map text l)).
Proof.
  induction l as [|b l IH]; [contradiction|]. intros Hin.
  destruct l as [|c l].
  - destruct Hin as [->|[]]. cbn. lia.
  - cbn [map]. rewrite join_cons2, !JsFacts.length_append.
    destruct Hin as [->|Hin]; [lia|]. specialize (IH Hin). cbn [map] in IH. lia.
Qed.

Lemma quoted_length s : 1 <= String.length (quoted s).
Proof. unfold quoted. rewrite !JsFacts.length_append. cbn. lia. Qed.

Lemma artist_need_length a :
  forallb well_formed_handle (social a) = true ->
  artist_need a <= String.length (artistToTS a).
Proof.
  intros Hsocial. rewrite <- (append_nil_r (artistToTS a)), artistToTS_shape.
  rewrite (keep_social_all _ Hsocial).
  unfold artist_need, prop, style_text, social_text, videos_text.
  assert (H1 : List.length (style a)
               <= String.length (Js.join ", " (map quoted (style a)))).
  { apply join_length_count. intros x _. apply quoted_length. }
  assert (H2 : List.length (social a)
               <= String.length (Js.join ("," ++ nl)
                                   (map (entry_text "      ") (social a)))).
  { apply join_length_count. intros x _. unfold entry_text.
    rewrite !JsFacts.length_append. cbn. lia. }
  assert (Hnl : String.length nl = 1) by reflexivity.
  destruct (videos a) as [[|v vs]|].
  - repeat (progress (rewrite ?JsFacts.length_append; cbn [String.length])).
    cbn [List.length]. lia.
  - assert (H3 : List.length (v :: vs)
                 <= String.length (Js.join ("," ++ nl)
                                     (map (fun v => "      " ++ quoted v) (v :: vs)))).
    { apply join_length_count. intros x _. rewrite !JsFacts.length_append. cbn. lia. }
    unfold prop.
    repeat (progress (rewrite ?JsFacts.length_append; cbn [String.length])).
    lia.
  - repeat (progress (rewrite ?JsFacts.length_append; cbn [String.length])).
    cbn [List.length]. lia.
Qed.

Lemma parses_more n m text v : parses n text v -> n <= m -> parses m text v.
Proof. intros H Hnm f rest Hf. apply H. lia. Qed.

Lemma well_formed_artist_social a :
  well_formed_artist a = true -> forallb well_formed_handle (social a) = true.
Proof.
  unfold well_formed_artist. intros Hwf.
  repeat (apply andb_prop in Hwf; let H := fresh "H" in destruct Hwf as [Hwf H]).
  assumption.
Qed.

Lemma artistToTS_length a : 1 <= String.length (artistToTS a).
Proof. unfold artistToTS. rewrite JsFacts.length_append. cbn. lia. Qed.

(** *** The match of the regular expression *)

Lemma lf_ok_app a b after :
  lf_ok (a ++ b) after = lf_ok a (first_ok b after) && lf_ok b after.
Proof.
  induction a as [|c a IH]; [reflexivity|]. cbn [append lf_ok]. rewrite IH.
  destruct (is_lf c); [|reflexivity]. rewrite !andb_assoc. f_equal. f_equal.
  destruct a; reflexivity.
Qed.

Lemma lf_ok_no_lf s after : no_lf s = true -> lf_ok s after = true.
Proof.
  induction s as [|c s IH]; [reflexivity|]. cbn [no_lf Js.all_chars lf_ok].
  intros H. apply andb_prop in H. destruct H as [Hc Hs].
  apply negb_true_iff in Hc. rewrite Hc. now apply IH.
Qed.

Lemma before_first_unfold pat s :
  before_first pat s
  = if String.prefix pat s then Some EmptyString
    else match s with
         | EmptyString => None
         | String c rest =>
             match before_first pat rest with
             | Some b => Some (String c b)
             | None => None
             end
         end.
Proof. now destruct s. Qed.

Lemma before_first_ok s rest :
  lf_ok s true = true ->
  before_first (nl ++ "]") (s ++ nl ++ "]" ++ rest) = Some s.
Proof.
  induction s as [|c s IH]; intros Hok.
  - rewrite before_first_unfold. cbn [append].
    change (nl ++ String "]" rest) with ((nl ++ "]") ++ rest).
    now rewrite prefix_append.
  - cbn [lf_ok] in Hok. apply andb_prop in Hok. destruct Hok as [Hc Hs].
    rewrite before_first_unfold.
    assert (Hp : String.prefix (nl ++ "]") (String c s ++ nl ++ "]" ++ rest) = false).
    { unfold nl. cbn [append String.prefix].
      destruct (ascii_dec (ascii_of_nat 10) c) as [<-|Hne]; [|reflexivity].
      change (is_lf (ascii_of_nat 10)) with true in Hc. cbn iota in Hc.
      destruct s as [|d s]; cbn [append String.prefix].
      - destruct (ascii_dec "]" (ascii_of_nat 10)); [discriminate|reflexivity].
      - cbn [first_ok] in Hc. unfold not_bracket in Hc. apply negb_true_iff in Hc.
        destruct (ascii_dec "]" d) as [<-|]; [discriminate|reflexivity]. }
    rewrite Hp.
    change (String c s ++ nl ++ "]" ++ rest) with (String c (s ++ nl ++ "]" ++ rest)).
    cbn iota. now rewrite (IH Hs).
Qed.

Lemma no_lf_app a b : no_lf (a ++ b) = no_lf a && no_lf b.
Proof. apply JsFacts.all_chars_append. Qed.

Lemma safe_text_no_lf s : safe_text s = true -> no_lf s = true.
Proof.
  induction s as [|c s IH]; [reflexivity|]. cbn [safe_text no_lf Js.all_chars].
  intros H. apply andb_prop in H. destruct H as [Hc Hs].
  destruct (text_char_cases c Hc) as (_ & _ & Hlf & _). rewrite Hlf. now apply IH.
Qed.

Lemma no_lf_quoted s : safe_text s = true -> no_lf (quoted s) = true.
Proof.
  intros H. unfold quoted. rewrite !no_lf_app, (safe_text_no_lf s H). reflexivity.
Qed.

Lemma no_lf_escape d : no_lf (escape d) = true.
Proof.
  induction d as [|c d IH]; [reflexivity|]. rewrite escape_cons, no_lf_app, IH.
  destruct (is_dq c); [reflexivity|].
  destruct (is_lf c) eqn:E; [reflexivity|]. cbn. now rewrite E.
Qed.

Lemma digit_not_lf c : is_digit c = true -> negb (is_lf c) = true.
Proof.
  destruct c as [[] [] [] [] [] [] [] []]; cbn; intros H; try reflexivity; discriminate.
Qed.

Lemma no_lf_number n : no_lf (number_to_string n) = true.
Proof.
  unfold number_to_string, no_lf.
  pose proof (string_of_uint_digits (N.to_uint n)) as H.
  induction (NilEmpty.string_of_uint (N.to_uint n)) as [|c s IH]; [reflexivity|].
  cbn [Js.all_chars] in *. apply andb_prop in H. destruct H as [Hc Hs].
  now rewrite (digit_not_lf c Hc), IH.
Qed.

Lemma ident_part_not_lf c : is_ident_part c = true -> negb (is_lf c) = true.
Proof.
  destruct c as [[] [] [] [] [] [] [] []]; cbn; intros H; try reflexivity; discriminate.
Qed.

Lemma no_lf_identifier k : identifier k = true -> no_lf k = true.
Proof.
  destruct k as [|c k]; [discriminate|]. cbn [identifier no_lf Js.all_chars].
  intros H. apply andb_prop in H. destruct H as [Hc Hk].
  rewrite (ident_part_not_lf c (ident_start_part c Hc)). cbn [andb].
  induction k as [|d k IH]; [reflexivity|]. cbn [Js.all_chars] in *.
  apply andb_prop in Hk. destruct Hk as [Hd Hk].
  now rewrite (ident_part_not_lf d Hd), IH.
Qed.

Lemma no_lf_join sep l :
  no_lf sep = true -> Forall (fun s => no_lf s = true) l ->
  no_lf (Js.join sep l) = true.
Proof.
  intros Hsep. induction l as [|x l IH]; intros Hall; [reflexivity|].
  inversion Hall as [|? ? Hx Hl]; subst. destruct l as [|y l]; [exact Hx|].
  rewrite join_cons2, !no_lf_app, Hx, Hsep. now apply IH.
Qed.

(** Lines: items that start with something other than a closing bracket,
    joined by a comma and a line break. *)
Lemma lf_ok_lines {A} (text : A -> string) l after :
  (forall x, In x l -> forall b, lf_ok (text x) b = true) ->
  (forall x, In x l -> forall s b, first_ok (text x ++ s) b = true) ->
  lf_ok (Js.join ("," ++ nl) (map text l)) after = true.
Proof.
  induction l as [|x l IH]; intros Hok Hfirst; [reflexivity|].
  destruct l as [|y l].
  - cbn. apply Hok. now left.
  - change (map text (x :: y :: l)) with (text x :: text y :: map text l).
    rewrite join_cons2, !lf_ok_app.
    change (text y :: map text l) with (map text (y :: l)).
    rewrite (Hok x) by now left.
    rewrite IH.
    + cbn [andb]. rewrite andb_true_r.
      unfold nl. cbn [append lf_ok is_lf]. 
      change (is_lf ",") with false. change (is_lf (ascii_of_nat 10)) with true.
      cbn iota. cbn [first_ok andb].
      rewrite andb_true_r.
      destruct l as [|z l].
      * cbn [map Js.join]. rewrite <- (append_nil_r (text y)). apply Hfirst.
        right. now left.
      * cbn [map]. rewrite join_cons2. apply Hfirst. right. now left.
    + intros z Hz. apply Hok. now right.
    + intros z Hz. apply Hfirst. now right.
Qed.

Lemma first_ok_lines {A} (text : A -> string) l s after :
  (forall x, In x l -> forall s b, first_ok (text x ++ s) b = true) ->
  first_ok (Js.join ("," ++ nl) (map text l) ++ nl ++ s) after = true.
Proof.
  intros Hfirst. destruct l as [|x l]; [reflexivity|].
  destruct l as [|y l].
  - cbn [map Js.join]. apply Hfirst. now left.
  - cbn [map]. rewrite join_cons2, append_assoc. apply Hfirst. now left.
Qed.

Lemma lf_ok_prop key vt R after :
  no_lf key = true -> lf_ok vt true = true ->
  lf_ok (prop key vt R) after = lf_ok R after.
Proof.
  intros Hk Hv. unfold prop. rewrite !lf_ok_app.
  rewrite (lf_ok_no_lf key _ Hk).
  change (lf_ok (String ":" (vt ++ String "," R)) after)
    with (lf_ok (vt ++ String "," R) after).
  rewrite lf_ok_app.
  change (first_ok (String "," R) after) with true. rewrite Hv.
  change (lf_ok (String "," R) after) with (lf_ok R after).
  destruct (lf_ok R after); reflexivity.
Qed.

Lemma no_lf_style l :
  Forall (fun s => safe_text s = true) l -> no_lf (style_text l) = true.
Proof.
  intros Hl. unfold style_text. rewrite !no_lf_app.
  rewrite no_lf_join; [reflexivity|reflexivity|].
  induction Hl as [|x l Hx Hl IH]; constructor; [now apply no_lf_quoted|exact IH].
Qed.

Lemma no_lf_entry kv :
  identifier (fst kv) = true -> safe_text (snd kv) = true ->
  no_lf (entry_text "      " kv) = true.
Proof.
  intros Hk Hv. unfold entry_text. rewrite !no_lf_app.
  now rewrite (no_lf_identifier _ Hk), (no_lf_quoted _ Hv).
Qed.

Lemma lf_ok_social l :
  (forall kv, In kv l -> identifier (fst kv) = true /\ safe_text (snd kv) = true) ->
  lf_ok (social_text l) true = true.
Proof.
  intros Hl. unfold social_text.
  rewrite lf_ok_app. cbn [lf_ok is_lf first_ok append].
  change (" {") with (String " " (String "{" EmptyString)).
  cbn [lf_ok first_ok]. change (is_lf " ") with false. change (is_lf "{") with false.
  cbn iota. cbn [andb].
  rewrite lf_ok_app.
  assert (Hnl : forall s b, lf_ok nl (first_ok s b) = first_ok s b).
  { intros s b. unfold nl. cbn [lf_ok first_ok].
    change (is_lf (ascii_of_nat 10)) with true. cbn iota.
    now rewrite andb_true_r. }
  rewrite Hnl.
  rewrite (first_ok_lines (entry_text "      ") l).
  2:{ intros x _ s b. reflexivity. }
  rewrite lf_ok_app.
  rewrite (lf_ok_lines (entry_text "      ") l).
  2:{ intros x Hx b. apply lf_ok_no_lf. destruct (Hl x Hx). now apply no_lf_entry. }
  2:{ intros x _ s b. reflexivity. }
  reflexivity.
Qed.

Lemma lf_ok_videos l :
  Forall (fun s => safe_text s = true) l ->
  lf_ok (videos_text l) true = true.
Proof.
  intros Hl. unfold videos_text.
  rewrite lf_ok_app.
  change (lf_ok " [" (first_ok
    (nl ++ Js.join ("," ++ nl) (map (fun v => "      " ++ quoted v) l) ++ nl ++ "    ]") true))
    with true. cbn [andb].
  rewrite lf_ok_app.
  assert (Hnl : forall s b, lf_ok nl (first_ok s b) = first_ok s b).
  { intros s b. unfold nl. cbn [lf_ok first_ok].
    change (is_lf (ascii_of_nat 10)) with true. cbn iota.
    now rewrite andb_true_r. }
  rewrite Hnl.
  rewrite (first_ok_lines (fun v => "      " ++ quoted v) l).
  2:{ intros x _ s b. reflexivity. }
  rewrite lf_ok_app.
  rewrite (lf_ok_lines (fun v => "      " ++ quoted v) l).
  2:{ intros x Hx b. apply lf_ok_no_lf. rewrite no_lf_app.
      rewrite Forall_forall in Hl. now rewrite (no_lf_quoted x (Hl x Hx)). }
  2:{ intros x _ s b. reflexivity. }
  reflexivity.
Qed.

Lemma lf_ok_artist a after :
  well_formed_artist a = true -> lf_ok (artistToTS a) after = true.
Proof.
  unfold well_formed_artist. intros Hwf.
  repeat (apply andb_prop in Hwf; let H := fresh "H" in destruct Hwf as [Hwf H]).
  rename Hwf into Hname, H6 into Hact, H4 into Hstyle,
    H3 into Hsocial, H2 into Hkeys, H1 into Hcountry, H0 into Himage, H into Hvideos.
  rewrite <- (append_nil_r (artistToTS a)).
  rewrite artistToTS_shape, (keep_social_all _ Hsocial).
  change (lf_ok ("  " ++ String "{" ?x) after) with (lf_ok x after).
  assert (Hq : forall s, safe_text s = true -> lf_ok (" " ++ quoted s) true = true).
  { intros s Hs. apply lf_ok_no_lf. rewrite no_lf_app. now rewrite no_lf_quoted. }
  rewrite lf_ok_prop; [|reflexivity|].
  2:{ apply lf_ok_no_lf. rewrite no_lf_app. now rewrite no_lf_number. }
  rewrite lf_ok_prop; [|reflexivity|now apply Hq].
  rewrite lf_ok_prop; [|reflexivity|now apply Hq].
  rewrite lf_ok_prop; [|reflexivity|].
  2:{ apply lf_ok_no_lf. rewrite !no_lf_app. now rewrite no_lf_escape. }
  rewrite lf_ok_prop; [|reflexivity|].
  2:{ apply lf_ok_no_lf, no_lf_style. now apply forallb_Forall. }
  rewrite lf_ok_prop; [|reflexivity|].
  2:{ apply lf_ok_social. intros kv Hin.
      destruct (well_formed_handles _ Hsocial kv Hin) as (? & _ & ?). now split. }
  rewrite lf_ok_prop; [|reflexivity|now apply Hq].
  rewrite lf_ok_prop; [|reflexivity|now apply Hq].
  destruct (videos a) as [[|v vs]|]; [reflexivity| |reflexivity].
  rewrite lf_ok_prop; [reflexivity|reflexivity|].
  apply lf_ok_videos. now apply forallb_Forall.
Qed.

(** *** One release *)

Lemma line_char_description d :
  Js.all_chars line_char d = true ->
  Js.all_chars description_char d = true /\ no_lf d = true.
Proof.
  induction d as [|c d IH]; [now split|]. cbn [Js.all_chars no_lf].
  intros H. apply andb_prop in H. destruct H as [Hc Hd].
  destruct (IH Hd) as [H1 H2]. unfold no_lf in H2. rewrite H1, H2.
  unfold line_char in Hc. apply negb_true_iff in Hc.
  apply orb_false_iff in Hc. destruct Hc as [Hc Hr].
  apply orb_false_iff in Hc. destruct Hc as [Hb Hl].
  unfold description_char. now rewrite Hb, Hr, Hl.
Qed.

Lemma escape_line d :
  no_lf d = true -> escape d = replace_all is_dq (backslash ++ dq) d.
Proof.
  induction d as [|c d IH]; [reflexivity|]. cbn [no_lf Js.all_chars].
  intros H. apply andb_prop in H. destruct H as [Hc Hd].
  apply negb_true_iff in Hc. rewrite escape_cons, Hc, (IH Hd).
  cbn [replace_all]. destruct (is_dq c); reflexivity.
Qed.

Lemma releaseToTS_shape r rest :
  releaseToTS r ++ rest
  = "  " ++ String "{"
      (prop "id" (" " ++ number_to_string (release_id r))
      (prop "title" (" " ++ quoted (title r))
      (prop "artist" (" " ++ quoted (artist r))
      (prop "type" (" " ++ quoted (type r))
      (prop "releaseDate" (" " ++ quoted (releaseDate r))
      (prop "catalogNumber" (" " ++ quoted (or_empty (catalogNumber r)))
      (prop "coverUrl" (" " ++ quoted (coverUrl r))
      (prop "bandcampUrl" (" " ++ quoted (bandcampUrl r))
      (prop "bandcampId" (" " ++ quoted (bandcampId r))
         (let tail :=
            match tracklist r with
            | Some (t :: ts) =>
                prop "tracklist" (style_text (t :: ts)) (nl ++ "  }" ++ rest)
            | _ => nl ++ "  }" ++ rest
            end in
          match release_description r with
          | Some d =>
              if d =? "" then tail
              else prop "description"
                     (" " ++ dq ++ replace_all is_dq (backslash ++ dq) d ++ dq) tail
          | None => tail
          end)))))))))).
Proof.
  unfold releaseToTS, prop, style_text, quoted. cbv zeta.
  destruct (release_description r) as [d|]; [destruct (d =? "")|];
    destruct (tracklist r) as [[|t ts]|]; rewrite !append_assoc; reflexivity.
Qed.

Lemma parses_line d :
  Js.all_chars line_char d = true ->
  parses 1 (" " ++ dq ++ replace_all is_dq (backslash ++ dq) d ++ dq) (VString d).
Proof.
  intros Hd. destruct (line_char_description d Hd) as [Hdesc Hlf].
  rewrite <- (escape_line d Hlf). now apply parses_description.
Qed.

Lemma well_formed_release_catalogNumber r :
  well_formed_release r = true ->
  exists c, catalogNumber r = Some c /\ safe_text c = true.
Proof.
  unfold well_formed_release. intros Hwf.
  repeat (apply andb_prop in Hwf; let H := fresh "H" in destruct Hwf as [Hwf H]).
  destruct (catalogNumber r) as [c|]; [|discriminate]. now exists c.
Qed.

Lemma release_parses r :
  well_formed_release r = true ->
  parses (release_need r) (releaseToTS r) (release_value r).
Proof.
  intros Hwf.
  destruct (well_formed_release_catalogNumber r Hwf) as (c & Hc & Hcat).
  unfold well_formed_release in Hwf.
  repeat (apply andb_prop in Hwf; let H := fresh "H" in destruct Hwf as [Hwf H]).
  rename Hwf into Htitle, H7 into Hartist, H6 into Htype, H5 into Hdate,
    H3 into Hcover, H2 into Hurl, H1 into Hid, H0 into Hdesc, H into Htracks.
  intros f rest Hf. unfold release_need in Hf.
  rewrite releaseToTS_shape, Hc. cbn [or_empty].
  do 14 (destruct f as [|f]; [lia|]).
  cbn [append parse_value skip_space is_space].
  change (is_space " ") with true. cbn iota. cbn [skip_space].
  change (is_space "{") with false. cbn iota.
  change (is_dq "{") with false. change (Ascii.eqb "{" "[") with false.
  change (Ascii.eqb "{" "{") with true. cbn iota.
  rewrite (prop_step _ "id" _ (VNumber (release_id r)));
    [|reflexivity|discriminate|].
  2:{ exact (parse_value_number _ " " (release_id r) "," _
               eq_refl eq_refl eq_refl eq_refl). }
  rewrite (prop_step _ "title" _ (VString (title r)));
    [|reflexivity|discriminate|].
  2:{ apply (parses_quoted " " (title r) eq_refl Htitle). lia. }
  rewrite (prop_step _ "artist" _ (VString (artist r)));
    [|reflexivity|discriminate|].
  2:{ apply (parses_quoted " " (artist r) eq_refl Hartist). lia. }
  rewrite (prop_step _ "type" _ (VString (type r)));
    [|reflexivity|discriminate|].
  2:{ apply (parses_quoted " " (type r) eq_refl Htype). lia. }
  rewrite (prop_step _ "releaseDate" _ (VString (releaseDate r)));
    [|reflexivity|discriminate|].
  2:{ apply (parses_quoted " " (releaseDate r) eq_refl Hdate). lia. }
  rewrite (prop_step _ "catalogNumber" _ (VString c));
    [|reflexivity|discriminate|].
  2:{ apply (parses_quoted " " c eq_refl Hcat). lia. }
  rewrite (prop_step _ "coverUrl" _ (VString (coverUrl r)));
    [|reflexivity|discriminate|].
  2:{ apply (parses_quoted " " (coverUrl r) eq_refl Hcover). lia. }
  rewrite (prop_step _ "bandcampUrl" _ (VString (bandcampUrl r)));
    [|reflexivity|discriminate|].
  2:{ apply (parses_quoted " " (bandcampUrl r) eq_refl Hurl). lia. }
  rewrite (prop_step _ "bandcampId" _ (VString (bandcampId r)));
    [|reflexivity|discriminate|].
  2:{ apply (parses_quoted " " (bandcampId r) eq_refl Hid). lia. }
  unfold release_value. rewrite Hc. cbv zeta.
  destruct (release_description r) as [d|].
  - apply andb_prop in Hdesc. destruct Hdesc as [Hne Hd].
    apply negb_true_iff in Hne. rewrite Hne.
    rewrite (prop_step _ "description" _ (VString d));
      [|reflexivity|discriminate|].
    2:{ apply (parses_line _ Hd). lia. }
    destruct (tracklist r) as [[|t ts]|]; [discriminate| |].
    + rewrite (prop_step _ "tracklist" _ (strings (t :: ts)));
        [|reflexivity|discriminate|].
      2:{ apply (parses_style _ (forallb_Forall _ _ Htracks)).
          cbn [List.length] in *. lia. }
      exact (parse_props_close _ (nl ++ "  ") rest _ eq_refl).
    + exact (parse_props_close _ (nl ++ "  ") rest _ eq_refl).
  - destruct (tracklist r) as [[|t ts]|]; [discriminate| |].
    + rewrite (prop_step _ "tracklist" _ (strings (t :: ts)));
        [|reflexivity|discriminate|].
      2:{ apply (parses_style _ (forallb_Forall _ _ Htracks)).
          cbn [List.length] in *. lia. }
      exact (parse_props_close _ (nl ++ "  ") rest _ eq_refl).
    + exact (parse_props_close _ (nl ++ "  ") rest _ eq_refl).
Qed.

Lemma release_need_length r :
  release_need r <= String.length (releaseToTS r).
Proof.
  rewrite <- (append_nil_r (releaseToTS r)), releaseToTS_shape.
  unfold release_need, style_text. cbv zeta.
  assert (Hnl : String.length nl = 1) by reflexivity.
  assert (Hj : forall l, List.length l
                         <= String.length (Js.join ", " (map quoted l))).
  { intros l. apply join_length_count. intros x _. apply quoted_length. }
  destruct (release_description r) as [d|]; [destruct (d =? "")|];
    (destruct (tracklist r) as [[|t ts]|]; [| specialize (Hj (t :: ts)) |]);
    unfold prop;
    repeat (progress (rewrite ?JsFacts.length_append; cbn [String.length]));
    cbn [List.length] in *; lia.
Qed.

Lemma releaseToTS_length r : 1 <= String.length (releaseToTS r).
Proof.
  unfold releaseToTS. cbv zeta. rewrite !JsFacts.length_append. cbn. lia.
Qed.

Lemma lf_ok_release r after :
  well_formed_release r = true -> lf_ok (releaseToTS r) after = true.
Proof.
  intros Hwf.
  destruct (well_formed_release_catalogNumber r Hwf) as (c & Hc & Hcat).
  unfold well_formed_release in Hwf.
  repeat (apply andb_prop in Hwf; let H := fresh "H" in destruct Hwf as [Hwf H]).
  rename Hwf into Htitle, H7 into Hartist, H6 into Htype, H5 into Hdate,
    H3 into Hcover, H2 into Hurl, H1 into Hid, H0 into Hdesc, H into Htracks.
  rewrite <- (append_nil_r (releaseToTS r)).
  rewrite releaseToTS_shape, Hc. cbn [or_empty].
  change (lf_ok ("  " ++ String "{" ?x) after) with (lf_ok x after).
  assert (Hq : forall s, safe_text s = true -> lf_ok (" " ++ quoted s) true = true).
  { intros s Hs. apply lf_ok_no_lf. rewrite no_lf_app. now rewrite no_lf_quoted. }
  rewrite lf_ok_prop; [|reflexivity|].
  2:{ apply lf_ok_no_lf. rewrite no_lf_app. now rewrite no_lf_number. }
  do 8 (rewrite lf_ok_prop; [|reflexivity|now apply Hq]).
  cbv zeta.
  assert (Htail : lf_ok match tracklist r with
                        | Some (t :: ts) =>
                            prop "tracklist" (style_text (t :: ts)) (nl ++ "  }" ++ "")
                        | _ => nl ++ "  }" ++ ""
                        end after = true).
  { destruct (tracklist r) as [[|t ts]|]; [reflexivity| |reflexivity].
    rewrite lf_ok_prop; [reflexivity|reflexivity|].
    apply lf_ok_no_lf, no_lf_style. now apply forallb_Forall. }
  destruct (release_description r) as [d|]; [|exact Htail].
  destruct (d =? ""); [exact Htail|].
  rewrite lf_ok_prop; [exact Htail|reflexivity|].
  apply andb_prop in Hdesc. destruct Hdesc as [_ Hd].
  destruct (line_char_description d Hd) as [_ Hlf].
  apply lf_ok_no_lf. rewrite !no_lf_app, <- (escape_line d Hlf), no_lf_escape.
  reflexivity.
Qed.

(** *** A file of entities

    What the two files share: the entities, one literal each and joined by a
    comma and a line break, between a header that ends with the opening
    bracket and a footer that starts with the closing one. *)

Section Entities.

Context {A : Type} (text : A -> string) (value : A -> Value).
Context (need : A -> nat) (well_formed : A -> bool).
Context (prefix header rest : string).

Hypothesis text_parses :
  forall a, well_formed a = true -> parses (need a) (text a) (value a).
Hypothesis need_length :
  forall a, well_formed a = true -> need a <= String.length (text a).
Hypothesis text_length : forall a, 1 <= String.length (text a).
Hypothesis text_lines :
  forall a after, well_formed a = true -> lf_ok (text a) after = true.
Hypothesis text_first : forall a s after, first_ok (text a ++ s) after = true.
Hypothesis header_match :
  forall code, after_first prefix (header ++ code) = Some (nl ++ code).

Lemma eval_entities l :
  forallb well_formed l = true ->
  eval ("[" ++ (nl ++ entities_code text l) ++ "]")
  = Evaluated (VArray (map value l)).
Proof.
  intros Hwf. unfold eval.
  set (code := "[" ++ (nl ++ entities_code text l) ++ "]").
  assert (Hlen : String.length code = 3 + String.length (entities_code text l)).
  { unfold code. cbn [append String.length]. rewrite JsFacts.length_append. cbn. lia. }
  replace (2 * String.length code + 2) with (S (2 * String.length code + 1)) by lia.
  unfold code at 2. cbn [append parse_value skip_space is_space].
  change (is_space "[") with false. cbn iota.
  change (is_dq "[") with false. change (Ascii.eqb "[" "[") with true. cbn iota.
  rewrite append_assoc.
  rewrite (parse_items_skip _ nl) by reflexivity.
  change (entities_code text l ++ "]")
    with (entities_code text l ++ "" ++ String "]" "").
  unfold entities_code.
  rewrite (parse_items_join text value
             (String.length (entities_code text l)) nl "" eq_refl eq_refl l).
  - reflexivity.
  - intros a Hin. rewrite forallb_forall in Hwf. specialize (Hwf a Hin).
    apply (parses_more (need a)); [now apply text_parses|].
    etransitivity; [now apply need_length|].
    unfold entities_code. now apply join_length_item.
  - assert (Hcount : List.length l <= String.length (entities_code text l)).
    { unfold entities_code. apply join_length_count. intros x _.
      apply text_length. }
    lia.
Qed.

Lemma lf_ok_entities l :
  forallb well_formed l = true ->
  lf_ok (nl ++ entities_code text l) true = true.
Proof.
  intros Hwf. rewrite forallb_forall in Hwf.
  rewrite lf_ok_app. unfold entities_code.
  rewrite (lf_ok_lines text l).
  2:{ intros a Ha b. apply text_lines. now apply Hwf. }
  2:{ intros a _ s b. apply text_first. }
  rewrite andb_true_r. unfold nl. cbn [lf_ok].
  change (is_lf (ascii_of_nat 10)) with true. cbn iota. rewrite andb_true_r.
  destruct l as [|a l]; [reflexivity|].
  destruct l as [|b l].
  - cbn [map Js.join]. rewrite <- (append_nil_r (text a)). apply text_first.
  - cbn [map]. rewrite join_cons2. apply text_first.
Qed.

Lemma parseFile_entities l :
  forallb well_formed l = true ->
  parseFile prefix (header ++ entities_code text l ++ nl ++ "]" ++ rest)
  = Entities (map value l).
Proof.
  intros Hwf. unfold parseFile, match_group.
  rewrite header_match, <- append_assoc.
  rewrite (before_first_ok (nl ++ entities_code text l) rest (lf_ok_entities l Hwf)).
  now rewrite (eval_entities l Hwf).
Qed.

End Entities.

(** *** Writing, then reading *)

Lemma artists_round_trip artists :
  forallb well_formed_artist artists = true ->
  parseArtistsFile (writeArtistsFile artists) = Entities (map artist_value artists).
Proof.
  intros Hwf.
  apply (parseFile_entities artistToTS artist_value artist_need well_formed_artist
           "const artistsData = [" artists_header); try assumption.
  - apply artist_parses.
  - intros a Ha. apply artist_need_length. now apply well_formed_artist_social.
  - apply artistToTS_length.
  - intros a after Ha. now apply lf_ok_artist.
  - reflexivity.
  - reflexivity.
Qed.

Lemma releases_round_trip releases :
  forallb well_formed_release releases = true ->
  parseReleasesFile (writeReleasesFile releases)
  = Entities (map release_value releases).
Proof.
  intros Hwf.
  apply (parseFile_entities releaseToTS release_value release_need
           well_formed_release
           "export const releases: Release[] = [" releases_header);
    try assumption.
  - apply release_parses.
  - intros r _. apply release_need_length.
  - apply releaseToTS_length.
  - intros r after Hr. now apply lf_ok_release.
  - intros r s after. rewrite releaseToTS_shape. reflexivity.
  - reflexivity.
Qed.

(** Quotes and line breaks in a description do not take an artist out of the
    well-formed ones, nor do quotes in the description of a release. *)
Lemma descriptions_with_quotes_and_line_breaks d :
  Js.all_chars description_char d = true ->
  well_formed_artist (sample_artist d) = true.
Proof.
  intros Hd. unfold well_formed_artist, sample_artist.
  cbn [name act description style social country image_url videos].
  rewrite Hd. reflexivity.
Qed.

Lemma release_descriptions_with_quotes name d :
  safe_text name = true -> d <> "" -> Js.all_chars line_char d = true ->
  well_formed_release (sample_release name d) = true.
Proof.
  intros Hn Hne Hd. unfold well_formed_release, sample_release.
  cbn [title artist type releaseDate catalogNumber coverUrl bandcampUrl
       bandcampId release_description tracklist].
  apply String.eqb_neq in Hne. rewrite Hn, Hne, Hd. reflexivity.
Qed.

(** [releaseToTS] does not escape the line breaks of a description, as
    [artistToTS] does: a release description of two lines is written with a
    raw line break inside the string literal and the file is not read back,
    while the same text round-trips as the description of an artist. *)
Lemma release_line_break_is_not_read_back :
  parseReleasesFile (writeReleasesFile [sample_release "Roots" two_lines])
  = EvalSyntaxError
  /\ parseArtistsFile (writeArtistsFile [sample_artist two_lines])
     = Entities [artist_value (sample_artist two_lines)].
Proof. split; vm_compute; reflexivity. Qed.

(** What is read back for the entities outside of the well-formed ones: a
    syntax error for a double quote in a name or a title, a line break for a
    backslash followed by the letter n, the empty text for no description and
    for no catalogue number, no handle for an empty one, no property for an
    empty list of videos. *)
Lemma outside_well_formed :
  parseArtistsFile (writeArtistsFile [quoted_name]) = EvalSyntaxError
  /\ parseReleasesFile (writeReleasesFile [sample_release twelve_inch "first"])
     = EvalSyntaxError
  /\ parseArtistsFile (writeArtistsFile [sample_artist with_backslash])
     = Entities [artist_value (sample_artist ("C:" ++ nl ++ "ew"))]
  /\ parseArtistsFile (writeArtistsFile [undescribed])
     = Entities [artist_value (sample_artist "")]
  /\ parseArtistsFile (writeArtistsFile [empty_handle])
     = Entities [artist_value plain_artist]
  /\ parseArtistsFile (writeArtistsFile [no_videos])
     = Entities [VObject (removelast
                            match artist_value no_videos with
                            | VObject props => props
                            | _ => []
                            end)].
Proof. repeat split; vm_compute; reflexivity. Qed.

(** C3, as stated, fails.  Writing and reading back does not return every
    entity as it was written: not an artist with a double quote in the name,
    with a backslash in the description, without a description, with an
    empty handle or with an empty list of videos, and not a release with a
    double quote in the title, without a catalogue number, with an empty
    description or with an empty track list. *)
Lemma catalogue_round_trip_fails :
  parseArtistsFile (writeArtistsFile [quoted_name])
  <> Entities (map artist_value [quoted_name])
  /\ parseArtistsFile (writeArtistsFile [sample_artist with_backslash])
     <> Entities (map artist_value [sample_artist with_backslash])
  /\ parseArtistsFile (writeArtistsFile [undescribed])
     <> Entities (map artist_value [undescribed])
  /\ parseArtistsFile (writeArtistsFile [empty_handle])
     <> Entities (map artist_value [empty_handle])
  /\ parseArtistsFile (writeArtistsFile [no_videos])
     <> Entities (map artist_value [no_videos])
  /\ parseReleasesFile (writeReleasesFile [sample_release twelve_inch "first"])
     <> Entities (map release_value [sample_release twelve_inch "first"])
  /\ parseReleasesFile (writeReleasesFile [uncatalogued])
     <> Entities (map release_value [uncatalogued])
  /\ parseReleasesFile (writeReleasesFile [sample_release "Roots" EmptyString])
     <> Entities (map release_value [sample_release "Roots" EmptyString])
  /\ parseReleasesFile (writeReleasesFile [no_tracks])
     <> Entities (map release_value [no_tracks]).
Proof. repeat split; vm_compute; discriminate. Qed.

(** C3, amended.  Well-formed artists and well-formed releases, all of
    whose texts are well-formed Unicode and all of whose identifiers are
    below 2^53, are read back from the files the write functions produce as
    they were written, field for field and in their order.  The description
    of a well-formed artist may hold double quotes and line breaks, the
    description of a well-formed release double quotes. *)
Theorem catalogue_round_trip artists releases :
  forallb well_formed_artist artists = true ->
  forallb well_formed_release releases = true ->
  forallb unicode_artist artists = true ->
  forallb unicode_release releases = true ->
  forallb safe_id (map id artists) = true ->
  forallb safe_id (map release_id releases) = true ->
  parseArtistsFile (writeArtistsFile artists) = Entities (map artist_value artists)
  /\ parseReleasesFile (writeReleasesFile releases)
     = Entities (map release_value releases).
Proof.
  intros Ha Hr _ _ _ _. split.
  - now apply artists_round_trip.
  - now apply releases_round_trip.
Qed.

Lemma catalogue_round_trip_witness :
  parseArtistsFile
    (writeArtistsFile [sample_artist two_lines; sample_artist quoted_word])
  = Entities (map artist_value [sample_artist two_lines; sample_artist quoted_word])
  /\ parseReleasesFile (writeReleasesFile [sample_release "Roots" quoted_word])
     = Entities (map release_value [sample_release "Roots" quoted_word]).
Proof.
  apply (catalogue_round_trip
           [sample_artist two_lines; sample_artist quoted_word]
           [sample_release "Roots" quoted_word]).
  - reflexivity.
  - reflexivity.
  - reflexivity.
  - reflexivity.
  - reflexivity.
  - reflexivity.
Defined.

End CatalogueFacts.

(** ** The catalogue routes *)

Module CatalogueRouteFacts.

Import Catalogue CatalogueSpec CatalogueFacts CatalogueRoutes.
Local Close Scope Z_scope.
Local Open Scope string_scope.























(** *** A line break in the description of a release *)

Import PathFacts.





















End CatalogueRouteFacts.

(** ** Uploads and the targets of the admin routes *)

Module UploadFacts.

Import NodePath AdminStorageRoutes Upload PathFacts AdminStorageRouteFacts.
Local Close Scope Z_scope.
Local Open Scope string_scope.

Lemma all_chars_segments p s :
  Js.all_chars p s = true ->
  Forall (fun seg => Js.all_chars p seg = true) (segments s).
Proof.
  induction s as [|c s IH]; intros Hs.
  - repeat constructor.
  - cbn [Js.all_chars] in Hs. apply andb_prop in Hs. destruct Hs as [Hc Hs].
    specialize (IH Hs). cbn [segments]. destruct (Ascii.eqb c "/").
    + now constructor.
    + destruct (segments s) as [|seg more]; [repeat constructor; cbn; now rewrite Hc|].
      inversion IH as [|? ? Hseg Hmore]; subst. constructor; [|exact Hmore].
      cbn [Js.all_chars]. now rewrite Hc.
Qed.

Lemma split_pieces sep s :
  Forall (fun piece => without sep piece = true) (split sep s).
Proof.
  induction s as [|c s IH]; [repeat constructor|]. cbn [split].
  destruct (Ascii.eqb c sep) eqn:E; [now constructor|].
  destruct (split sep s) as [|seg more]; [repeat constructor; cbn; now rewrite E|].
  inversion IH as [|? ? Hseg Hmore]; subst. constructor; [|exact Hmore].
  unfold without in *. cbn [Js.all_chars]. now rewrite E.
Qed.

Lemma pop_last l x : pop l = Some x -> In x l.
Proof.
  unfold pop. destruct (rev l) as [|y r] eqn:E; [discriminate|].
  intros [= <-]. apply in_rev. rewrite E. now left.
Qed.

Lemma pop_split sep s : exists e, pop (split sep s) = Some e /\ without sep e = true.
Proof.
  destruct (pop (split sep s)) as [e|] eqn:E.
  - exists e. split; [reflexivity|].
    pose proof (split_pieces sep s) as Hall. rewrite Forall_forall in Hall.
    apply Hall. now apply pop_last.
  - exfalso. unfold pop in E. destruct (rev (split sep s)) eqn:R; [|discriminate].
    apply (split_nonempty sep s). rewrite <- (rev_involutive (split sep s)), R.
    reflexivity.
Qed.

Lemma segments_prefix a b :
  no_slash a = true ->
  segments (a ++ b)
  = match segments b with
    | hd :: tl => (a ++ hd) :: tl
    | [] => [a]
    end.
Proof.
  induction a as [|c a IH]; intros Ha.
  - cbn [append]. destruct (segments b) eqn:E; [|reflexivity].
    now destruct (segments_nonempty b).
  - cbn [no_slash] in Ha. apply andb_prop in Ha. destruct Ha as [Hc Ha].
    apply negb_true_iff in Hc. cbn [append segments]. rewrite Hc, (IH Ha).
    destruct (segments b); reflexivity.
Qed.

Lemma all_chars_weaken (p q : ascii -> bool) s :
  (forall c, p c = true -> q c = true) ->
  Js.all_chars p s = true -> Js.all_chars q s = true.
Proof.
  intros Hpq. induction s as [|c s IH]; [reflexivity|]. cbn [Js.all_chars].
  intros H. apply andb_prop in H. destruct H as [Hc Hs].
  now rewrite (Hpq c Hc), IH.
Qed.

Lemma no_slash_all_chars s :
  no_slash s = Js.all_chars (fun c => negb (Ascii.eqb c "/")) s.
Proof. induction s as [|c s IH]; [reflexivity|]. cbn. now rewrite IH. Qed.

Lemma digit_plain_char c :
  Catalogue.is_digit c = true ->
  negb (Ascii.eqb c "/") = true /\ negb (Ascii.eqb c ".") = true.
Proof.
  destruct c as [[] [] [] [] [] [] [] []]; cbn; intros H;
    try discriminate; now split.
Qed.

Lemma base36_plain_char c :
  base36 c = true ->
  negb (Ascii.eqb c "/") = true /\ negb (Ascii.eqb c ".") = true.
Proof.
  destruct c as [[] [] [] [] [] [] [] []]; cbn; intros H;
    try discriminate; now split.
Qed.

Lemma without_dot_not_dotdot s : without "." s = true -> (s =? "..") = false.
Proof. destruct s as [|c s]; [reflexivity|]. unfold without. cbn [Js.all_chars].
  intros H. apply andb_prop in H. destruct H as [Hc _].
  apply negb_true_iff in Hc. cbn [String.eqb]. now rewrite Hc.
Qed.

(** The part of a generated name before its extension: it has neither a
    separator nor a dot, and starts with a digit. *)
Lemma generated_stem timestamp random :
  Js.all_chars base36 random = true ->
  let stem := Catalogue.number_to_string timestamp ++ "_" ++ random in
  no_slash stem = true /\ without "." stem = true
  /\ exists c r, stem = String c r /\ Catalogue.is_digit c = true.
Proof.
  intros Hr stem. subst stem.
  pose proof (CatalogueFacts.string_of_uint_digits (N.to_uint timestamp)) as Hd.
  fold (Catalogue.number_to_string timestamp) in Hd.
  split; [|split].
  - rewrite no_slash_all_chars, !JsFacts.all_chars_append.
    rewrite (all_chars_weaken _ _ _ (fun c H => proj1 (digit_plain_char c H)) Hd).
    now rewrite (all_chars_weaken _ _ _ (fun c H => proj1 (base36_plain_char c H)) Hr).
  - unfold without. rewrite !JsFacts.all_chars_append.
    rewrite (all_chars_weaken _ _ _ (fun c H => proj2 (digit_plain_char c H)) Hd).
    now rewrite (all_chars_weaken _ _ _ (fun c H => proj2 (base36_plain_char c H)) Hr).
  - destruct (CatalogueFacts.number_starts_with_digit timestamp) as (c & r & Hs & Hc).
    exists c, (r ++ "_" ++ random). now rewrite Hs.
Qed.

Lemma generated_name_no_dotdot stem e :
  no_slash stem = true ->
  (exists c r, stem = String c r /\ Catalogue.is_digit c = true) ->
  without "." e = true ->
  no_dotdot (stem ++ "." ++ e) = true.
Proof.
  intros Hns (c & r & -> & Hc) He. unfold no_dotdot.
  rewrite <- append_assoc, segments_prefix.
  2:{ rewrite no_slash_all_chars, JsFacts.all_chars_append.
      rewrite <- no_slash_all_chars, Hns. reflexivity. }
  pose proof (all_chars_segments _ e He) as Hsegs.
  destruct (segments e) as [|hd tl].
  - cbn [forallb append String.eqb].
    destruct (digit_plain_char c Hc) as [_ Hdot]. apply negb_true_iff in Hdot.
    now rewrite Hdot.
  - inversion Hsegs as [|? ? _ Htl]; subst. cbn [forallb append String.eqb].
    destruct (digit_plain_char c Hc) as [_ Hdot]. apply negb_true_iff in Hdot.
    rewrite Hdot. cbn [negb andb]. apply forallb_forall. intros seg Hin.
    rewrite Forall_forall in Htl. now rewrite (without_dot_not_dotdot seg (Htl seg Hin)).
Qed.

(** X27.  Whatever the name of the file a user uploads, the name it is
    stored under has no [..] segment and keeps the extension of the
    original, and [uploadFile] puts it within the directory of its upload
    type and answers with its public address. *)
Theorem uploads_stay_in_their_directory
    segs adminBasePath publicBase type timestamp random36 originalFilename :
  segs <> [] -> Forall (fun seg => plain seg = true) segs ->
  type = "label-submissions" \/ type = "studio-requests" ->
  Js.all_chars base36 (String.substring 2 13 random36) = true ->
  let filename := generateUniqueFilename timestamp random36 originalFilename in
  no_dotdot filename = true
  /\ pop (split "." filename) = pop (split "." originalFilename)
  /\ Remote.within (absolute_of (segs ++ [type]))
       (uploadFile_remotePath adminBasePath (absolute_of segs) type filename) = true
  /\ uploadFile adminBasePath (absolute_of segs) publicBase type filename
     = publicBase ++ "/" ++ type ++ "/" ++ filename.
Proof.
  intros Hne Hsegs Htype Hrandom filename.
  destruct (pop_split "." originalFilename) as (e & Hpop & He).
  destruct (generated_stem timestamp _ Hrandom) as (Hns & Hnd & Hstart).
  set (stem := Catalogue.number_to_string timestamp ++ "_"
               ++ String.substring 2 13 random36) in *.
  assert (Hname : filename = stem ++ "." ++ e).
  { subst filename stem. unfold generateUniqueFilename. rewrite Hpop. cbv zeta.
    now rewrite !append_assoc. }
  assert (Hnodd : no_dotdot filename = true).
  { rewrite Hname. now apply generated_name_no_dotdot. }
  assert (Hfn : filename <> "").
  { rewrite Hname. destruct Hstart as (c & r & -> & _). discriminate. }
  assert (Hadmin : (type =? "admin") = false) by now destruct Htype as [->| ->].
  assert (Hplain : plain type = true) by now destruct Htype as [->| ->].
  assert (Htne : type <> "") by (destruct Htype as [->| ->]; discriminate).
  split; [exact Hnodd|split; [|split]].
  - rewrite Hname, Hpop.
    change (stem ++ "." ++ e) with (stem ++ String "." e).
    rewrite split_app, (split_without "." stem Hnd), (split_without "." e He).
    reflexivity.
  - unfold uploadFile_remotePath. rewrite Hadmin.
    replace (join [absolute_of segs; type; filename])
      with (join [absolute_of (segs ++ [type]); filename]).
    + apply join_base_within; [now destruct segs| |exact Hnodd].
      apply Forall_app. split; [exact Hsegs|now constructor].
    + unfold join. cbn [filter].
      rewrite (SearchFacts.absolute_of_app segs [type]) by (assumption || discriminate).
      cbn [Js.join].
      assert (Hb : forall s, (absolute_of segs ++ s =? "") = false)
        by (intros s; unfold absolute_of; reflexivity).
      rewrite Hb. specialize (Hb ""). rewrite append_nil_r in Hb. rewrite Hb.
      destruct (String.eqb_spec type ""); [contradiction|].
      destruct (String.eqb_spec filename ""); [contradiction|].
      cbn [negb Js.join]. now rewrite !append_assoc.
  - unfold uploadFile. rewrite Hadmin. cbv zeta.
    apply or_else_some. destruct publicBase; discriminate.
Qed.

Lemma uploads_stay_in_their_directory_witness :
  let filename :=
    generateUniqueFilename 1700000000000 "0.k3j9x2m1q8w7e5r4t6" "../../etc/passwd" in
  no_dotdot filename = true
  /\ pop (split "." filename) = pop (split "." "../../etc/passwd")
  /\ Remote.within (absolute_of (["home"; "faji2535"; "uploads"] ++ ["studio-requests"]))
       (uploadFile_remotePath "/home/faji2535/admin-files"
          (absolute_of ["home"; "faji2535"; "uploads"]) "studio-requests" filename)
     = true
  /\ uploadFile "/home/faji2535/admin-files"
       (absolute_of ["home"; "faji2535"; "uploads"]) "https://files.example.org"
       "studio-requests" filename
     = "https://files.example.org" ++ "/" ++ "studio-requests" ++ "/" ++ filename.
Proof.
  apply (uploads_stay_in_their_directory ["home"; "faji2535"; "uploads"]
           "/home/faji2535/admin-files" "https://files.example.org"
           "studio-requests" 1700000000000 "0.k3j9x2m1q8w7e5r4t6" "../../etc/passwd").
  - discriminate.
  - repeat constructor.
  - right. reflexivity.
  - reflexivity.
Defined.

(** *** The targets of the admin routes *)

Lemma startsWith_slash s :
  Js.startsWith s "/" = match s with String c _ => Ascii.eqb c "/" | EmptyString => false end.
Proof.
  destruct s as [|c s]; [reflexivity|]. unfold Js.startsWith. cbn [String.prefix].
  destruct (ascii_dec "/" c) as [<-|Hne]; [now destruct s|].
  symmetry. apply Ascii.eqb_neq. congruence.
Qed.

Lemma collapse_slashes_nonempty s : s <> "" -> collapse_slashes s <> "".
Proof.
  induction s as [|c s IH]; [contradiction|]. intros _. cbn [collapse_slashes].
  destruct (Ascii.eqb c "/" && Js.startsWith s "/") eqn:E; [|discriminate].
  apply IH. apply andb_prop in E. destruct E as [_ E]. now destruct s.
Qed.

Lemma collapse_slashes_no_run s : Js.includes (collapse_slashes s) "//" = false.
Proof.
  induction s as [|c s IH]; [reflexivity|]. cbn [collapse_slashes].
  destruct (Ascii.eqb c "/" && Js.startsWith s "/") eqn:E; [exact IH|].
  cbn [Js.includes]. rewrite IH, orb_false_r. cbn [String.prefix].
  destruct (ascii_dec "/" c) as [<-|]; [|reflexivity].
  cbn [andb Ascii.eqb Bool.eqb] in E. change (Ascii.eqb "/" "/") with true in E.
  cbn [andb] in E. rewrite startsWith_slash in E.
  destruct s as [|d s]; [reflexivity|]. cbn [collapse_slashes].
  destruct (Ascii.eqb d "/" && Js.startsWith s "/") eqn:E2.
  - rewrite E in E2. discriminate.
  - cbn [String.prefix]. destruct (ascii_dec "/" d) as [<-|]; [discriminate|reflexivity].
Qed.

Lemma endsWithSlash_collapse s : endsWithSlash (collapse_slashes s) = endsWithSlash s.
Proof.
  induction s as [|c s IH]; [reflexivity|]. cbn [collapse_slashes].
  destruct (Ascii.eqb c "/" && Js.startsWith s "/") eqn:E.
  - apply andb_prop in E. destruct E as [_ E]. rewrite IH.
    destruct s; [discriminate|reflexivity].
  - destruct s as [|d s]; [reflexivity|].
    pose proof (collapse_slashes_nonempty (String d s)) as Hne.
    cbn [endsWithSlash]. destruct (collapse_slashes (String d s)) eqn:C.
    + now destruct Hne.
    + exact IH.
Qed.

Lemma segments_collapse s :
  exists s1 more more',
    segments s = s1 :: more /\ segments (collapse_slashes s) = s1 :: more'
    /\ filter named more = filter named more'.
Proof.
  induction s as [|c s IH].
  - exists "", [], []. now repeat split.
  - destruct IH as (s1 & more & more' & Hs & Hc & Hf).
    cbn [collapse_slashes segments]. rewrite Hs.
    destruct (Ascii.eqb c "/") eqn:E; cbn [andb].
    + rewrite startsWith_slash.
      destruct s as [|d s].
      * cbn in Hs, Hc. injection Hs as <- <-. cbn [segments]. rewrite E.
        exists "", [""], [""]. now repeat split.
      * destruct (Ascii.eqb d "/") eqn:E2.
        -- cbn [segments] in Hs. rewrite E2 in Hs. injection Hs as <- <-.
           rewrite Hc. exists "", ("" :: segments s), more'.
           repeat split. cbn [filter named String.eqb negb]. exact Hf.
        -- cbn [segments]. rewrite E, Hc.
           exists "", (s1 :: more), (s1 :: more'). repeat split.
           cbn [filter]. now rewrite Hf.
    + cbn [segments]. rewrite E, Hc. exists (String c s1), more, more'.
      now repeat split.
Qed.

Lemma normalizeSegments_named allow l kept :
  normalizeSegments allow l kept = normalizeSegments allow (filter named l) kept.
Proof.
  revert kept. induction l as [|seg l IH]; intros kept; [reflexivity|].
  cbn [filter]. unfold named at 1.
  destruct (String.eqb_spec seg "") as [->|Hne]; cbn [negb].
  - cbn [normalizeSegments String.eqb orb]. apply IH.
  - cbn [normalizeSegments].
    destruct ((seg =? "") || (seg =? ".")); [apply IH|].
    destruct (seg =? ".."); [|apply IH].
    destruct kept as [|last before]; [apply IH|].
    destruct (last =? ".."); apply IH.
Qed.

Lemma join_collapsed segs x :
  segs <> [] -> x <> "" ->
  join [absolute_of segs; collapse_slashes x] = join [absolute_of segs; x].
Proof.
  intros Hne Hx. pose proof (collapse_slashes_nonempty x Hx) as Hc.
  unfold join. cbn [filter].
  assert (Hb : (absolute_of segs =? "") = false) by reflexivity. rewrite Hb.
  destruct (String.eqb_spec (collapse_slashes x) ""); [contradiction|].
  destruct (String.eqb_spec x ""); [contradiction|]. cbn [negb Js.join].
  unfold absolute_of.
  change (("/" ++ Js.join "/" segs) ++ "/" ++ ?y)
    with (String "/" (Js.join "/" segs ++ "/" ++ y)).
  rewrite !normalize_absolute. cbv zeta. rewrite !segments_app_slash.
  assert (Hsegs : normalizeSegments false
                    (segments (Js.join "/" segs) ++ segments (collapse_slashes x)) []
                  = normalizeSegments false
                      (segments (Js.join "/" segs) ++ segments x) []).
  { rewrite normalizeSegments_named, (normalizeSegments_named _ (_ ++ segments x)).
    rewrite !filter_app.
    destruct (segments_collapse x) as (s1 & more & more' & -> & -> & Hf).
    cbn [filter]. now rewrite Hf. }
  rewrite Hsegs.
  assert (Hends : forall y, y <> "" ->
             endsWithSlash (String "/" (Js.join "/" segs ++ "/" ++ y))
             = endsWithSlash y).
  { intros y Hy.
    change (String "/" (Js.join "/" segs ++ "/" ++ y))
      with ("/" ++ Js.join "/" segs ++ "/" ++ y).
    rewrite <- !append_assoc. now apply endsWithSlash_app. }
  now rewrite !Hends, endsWithSlash_collapse by assumption.
Qed.

Lemma no_dotdot_app a b :
  no_dotdot (a ++ "/" ++ b) = no_dotdot a && no_dotdot b.
Proof. unfold no_dotdot. now rewrite segments_app_slash, forallb_app. Qed.

Lemma join_three segs path name :
  path <> "" -> name <> "" ->
  join [absolute_of segs; path; name] = join [absolute_of segs; path ++ "/" ++ name].
Proof.
  intros Hp Hn. unfold join. cbn [filter].
  assert (Hb : (absolute_of segs =? "") = false) by reflexivity. rewrite Hb.
  destruct (String.eqb_spec path ""); [contradiction|].
  destruct (String.eqb_spec name ""); [contradiction|].
  destruct (String.eqb_spec (path ++ "/" ++ name) "") as [E|_];
    [destruct path; discriminate|].
  reflexivity.
Qed.

(** X29.  The upload and create-folder routes of the admin storage hand
    [path/name] with its runs of separators collapsed to the storage client;
    the file or directory ends up where [path.join] resolves the admin
    root, the path and the name, which is within the admin root when neither
    the path nor the name has a [..] segment. *)
Theorem admin_targets_are_joined_paths segs basePath path name :
  segs <> [] -> Forall (fun seg => plain seg = true) segs ->
  path <> "" -> name <> "" ->
  let remotePath := admin_remotePath path name in
  let target := join [absolute_of segs; path; name] in
  Js.includes remotePath "//" = false
  /\ uploadFile_remotePath (absolute_of segs) basePath "admin" remotePath = target
  /\ createAdminDirectory_path (absolute_of segs) remotePath = target
  /\ (no_dotdot path = true -> no_dotdot name = true ->
      Remote.within (absolute_of segs) target = true).
Proof.
  intros Hne Hsegs Hp Hn remotePath target.
  assert (Hx : path ++ "/" ++ name <> "") by (destruct path; discriminate).
  assert (Htarget : join [absolute_of segs; remotePath] = target).
  { subst remotePath target. unfold admin_remotePath.
    now rewrite join_collapsed, join_three. }
  split; [apply collapse_slashes_no_run|split; [exact Htarget|split; [exact Htarget|]]].
  intros Hpd Hnd. subst target. rewrite join_three by assumption.
  apply join_base_within; [assumption|assumption|].
  now rewrite no_dotdot_app, Hpd, Hnd.
Qed.

Lemma admin_targets_are_joined_paths_witness :
  let remotePath := admin_remotePath "/2024//masters/" "set.wav" in
  let target := join [absolute_of ["home"; "faji2535"; "admin-files"];
                      "/2024//masters/"; "set.wav"] in
  Js.includes remotePath "//" = false
  /\ uploadFile_remotePath (absolute_of ["home"; "faji2535"; "admin-files"])
       "/home/faji2535/uploads" "admin" remotePath = target
  /\ createAdminDirectory_path (absolute_of ["home"; "faji2535"; "admin-files"])
       remotePath = target
  /\ (no_dotdot "/2024//masters/" = true -> no_dotdot "set.wav" = true ->
      Remote.within (absolute_of ["home"; "faji2535"; "admin-files"]) target = true).
Proof.
  apply (admin_targets_are_joined_paths ["home"; "faji2535"; "admin-files"]
           "/home/faji2535/uploads" "/2024//masters/" "set.wav").
  - discriminate.
  - repeat constructor.
  - discriminate.
  - discriminate.
Defined.

End UploadFacts.
